(** * Generalized series (ore_algebra, [generalized_series.py])

    A shallow embedding of the value types [ContinuousGeneralizedSeries] and
    [DiscreteGeneralizedSeries], of their normalizing constructors and of the
    arithmetic built on them, over the coefficient field [QQ].

    The source is Python 2 code running on top of a computer algebra system
    (the "host"): exact rationals, dense univariate polynomials, and truncated
    power series with a recorded precision.  The host's objects are modelled
    by lists of coefficients, lowest degree first, kept in the canonical form
    the host keeps them in (no trailing zero coefficient).  Python exceptions
    are values of type [exn]; a function that may raise returns a [result]. *)

From Stdlib Require Import ZArith QArith Qcanon List Lia Bool Arith.
From Stdlib Require String.
Import ListNotations.
Import String.StringSyntax.
Delimit Scope string_scope with string.

Set Implicit Arguments.

(** ** Exceptions *)

(** The messages of the [ValueError]s raised by the source. *)
Inductive value_error : Type :=
| ramification_must_be_a_positive_integer
| s_must_be_a_positive_integer_multiple_of_the_ramification
| can_only_add_generalized_series_if_they_are_similar
| generalized_series_involving_logarithms_are_not_invertible
| only_nonnegative_shifts_are_allowed
| insufficient_precision
| no_message.

(** The messages of the [TypeError]s raised by the source. *)
Inductive type_error : Type :=
| exponent_must_be_a_rational_number.

(** [HostError] stands for any exception that is raised inside the host
    algebra system rather than by a [raise] statement of the source: an
    operation of the host applied outside its domain (a polynomial raised to
    a non-integral power, a non-unit inverted in a polynomial ring, a loop
    bound that is no integer, ...). *)
Inductive exn : Type :=
| ZeroDivisionError
| ValueError (why : value_error)
| TypeError (why : type_error)
| NotImplementedError
| AttributeError
| HostError.

Inductive result (A : Type) : Type :=
| Ok (a : A)
| Raise (e : exn).
Arguments Raise {A} e.

Definition bind {A B : Type} (m : result A) (k : A -> result B) : result B :=
  match m with
  | Ok a => k a
  | Raise e => Raise e
  end.

Notation "'do' x <- m ; k" := (bind m (fun x => k))
  (at level 10, x pattern, m at level 100, k at level 200).

(** A Python value as returned by a predicate method: a method whose body
    ends without a [return] statement returns [None]. *)
Inductive pyvalue : Type :=
| PyNone
| PyBool (b : bool).

(** Truth value of a Python object in a condition ([None] is falsy). *)
Definition truthy (v : pyvalue) : bool :=
  match v with
  | PyNone => false
  | PyBool b => b
  end.

(** ** The coefficient field [QQ] *)

Open Scope Qc_scope.

Definition Z2Qc (n : Z) : Qc := Q2Qc (inject_Z n).
Definition nat2Qc (n : nat) : Qc := Z2Qc (Z.of_nat n).

(** The rational [n/d] for a positive denominator [d]. *)
Definition rat (n d : Z) : Qc := Q2Qc (Qmake n (Z.to_pos d)).

Definition numerator (q : Qc) : Z := Qnum (this q).
Definition denominator (q : Qc) : Z := Zpos (Qden (this q)).

(** [x in ZZ] for a rational [x]. *)
Definition in_ZZ (q : Qc) : bool := (denominator q =? 1)%Z.

(** Conversion [ZZ(x)] of a rational; the host refuses a proper fraction. *)
Definition to_ZZ (q : Qc) : result Z :=
  if in_ZZ q then Ok (numerator q) else Raise HostError.

Definition Qc_ltb (a b : Qc) : bool :=
  match a ?= b with Lt => true | _ => false end.

Definition Qc_min (a b : Qc) : Qc := if Qc_ltb b a then b else a.
Definition Qc_max (a b : Qc) : Qc := if Qc_ltb a b then b else a.

(** Python's [min] over a non-empty sequence of rationals. *)
Definition min_list (l : list Qc) : Qc :=
  match l with
  | [] => 0
  | a :: l' => fold_left Qc_min l' a
  end.

(** The host's [lcm] of a list of integers; the empty list gives 1. *)
Definition lcm_list (l : list Z) : Z := fold_left Z.lcm l 1%Z.

(** Truncation orders: a natural number, or [None] for [+Infinity]. *)
Definition eprec : Type := option nat.

Definition eprec_min (a b : eprec) : eprec :=
  match a, b with
  | None, _ => b
  | _, None => a
  | Some m, Some n => Some (Nat.min m n)
  end.

Definition eprec_min_list (l : list eprec) : eprec := fold_right eprec_min None l.

(** ** Dense univariate polynomials over a coefficient ring

    The host implements one generic dense polynomial type and uses it both for
    the ring [K[x]] that stores exponential parts and for the ring
    [K[[x]][LOG]] that stores tails.  The operations below are generic in the
    coefficients in the same way. *)

Class Coeff (A : Type) : Type := {
  czero : A;
  cone : A;
  cadd : A -> A -> A;
  cneg : A -> A;
  cmul : A -> A -> A;
  cis_zero : A -> bool
}.

Section Dense.
Context {A : Type} `{Coeff A}.

(** Removal of the trailing zero coefficients (the host's normal form). *)
Fixpoint norm (p : list A) : list A :=
  match p with
  | [] => []
  | c :: p' =>
      match norm p' with
      | [] => if cis_zero c then [] else [c]
      | q => c :: q
      end
  end.

Definition is_zero_poly (p : list A) : bool :=
  match p with [] => true | _ :: _ => false end.

(** [p[k]]: the coefficient of degree [k], zero beyond the degree. *)
Definition coeff (p : list A) (k : nat) : A := nth k p czero.

(** [p.degree()]; the zero polynomial has degree -1. *)
Definition degree (p : list A) : Z := (Z.of_nat (length p) - 1)%Z.

(** [p.exponents()]: the degrees of the nonzero coefficients, ascending. *)
Definition exponents (p : list A) : list nat :=
  filter (fun k => negb (cis_zero (coeff p k))) (seq 0 (length p)).

(** [p.coefficients()]: the nonzero coefficients, ascending;
    [p.coeffs()] is the list [p] itself. *)
Definition coefficients (p : list A) : list A :=
  filter (fun c => negb (cis_zero c)) p.

Definition leading_coefficient (p : list A) : A := last p czero.

Fixpoint add_raw (p q : list A) : list A :=
  match p, q with
  | [], _ => q
  | _, [] => p
  | a :: p', b :: q' => cadd a b :: add_raw p' q'
  end.

Definition add (p q : list A) : list A := norm (add_raw p q).
Definition neg (p : list A) : list A := norm (map cneg p).
Definition sub (p q : list A) : list A := add p (neg q).
Definition scale (a : A) (p : list A) : list A := norm (map (cmul a) p).

(** Schoolbook product. *)
Fixpoint mul_raw (p q : list A) : list A :=
  match p with
  | [] => []
  | a :: p' => add_raw (map (cmul a) q) (czero :: mul_raw p' q)
  end.

Definition mul (p q : list A) : list A := norm (mul_raw p q).

Definition monomial (k : nat) : list A := repeat czero k ++ [cone].

Fixpoint pow (p : list A) (n : nat) : list A :=
  match n with
  | O => norm [cone]
  | S n' => mul p (pow p n')
  end.

Definition sum (l : list (list A)) : list A := fold_left add l [].

(** [p(q)], by Horner's rule. *)
Definition compose (p q : list A) : list A :=
  fold_right (fun a acc => add (norm [a]) (mul q acc)) [] p.

(** [p(x^q)] for a positive integer [q]: the coefficient of [x^k] moves to
    [x^(k*q)]. *)
Fixpoint stretch (q : nat) (p : list A) : list A :=
  match p with
  | [] => []
  | a :: p' => a :: repeat czero (q - 1) ++ stretch q p'
  end.

Definition subst_xpow (q : nat) (p : list A) : list A := norm (stretch q p).

(** A polynomial built from a Python dictionary [{exponent: coefficient}],
    given as the list of its assignments in the order they were made: a
    later assignment to the same key replaces the earlier one. *)
Definition dict_get (d : list (nat * A)) (k : nat) : A :=
  fold_left (fun acc kv => if Nat.eqb (fst kv) k then snd kv else acc) d czero.

Definition dict_size (d : list (nat * A)) : nat :=
  fold_right (fun kv m => Nat.max (S (fst kv)) m) O d.

Definition of_dict (d : list (nat * A)) : list A :=
  norm (map (dict_get d) (seq 0 (dict_size d))).

(** The dictionary built by the two rescaling loops of the constructors:
    [new[e/quo] = old[e]] for [e] in [old.exponents()]. *)
Definition rescaled (quo : nat) (p : list A) : list A :=
  of_dict (map (fun e => (Nat.div e quo, coeff p e)) (exponents p)).

(** [p.shift(k)] for [k >= 0] (multiplication by [x^k]) and
    [p.shift(-k)] (quotient of the division by [x^k]). *)
Definition shift_up (k : nat) (p : list A) : list A := norm (repeat czero k ++ p).
Definition shift_down (k : nat) (p : list A) : list A := skipn k p.

(** [p % x^k]. *)
Definition mod_xpow (k : nat) (p : list A) : list A := norm (firstn k p).

(** [p.padded_list(n)]: the first [n] coefficients, padded with zeros. *)
Definition padded_list (n : nat) (p : list A) : list A :=
  firstn n (p ++ repeat czero (n - length p)).

(** [p.reverse()]: the coefficient list reversed. *)
Definition reverse (p : list A) : list A := norm (rev p).
End Dense.

(** ** The ring [K[x]] of exponential parts *)

Definition Qc_is_zero (c : Qc) : bool := Qc_eq_bool c 0.

#[export] Instance Qc_Coeff : Coeff Qc := {
  czero := 0;
  cone := 1;
  cadd := Qcplus;
  cneg := Qcopp;
  cmul := Qcmult;
  cis_zero := Qc_is_zero
}.

Definition poly : Type := list Qc.

(** The constant polynomial [c]. *)
Definition const (c : Qc) : poly := norm [c].

(** [p.constant_coefficient()]. *)
Definition constant_coefficient (p : poly) : Qc := coeff p 0.

(** [p in ZZ] for a polynomial: a constant whose value is an integer. *)
Definition poly_in_ZZ (p : poly) : bool :=
  match p with
  | [] => true
  | [c] => in_ZZ c
  | _ => false
  end.

(** [p in QQ] for a polynomial over [QQ]: a constant. *)
Definition poly_in_QQ (p : poly) : bool :=
  match p with
  | [] | [_] => true
  | _ => false
  end.

(** [ZZ(p)]. *)
Definition poly_to_ZZ (p : poly) : result Z :=
  match p with
  | [] => Ok 0%Z
  | [c] => to_ZZ c
  | _ => Raise HostError
  end.

(** ** Truncated power series [K[[x]]]

    A power series is stored by the host as a polynomial together with a
    truncation order ("precision"): [f + O(x^prec)], or an exact series when
    the precision is [+Infinity].  The polynomial has no term of degree
    [prec] or more. *)

Record pseries : Type := PS { ps_poly : poly; ps_prec : eprec }.

Definition truncate (prec : eprec) (l : list Qc) : list Qc :=
  match prec with
  | None => l
  | Some n => firstn n l
  end.

(** The host's constructor [PS(f, prec)]. *)
Definition mk_ps (l : list Qc) (prec : eprec) : pseries :=
  PS (norm (truncate prec l)) prec.

Definition ps_zero : pseries := PS [] None.
Definition ps_one : pseries := PS [1] None.
Definition ps_const (c : Qc) : pseries := PS (const c) None.

(** The power series [x^k]. *)
Definition ps_xpow (k : nat) : pseries := PS (monomial k) None.

(** [c.is_zero()]: the stored polynomial is zero, whatever the precision. *)
Definition ps_is_zero (c : pseries) : bool := is_zero_poly (ps_poly c).

(** Modelled from the spec: the host's truncated power-series arithmetic,
    which is no part of the repository.  Sums and products are truncated at
    the minimum of the two precisions. *)
Definition ps_add (a b : pseries) : pseries :=
  mk_ps (add_raw (ps_poly a) (ps_poly b)) (eprec_min (ps_prec a) (ps_prec b)).

Definition ps_mul (a b : pseries) : pseries :=
  mk_ps (mul_raw (ps_poly a) (ps_poly b)) (eprec_min (ps_prec a) (ps_prec b)).

Definition ps_neg (a : pseries) : pseries :=
  mk_ps (map Qcopp (ps_poly a)) (ps_prec a).

(** Product with a constant of [K]. *)
Definition ps_scale (k : Qc) (a : pseries) : pseries :=
  mk_ps (map (Qcmult k) (ps_poly a)) (ps_prec a).

#[export] Instance pseries_Coeff : Coeff pseries := {
  czero := ps_zero;
  cone := ps_one;
  cadd := ps_add;
  cneg := ps_neg;
  cmul := ps_mul;
  cis_zero := ps_is_zero
}.

(** Number of zero coefficients below the first nonzero one. *)
Fixpoint low_zeros (l : list Qc) : nat :=
  match l with
  | [] => O
  | c :: l' => if Qc_is_zero c then S (low_zeros l') else O
  end.

(** [c.valuation()]: the degree of the lowest term, and the precision when
    no term is stored. *)
Definition ps_valuation (c : pseries) : eprec :=
  if ps_is_zero c then ps_prec c else Some (low_zeros (ps_poly c)).

(** [c.exponents()] and [c[e]]. *)
Definition ps_exponents (c : pseries) : list nat := exponents (ps_poly c).
Definition ps_coeff (c : pseries) (e : nat) : Qc := coeff (ps_poly c) e.

(** [c.coefficients()[0]]: the lowest nonzero coefficient. *)
Definition ps_first_coefficient (c : pseries) : Qc :=
  hd 0 (coefficients (ps_poly c)).

Definition eprec_sub (p : eprec) (k : nat) : eprec := option_map (fun n => (n - k)%nat) p.
Definition eprec_mul (p : eprec) (k : nat) : eprec := option_map (fun n => (n * k)%nat) p.

(** [q // x^k]: the terms move down by [k] degrees. *)
Definition ps_floordiv_xpow (k : nat) (q : pseries) : pseries :=
  PS (skipn k (ps_poly q)) (eprec_sub (ps_prec q) k).

(** [c(x^q)]. *)
Definition ps_subst_xpow (q : nat) (c : pseries) : pseries :=
  PS (subst_xpow q (ps_poly c)) (eprec_mul (ps_prec c) q).

(** The conversion of a dictionary into the power series ring, as in
    [c.parent()(c_new)]: no precision is passed, the result is exact. *)
Definition ps_rescaled (quo : nat) (c : pseries) : pseries :=
  PS (rescaled quo (ps_poly c)) None.

(** The precision the host gives to the inverse of an exact series. *)
Definition default_prec : nat := 20.

(** The first [n] coefficients of [1/a], for [a] with a nonzero constant
    term. *)
Fixpoint inv_coeffs (a : poly) (n : nat) : list Qc :=
  match n with
  | O => []
  | S n' =>
      let b := inv_coeffs a n' in
      let s := fold_right Qcplus 0
                 (map (fun j => coeff a j * coeff b (n' - j)) (seq 1 n')) in
      b ++ [match n' with
            | O => / coeff a 0
            | S _ => - (/ coeff a 0) * s
            end]
  end.

Definition ps_is_unit (c : pseries) : bool := negb (Qc_is_zero (ps_coeff c 0)).

(** [~c] for a unit [c] of the power series ring. *)
Definition ps_inv (c : pseries) : pseries :=
  let n := match ps_prec c with Some n => n | None => default_prec end in
  mk_ps (inv_coeffs (ps_poly c) n) (Some n).

Fixpoint list_eqb {A : Type} (eqb : A -> A -> bool) (l m : list A) : bool :=
  match l, m with
  | [], [] => true
  | a :: l', b :: m' => eqb a b && list_eqb eqb l' m'
  | _, _ => false
  end.

Definition poly_eqb (p q : poly) : bool := list_eqb Qc_eq_bool p q.

(** The host's [==] on power series: two series are equal when their
    coefficients agree below the smaller of the two precisions. *)
Definition ps_eqb (a b : pseries) : bool :=
  let p := eprec_min (ps_prec a) (ps_prec b) in
  poly_eqb (norm (truncate p (ps_poly a))) (norm (truncate p (ps_poly b))).

(** ** The ring [K[[x]][LOG]] of tails *)

Definition tpoly : Type := list pseries.

(** The conversion [parent.tail_ring()(tail)] of a list of series. *)
Definition tail_ring (t : list pseries) : tpoly :=
  norm (map (fun c => mk_ps (ps_poly c) (ps_prec c)) t).

(** [p.map_coefficients(f)]: the host applies [f] to the entries of
    [p.dict()], that is to the nonzero coefficients, and rebuilds the
    polynomial from the new dictionary. *)
Definition map_coefficients (f : pseries -> pseries) (p : tpoly) : tpoly :=
  norm (map (fun c => if ps_is_zero c then ps_zero else f c) p).

(** The host's [==] on polynomials: same degree and equal coefficients. *)
Definition tpoly_eqb (p q : tpoly) : bool := list_eqb ps_eqb p q.

(** [p.is_one()]. *)
Definition tpoly_is_one (p : tpoly) : bool := tpoly_eqb p [ps_one].

(** [p / p.leading_coefficient().coefficients()[0]]. *)
Definition make_monic_tail (p : tpoly) : tpoly :=
  let k := ps_first_coefficient (leading_coefficient p) in
  norm (map (ps_scale (/ k)) p).

(** [~p] for a polynomial [p] over the power series ring, converted back into
    the ring of tails: the quotient [1/p] lives in the fraction field, and the
    conversion succeeds only when [p] is a unit, a constant polynomial whose
    constant is a unit of [K[[x]]]. *)
Definition tpoly_invert (p : tpoly) : result tpoly :=
  match p with
  | [c] => if ps_is_unit c then Ok (norm [ps_inv c]) else Raise HostError
  | _ => Raise HostError
  end.

(** ** [ContinuousGeneralizedSeries] *)

(** The object [exp(int(exp(x^(-1/ramification))/x)) * tail(x^(1/ramification), log(x))]. *)
Record ContinuousGeneralizedSeries : Type := CGS {
  c_ramification : Z;
  c_exp : poly;
  c_tail : tpoly
}.

(** The first argument of the constructor: another series (which is copied),
    or data for the ring of tails. *)
Inductive tail_arg : Type :=
| FromSeries (A : ContinuousGeneralizedSeries)
| FromTail (t : list pseries).

(** [Integer(q)] for an exponent [q]; a power [x**q] of a series or
    polynomial needs a nonnegative integer. *)
Definition to_exponent (q : Qc) : result nat :=
  do n <- to_ZZ q;
  if (n <? 0)%Z then Raise HostError else Ok (Z.to_nat n).

(** [(e/ramification).denominator()]. *)
Definition exponent_denominator (ramification : Z) (e : nat) : Z :=
  denominator (rat (Z.of_nat e) ramification).

(** The minimal ramification computed by the constructor: the lcm of the
    denominators of the exponents of [exp] and, only when that is smaller
    than [ramification], of the exponents of the coefficients of [p]. *)
Definition new_ramification (exp : poly) (p : tpoly) (ramification : Z) : Z :=
  let new_ram := lcm_list (map (exponent_denominator ramification) (exponents exp)) in
  if (new_ram <? ramification)%Z then
    fold_left
      (fun new_ram c =>
         lcm_list (new_ram :: map (exponent_denominator ramification) (ps_exponents c)))
      (coefficients p) new_ram
  else new_ram.

(** [ContinuousGeneralizedSeries.__init__].  The quotient
    [quo = ramification / new_ram] is exact and divides every exponent that
    is rescaled (lemmas [new_ramification_divides] and
    [new_ramification_exact]), so the keys [e/quo] and [int(e/quo)] of the
    two dictionaries are the integer quotients. *)
Definition cgs_init (tail : tail_arg) (exp : list Qc) (ramification : Z)
    (make_monic : bool) : result ContinuousGeneralizedSeries :=
  match tail with
  | FromSeries A =>
      let t := tail_ring (c_tail A) in
      Ok (CGS (c_ramification A) (norm (c_exp A))
            (if make_monic && negb (is_zero_poly t) then make_monic_tail t else t))
  | FromTail tail =>
      let p := tail_ring tail in
      if (ramification <=? 0)%Z then
        Raise (ValueError ramification_must_be_a_positive_integer)
      else if is_zero_poly p then
        Ok (CGS 1 [] [])
      else
        let exp := norm exp in
        let alpha :=
          min_list (map (fun c => rat (Z.of_nat (low_zeros (ps_poly c))) ramification)
                      (coefficients p)) in
        do ep <- (if Qc_is_zero alpha then Ok (exp, p)
                  else
                    (* move part of the tail to the exponential part *)
                    do k <- to_exponent (Z2Qc ramification * alpha);
                    Ok (add exp (const alpha),
                        map_coefficients (ps_floordiv_xpow k) p));
        let '(exp, p) := ep in
        let new_ram := new_ramification exp p ramification in
        let '(ramification, exp, p) :=
          if (new_ram =? ramification)%Z then (ramification, exp, p)
          else
            (* the actual ramification is smaller than the specified one *)
            let quo := Z.to_nat (ramification / new_ram) in
            (new_ram, rescaled quo exp, norm (map (ps_rescaled quo) p)) in
        let p := if make_monic then make_monic_tail p else p in
        Ok (CGS ramification exp p)
  end.

Definition cgs_ramification (A : ContinuousGeneralizedSeries) : Z := c_ramification A.

(** [is_zero]: True if the tail is zero. *)
Definition cgs_is_zero (A : ContinuousGeneralizedSeries) : bool :=
  is_zero_poly (c_tail A).

(** [__inflate(s)]: exp and tail written as for ramification [s].  The
    quotient [quo = s / r] is an exact rational, so [r*quo != s] never holds;
    the substitution [x**quo] needs [quo] to be a positive integer. *)
Definition cgs_inflate (A : ContinuousGeneralizedSeries) (s : Z) : result (poly * tpoly) :=
  let r := cgs_ramification A in
  if (s =? r)%Z then Ok (c_exp A, c_tail A)
  else if (r =? 0)%Z then Raise ZeroDivisionError
  else if (s <=? 0)%Z then
    Raise (ValueError s_must_be_a_positive_integer_multiple_of_the_ramification)
  else if ((s mod r =? 0) && (0 <? s / r))%Z then
    let quo := Z.to_nat (s / r) in
    Ok (subst_xpow quo (c_exp A),
        map_coefficients (ps_subst_xpow quo) (c_tail A))
  else Raise HostError.

(** [__eq__] for two series of the same parent. *)
Definition cgs_eq (A B : ContinuousGeneralizedSeries) : bool :=
  (c_ramification A =? c_ramification B)%Z
  && poly_eqb (c_exp A) (c_exp B)
  && tpoly_eqb (c_tail A) (c_tail B).

(** [_mul_]. *)
Definition cgs_mul (A B : ContinuousGeneralizedSeries) : result ContinuousGeneralizedSeries :=
  let s := Z.lcm (cgs_ramification A) (cgs_ramification B) in
  do a <- cgs_inflate A s;
  do b <- cgs_inflate B s;
  cgs_init (FromTail (mul (snd a) (snd b))) (add (fst a) (fst b)) s false.

(** [_neg_]. *)
Definition cgs_neg (A : ContinuousGeneralizedSeries) : result ContinuousGeneralizedSeries :=
  cgs_init (FromTail (neg (c_tail A))) (c_exp A) (cgs_ramification A) false.

(** The reference set of [similar]: [ZZ] by default, or [QQ]. *)
Inductive reference : Type := ZZ | QQ.

(** [similar]: [s*(Ae - Be) in reference]. *)
Definition cgs_similar (A B : ContinuousGeneralizedSeries) (ref : reference) : result bool :=
  let s := Z.lcm (cgs_ramification A) (cgs_ramification B) in
  do a <- cgs_inflate A s;
  do b <- cgs_inflate B s;
  let d := scale (Z2Qc s) (sub (fst a) (fst b)) in
  Ok (match ref with ZZ => poly_in_ZZ d | QQ => poly_in_QQ d end).

(** [_add_]. *)
Definition cgs_add (A B : ContinuousGeneralizedSeries) : result ContinuousGeneralizedSeries :=
  if cgs_is_zero A then Ok B
  else if cgs_is_zero B then Ok A
  else
    do sim <- cgs_similar A B ZZ;
    if negb sim then
      Raise (ValueError can_only_add_generalized_series_if_they_are_similar)
    else
      let s := Z.lcm (cgs_ramification A) (cgs_ramification B) in
      do a <- cgs_inflate A s;
      do b <- cgs_inflate B s;
      do exp_diff <- poly_to_ZZ (scale (Z2Qc s) (sub (fst a) (fst b)));
      let '(Ae, At, Be, Bt, exp_diff) :=
        if (exp_diff <? 0)%Z then (fst b, snd b, fst a, snd a, (- exp_diff)%Z)
        else (fst a, snd a, fst b, snd b, exp_diff) in
      cgs_init (FromTail (add (scale (ps_xpow (Z.to_nat exp_diff)) At) Bt)) Be s false.

(** [has_logarithms]: the body evaluates [self.__tail.degree() > 0] and
    ends without returning it. *)
Definition cgs_has_logarithms (A : ContinuousGeneralizedSeries) : pyvalue :=
  let _ := (0 <? degree (c_tail A))%Z in
  PyNone.

(** [__invert__]. *)
Definition cgs_invert (A : ContinuousGeneralizedSeries) : result ContinuousGeneralizedSeries :=
  if cgs_is_zero A then Raise ZeroDivisionError
  else if truthy (cgs_has_logarithms A) then
    Raise (ValueError generalized_series_involving_logarithms_are_not_invertible)
  else
    do t <- tpoly_invert (c_tail A);
    cgs_init (FromTail t) (neg (c_exp A)) (cgs_ramification A) false.

(** [exponential_part]: the series obtained by discarding the tail. *)
Definition cgs_exponential_part (A : ContinuousGeneralizedSeries)
  : result ContinuousGeneralizedSeries :=
  cgs_init (FromTail [ps_one]) (c_exp A) (cgs_ramification A) false.

(** [has_exponential_part]: [not self.exponential_part().is_zero()]. *)
Definition cgs_has_exponential_part (A : ContinuousGeneralizedSeries) : result bool :=
  do E <- cgs_exponential_part A;
  Ok (negb (cgs_is_zero E)).

(** [tail]: the series obtained by dropping the exponential part. *)
Definition cgs_tail (A : ContinuousGeneralizedSeries) : result ContinuousGeneralizedSeries :=
  cgs_init (FromTail (c_tail A)) [] (cgs_ramification A) false.

(** [order]: [None] stands for [infinity]. *)
Definition cgs_order (A : ContinuousGeneralizedSeries) : option Qc :=
  if cgs_is_zero A then None else Some (constant_coefficient (c_exp A)).

(** [is_one]. *)
Definition cgs_is_one (A : ContinuousGeneralizedSeries) : result bool :=
  do h <- cgs_has_exponential_part A;
  Ok (negb h && tpoly_is_one (c_tail A)).

(** [prec]: the minimum of the precisions of the coefficients of the tail. *)
Definition cgs_prec (A : ContinuousGeneralizedSeries) : eprec :=
  if is_zero_poly (c_tail A) then None
  else eprec_min_list (map ps_prec (coefficients (c_tail A))).

(** The argument of [substitute]: a rational number, or any other object. *)
Inductive exponent_arg : Type :=
| Rational (e : Qc)
| NotRational.

(** [substitute(e)]: replace [x] by [x^e]. *)
Definition cgs_substitute (A : ContinuousGeneralizedSeries) (e : exponent_arg)
  : result ContinuousGeneralizedSeries :=
  match e with
  | NotRational => Raise (TypeError exponent_must_be_a_rational_number)
  | Rational e =>
      if negb (Qc_ltb 0 e) then Raise (TypeError exponent_must_be_a_rational_number)
      else if Qc_eq_bool e 1 then Ok A
      else
        let a := Z.to_nat (numerator e) in
        let b := denominator e in
        let exp := scale e (subst_xpow a (c_exp A)) in
        let tail :=
          map_coefficients (ps_subst_xpow a)
            (compose (c_tail A) (norm [ps_zero; ps_const e])) in
        cgs_init (FromTail tail) exp (b * cgs_ramification A) false
  end.

(** The canonical zero and one of a continuous monoid: the elements [G(0)]
    and [G(1)]. *)
Definition cgs_zero : ContinuousGeneralizedSeries := CGS 1 [] [].
Definition cgs_one : ContinuousGeneralizedSeries := CGS 1 [] [ps_one].

(** ** [DiscreteGeneralizedSeries] *)

(** The object
    [(n/e)^(gamma*n) * rho^n * exp(subexp(n^(1/ram))) * n^alpha * expansion(n^(-1/ram), log(n))]. *)
Record DiscreteGeneralizedSeries : Type := DGS {
  d_gamma : Qc;
  d_ramification : Z;
  d_rho : Qc;
  d_subexp : poly;
  d_alpha : Qc;
  d_expansion : tpoly
}.

(** The entry [subexp] of the data: an element of [K[x]], or the list
    [[c_1, c_2, ...]] of its coefficients above the constant one. *)
Inductive subexp_arg : Type :=
| SubexpPoly (p : list Qc)
| SubexpList (l : list Qc).

(** The entry [expansion] of the data: a list whose items are series or lists
    of coefficients, or an element of the ring of tails. *)
Inductive expansion_item : Type :=
| ItemList (l : list Qc)
| ItemSeries (c : pseries).

Inductive expansion_arg : Type :=
| ExpansionList (l : list expansion_item)
| ExpansionTail (t : list pseries).

(** The argument [data] of the constructor. *)
Inductive data_arg : Type :=
| FromDiscrete (A : DiscreteGeneralizedSeries)
| FromScalar (p : list Qc)
| FromList (gamma : Qc) (ram : Z) (rho : Qc) (subexp : subexp_arg) (alpha : Qc)
    (expansion : expansion_arg).

Definition eprec_is_zero (p : eprec) : bool :=
  match p with Some O => true | _ => false end.

(** The list [data] the constructor builds from an argument that is no list:
    [R(data)] is a polynomial in [K[x]]. *)
Definition scalar_data (p : list Qc) : data_arg :=
  let data := norm p in
  if is_zero_poly data then
    FromList 0 1 1 (SubexpPoly []) 0 (ExpansionTail [])
  else
    FromList 0 1 1 (SubexpPoly []) (Z2Qc (degree data))
      (ExpansionTail [PS (reverse data) None]).

(** [DiscreteGeneralizedSeries.__init__].  In the branch that normalizes the
    ramification the source rescales [subexp] and [expansion] and leaves
    [self.__ramification] as it was. *)
Definition dgs_init_list (gamma : Qc) (ram : Z) (rho : Qc) (subexp : subexp_arg)
    (alpha : Qc) (expansion : expansion_arg) (make_monic : bool)
  : result DiscreteGeneralizedSeries :=
  let subexp :=
    match subexp with
    | SubexpPoly p => norm p
    | SubexpList l => norm (0 :: l)
    end in
  if Qc_is_zero rho || (ram <=? 0)%Z then Raise (ValueError no_message)
  else
    let expansion :=
      match expansion with
      | ExpansionList l =>
          tail_ring (map (fun it => match it with
                                    | ItemList l => mk_ps l (Some (length l))
                                    | ItemSeries c => c
                                    end) l)
      | ExpansionTail t => tail_ring t
      end in
    if is_zero_poly expansion then Ok (DGS 0 1 0 [] 0 [])
    else
      (* normalize alpha *)
      let diff := eprec_min_list (map ps_valuation expansion) in
      let '(alpha, expansion) :=
        match diff with
        | Some (S d) =>
            (alpha - rat (Z.of_nat (S d)) ram,
             map_coefficients (ps_floordiv_xpow (S d)) expansion)
        | _ => (alpha, expansion)
        end in
      (* normalize ramification *)
      let new_ram := denominator gamma in
      let new_ram :=
        lcm_list (new_ram :: map (exponent_denominator ram) (exponents subexp)) in
      let new_ram :=
        fold_left
          (fun new_ram c =>
             lcm_list (new_ram :: map (exponent_denominator ram) (ps_exponents c)))
          (coefficients expansion) new_ram in
      let '(subexp, expansion) :=
        if (new_ram <? ram)%Z then
          let quo := Z.to_nat (ram / new_ram) in
          (rescaled quo subexp, norm (map (ps_rescaled quo) expansion))
        else (subexp, expansion) in
      (* make monic if requested *)
      let expansion := if make_monic then make_monic_tail expansion else expansion in
      Ok (DGS gamma ram rho subexp alpha expansion).

Definition dgs_init (data : data_arg) (make_monic : bool)
  : result DiscreteGeneralizedSeries :=
  match data with
  | FromDiscrete A =>
      (* [self.__tail /= ...] reads an attribute that was never set *)
      if make_monic && negb (is_zero_poly (d_expansion A)) then Raise AttributeError
      else Ok A
  | FromScalar p =>
      match scalar_data p with
      | FromList gamma ram rho subexp alpha expansion =>
          dgs_init_list gamma ram rho subexp alpha expansion make_monic
      | _ => Raise HostError
      end
  | FromList gamma ram rho subexp alpha expansion =>
      dgs_init_list gamma ram rho subexp alpha expansion make_monic
  end.

(** [is_zero]. *)
Definition dgs_is_zero (A : DiscreteGeneralizedSeries) : bool :=
  is_zero_poly (d_expansion A).


(** [__inflate(s)]. *)
Definition dgs_inflate (A : DiscreteGeneralizedSeries) (s : Z) : result (poly * tpoly) :=
  let r := d_ramification A in
  if (r =? 0)%Z then Raise ZeroDivisionError
  else if (s =? r)%Z then Ok (d_subexp A, d_expansion A)
  else if ((s mod r =? 0) && (0 <? s / r))%Z then
    let quo := Z.to_nat (s / r) in
    Ok (subst_xpow quo (d_subexp A),
        map_coefficients (ps_subst_xpow quo) (d_expansion A))
  else Raise HostError.

(** [__eq__] for two series of the same parent. *)
Definition dgs_eq (A B : DiscreteGeneralizedSeries) : bool :=
  Qc_eq_bool (d_gamma A) (d_gamma B)
  && (d_ramification A =? d_ramification B)%Z
  && Qc_eq_bool (d_rho A) (d_rho B)
  && poly_eqb (d_subexp A) (d_subexp B)
  && Qc_eq_bool (d_alpha A) (d_alpha B)
  && tpoly_eqb (d_expansion A) (d_expansion B).

(** [_mul_]. *)
Definition dgs_mul (A B : DiscreteGeneralizedSeries) : result DiscreteGeneralizedSeries :=
  let ram := Z.lcm (d_ramification A) (d_ramification B) in
  do a <- dgs_inflate A ram;
  do b <- dgs_inflate B ram;
  dgs_init (FromList (d_gamma A + d_gamma B) ram (d_rho A * d_rho B)
              (SubexpPoly (add (fst a) (fst b))) (d_alpha A + d_alpha B)
              (ExpansionTail (mul (snd a) (snd b)))) false.

(** [_neg_]. *)
Definition dgs_neg (A : DiscreteGeneralizedSeries) : result DiscreteGeneralizedSeries :=
  dgs_init (FromList (d_gamma A) (d_ramification A) (d_rho A) (SubexpPoly (d_subexp A))
              (d_alpha A) (ExpansionTail (neg (d_expansion A)))) false.

(** [similar] for two series of the same parent. *)
Definition dgs_similar (A B : DiscreteGeneralizedSeries) (ref : reference) : bool :=
  Qc_eq_bool (d_gamma A) (d_gamma B)
  && Qc_eq_bool (d_rho A) (d_rho B)
  && (d_ramification A =? d_ramification B)%Z
  && poly_eqb (d_subexp A) (d_subexp B)
  && match ref with ZZ => in_ZZ (d_alpha A - d_alpha B) | QQ => true end.

(** [_add_]. *)
Definition dgs_add (A B : DiscreteGeneralizedSeries) : result DiscreteGeneralizedSeries :=
  if dgs_is_zero A then Ok B
  else if dgs_is_zero B then Ok A
  else if negb (dgs_similar A B ZZ) then
    Raise (ValueError can_only_add_generalized_series_if_they_are_similar)
  else
    let ram := Z.lcm (d_ramification A) (d_ramification B) in
    do a <- dgs_inflate A ram;
    do b <- dgs_inflate B ram;
    let alpha := Qc_max (d_alpha A) (d_alpha B) in
    do ab <- (if Qc_ltb (d_alpha A) alpha then
                do k <- to_exponent (Z2Qc ram * (alpha - d_alpha A));
                Ok (scale (ps_xpow k) (snd a), snd b)
              else if Qc_ltb (d_alpha B) alpha then
                do k <- to_exponent (Z2Qc ram * (alpha - d_alpha B));
                Ok (snd a, scale (ps_xpow k) (snd b))
              else Ok (snd a, snd b));
    dgs_init (FromList (d_gamma A) (d_ramification A) (d_rho A) (SubexpPoly (fst a))
                alpha (ExpansionTail (add (fst ab) (snd ab)))) false.


Definition dgs_superexponential_part (A : DiscreteGeneralizedSeries) : Qc := d_gamma A.
Definition dgs_exponential_part (A : DiscreteGeneralizedSeries) : Qc := d_rho A.
Definition dgs_ramification (A : DiscreteGeneralizedSeries) : Z := d_ramification A.
Definition dgs_leading_exponent (A : DiscreteGeneralizedSeries) : Qc := d_alpha A.

(** [is_one]. *)
Definition dgs_is_one (A : DiscreteGeneralizedSeries) : bool :=
  Qc_eq_bool (d_gamma A) 0 && Qc_eq_bool (d_rho A) 1 && is_zero_poly (d_subexp A)
  && Qc_eq_bool (d_alpha A) 0 && tpoly_is_one (d_expansion A).

(** The canonical zero and one of a discrete monoid: the elements [G(0)] and
    [G(1)], as the constructor builds them from a scalar. *)
Definition dgs_zero : DiscreteGeneralizedSeries := DGS 0 1 0 [] 0 [].
Definition dgs_one : DiscreteGeneralizedSeries := DGS 0 1 1 [] 0 [ps_one].

(** ** The shift quotient *)

(** The generator [x] of [K[x]]. *)
Definition X : poly := [0; 1].

(** [_binomial(lam, j)]: works also when [lam] is not an integer. *)
Definition _binomial (lam : Qc) (j : nat) : Qc :=
  fst (fold_left
         (fun (st : Qc * Qc) (jj : nat) =>
            let '(b, lam) := st in (b * (lam / nat2Qc (j - jj)), lam - 1))
         (seq 0 j) (1, lam)).

Fixpoint factorial (k : nat) : nat :=
  match k with
  | O => 1%nat
  | S k' => (k * factorial k')%nat
  end.

(** The loop shared by [_super_expansion] and [_sub_expansion]:
    [outer = sum(inner^k / k!, k = 0..bound)], truncated modulo [n^modulus]. *)
Definition exp_truncated (inner : poly) (bound modulus : nat) : poly :=
  fst (fold_left
         (fun (st : poly * poly) (k : nat) =>
            let '(outer, inner_pow) := st in
            let inner_pow := mod_xpow modulus (mul inner_pow inner) in
            (add outer (scale (/ nat2Qc (factorial k)) inner_pow), inner_pow))
         (seq 1 bound) (const 1, const 1)).

(** [_super_expansion(gamma, i, n, prec)]: the expansion of
    [(1 + i/n)^(gamma*n)]. *)
Definition _super_expansion (gamma : Qc) (i : Z) (prec : nat) : poly :=
  let inner :=
    scale (gamma * Z2Qc i)
      (sum (map (fun l => scale (/ nat2Qc (l + 1)) (pow (scale (Z2Qc (- i)) X) l))
              (seq 1 prec))) in
  let outer := exp_truncated inner prec (prec + 1) in
  norm (rev (padded_list (prec + 1) outer)).

(** [_sub_expansion(coeffs, i, n, prec)] for [coeffs = (c, m)] and
    [v = m*(len(c) + 1)], which has to be a positive integer. *)
Definition _sub_expansion (c : list Qc) (v : nat) (i : Z) (prec : nat) : poly :=
  let prod :=
    fold_left
      (fun prod l =>
         let inner :=
           scale (nth (l - 1) c 0)
             (sum (map (fun j =>
                          scale (_binomial (nat2Qc l / nat2Qc v) j * Z2Qc i ^ j)
                            (monomial (v * j - l)))
                     (seq 1 prec))) in
         let outer := exp_truncated inner (v * prec) (v * prec + 1) in
         mod_xpow (v * prec + 1) (mul prod outer))
      (seq 1 (length c)) (const 1) in
  norm (rev (padded_list (v * prec + 1) prod)).

(** What [_generalized_series_shift_quotient] returns: a polynomial, or, for
    a zero shift and a negative precision, the power [x**(ram*prec)] with a
    negative exponent, an element of the fraction field. *)
Inductive certificate : Type :=
| Polynomial (p : poly)
| InverseOfPower (k : positive).

(** A requested precision: an integer, or [+Infinity]. *)
Inductive precision : Type :=
| Finite (prec : Z)
| Infinite.

(** [int(q)] for a nonnegative rational (the bound of an [xrange]). *)
Definition floor_nat (q : Qc) : nat := Z.to_nat (numerator q / denominator q).

(** [_generalized_series_shift_quotient(x, prec, shift, gamma, rho, subexp, alpha)].
    The guards on [shift] and on the precision are those of the source.  The
    arithmetic after them is defined by the host for the documented inputs (a
    nonnegative integer precision, a positive integer [ram]); outside of
    them the host raises. *)
Definition _generalized_series_shift_quotient (prec : precision) (shift : Z)
    (gamma : Qc) (rho : Qc) (subexp : option (list Qc * Qc)) (alpha : Qc)
  : result certificate :=
  let ram :=
    match subexp with
    | Some (_, m) => Z2Qc (denominator gamma) * m
    | None => Z2Qc (denominator gamma)
    end in
  if (shift =? 0)%Z then
    match prec with
    | Infinite => Raise HostError
    | Finite prec =>
        do e <- to_ZZ (ram * Z2Qc prec);
        match e with
        | Zneg k => Ok (InverseOfPower k)
        | _ => Ok (Polynomial (monomial (Z.to_nat e)))
        end
    end
  else if (shift <? 0)%Z then Raise (ValueError only_nonnegative_shifts_are_allowed)
  else
    match prec with
    | Infinite => Raise HostError
    | Finite prec =>
        do cert <-
          (if negb (Qc_eq_bool gamma 0) then
             let v := denominator gamma in
             if Qc_ltb (Z2Qc prec + Z2Qc shift * gamma) 0 then
               Raise (ValueError insufficient_precision)
             else if (prec <? 0)%Z then Raise HostError
             else
               (* n^(i*gamma) (1+i/n)^(gamma*i) (1+i/n)^(gamma*n) *)
               let cert :=
                 sum (map (fun k =>
                             scale (_binomial (Z2Qc shift * gamma) k * Z2Qc shift ^ k)
                               (monomial
                                  (Z.to_nat
                                     (numerator
                                        (Z2Qc v * (Z2Qc prec + Z2Qc shift * gamma - nat2Qc k))))))
                        (seq 0 (floor_nat (Z2Qc prec + Z2Qc shift * gamma + 1)))) in
               Ok (shift_down (Z.to_nat (v * prec))
                     (mul cert
                        (subst_xpow (Z.to_nat v)
                           (_super_expansion gamma shift (Z.to_nat prec)))))
           else if (prec <? 0)%Z then Raise HostError
           else Ok (monomial (Z.to_nat prec)));
        let cert :=
          if negb (Qc_eq_bool rho 1) then scale (rho ^ Z.to_nat shift) cert else cert in
        do cert <-
          match subexp with
          | Some (c, m) =>
              if negb (forallb (fun c => Qc_eq_bool c 0) c) then
                do v <- to_exponent (m * nat2Qc (length c + 1));
                do k <- to_exponent (ram * Z2Qc prec);
                if (v =? 0)%nat then Raise HostError
                else Ok (shift_down k (mul cert (_sub_expansion c v shift (Z.to_nat prec))))
              else Ok cert
          | None => Ok cert
          end;
        do cert <-
          (if negb (Qc_eq_bool alpha 0) then
             do r <- to_exponent ram;
             Ok (shift_down (r * Z.to_nat prec)
                   (mul cert
                      (sum (map (fun k =>
                                   scale (_binomial alpha k * Z2Qc shift ^ k)
                                     (monomial (r * (Z.to_nat prec - k))))
                              (seq 0 (Z.to_nat prec + 1))))))
           else Ok cert);
        Ok (Polynomial cert)
    end.

(** ** [DiscreteGeneralizedSeries.shift] *)

(** The value of the variable [i] after the statement
    [subexp = [subexp[i] for i in xrange(1, n)]]: the source is Python 2,
    where the loop variable of a list comprehension belongs to the enclosing
    function, so a non-empty loop leaves its last value [n - 1] in the
    parameter [i]. *)
Definition after_comprehension (i n : Z) : Z :=
  if (1 <? n)%Z then (n - 1)%Z else i.

(** [shift(i)]. *)
Definition dgs_shift (A : DiscreteGeneralizedSeries) (i : Z)
  : result DiscreteGeneralizedSeries :=
  if dgs_is_zero A then Ok A
  else
    let prec := eprec_min_list (map ps_prec (coefficients (d_expansion A))) in
    let n := Z.max (degree (d_subexp A)) (denominator (d_gamma A)) in
    let subexp := map (coeff (d_subexp A)) (seq 1 (Z.to_nat n - 1)) in
    let i := after_comprehension i n in
    let ram := d_ramification A in
    let m := Z2Qc ram / Z2Qc (denominator (d_gamma A)) in
    do cert <- _generalized_series_shift_quotient
                 (match prec with Some p => Finite (Z.of_nat p) | None => Infinite end)
                 i (d_gamma A) (d_rho A) (Some (subexp, m)) (d_alpha A);
    match cert, prec with
    | Polynomial cert, Some prec =>
        let factor := reverse cert in
        (* (x+i)^(-1/ram) = x^(-1/ram) * (1+i/x)^(-1/ram) *)
        let x_shifted :=
          mul X (sum (map (fun k =>
                             scale (_binomial (- / Z2Qc ram) k)
                               (pow (scale (Z2Qc i) (monomial (Z.to_nat ram))) k))
                        (seq 0 (prec + 1)))) in
        let expansion :=
          map_coefficients
            (fun p => mk_ps (mul factor (compose (ps_poly p) x_shifted)) (Some prec))
            (d_expansion A) in
        let logx_shifted :=
          neg (sum (map (fun k =>
                           scale (/ nat2Qc k)
                             (pow (scale (Z2Qc (- i)) (monomial (Z.to_nat ram))) k))
                      (seq 1 prec))) in
        let expansion := compose expansion (norm [PS logx_shifted None; ps_one]) in
        dgs_init (FromList (d_gamma A) ram (d_rho A) (SubexpPoly (d_subexp A))
                    (d_alpha A) (ExpansionTail expansion)) false
    | _, _ => Raise HostError
    end.

(** [__call__(arg)] for a polynomial [arg]: the composition with [n + i]. *)
Definition dgs_call (A : DiscreteGeneralizedSeries) (arg : poly)
  : result DiscreteGeneralizedSeries :=
  if negb (poly_in_QQ arg) then
    if negb (degree arg =? 1)%Z || negb (Qc_eq_bool (coeff arg 1) 1)
       || negb (in_ZZ (coeff arg 0)) || Qc_ltb (coeff arg 0) 0
    then Raise (ValueError no_message)
    else dgs_shift A (numerator (coeff arg 0))
  else Raise NotImplementedError.

(** [prec]: [None] stands for [infinity]. *)
Definition dgs_prec (A : DiscreteGeneralizedSeries) : option Qc :=
  if is_zero_poly (d_expansion A) then None
  else
    match eprec_min_list (map ps_prec (coefficients (d_expansion A))) with
    | Some p => Some (rat (Z.of_nat p) (d_ramification A))
    | None => None
    end.

Unset Implicit Arguments.

(** * The values of the two series types

    Both value types are produced only by their constructors, from data or as
    the copy of a value. *)

Inductive cgs_value : ContinuousGeneralizedSeries -> Prop :=
| cgs_value_new (tail : list pseries) (exp : list Qc) (ramification : Z)
    (make_monic : bool) (A : ContinuousGeneralizedSeries) :
    cgs_init (FromTail tail) exp ramification make_monic = Ok A -> cgs_value A
| cgs_value_copy (A0 : ContinuousGeneralizedSeries) (exp : list Qc) (ramification : Z)
    (make_monic : bool) (A : ContinuousGeneralizedSeries) :
    cgs_value A0 ->
    cgs_init (FromSeries A0) exp ramification make_monic = Ok A -> cgs_value A.

Inductive dgs_value : DiscreteGeneralizedSeries -> Prop :=
| dgs_value_scalar (p : list Qc) (make_monic : bool) (A : DiscreteGeneralizedSeries) :
    dgs_init (FromScalar p) make_monic = Ok A -> dgs_value A
| dgs_value_list (gamma : Qc) (ram : Z) (rho : Qc) (subexp : subexp_arg) (alpha : Qc)
    (expansion : expansion_arg) (make_monic : bool) (A : DiscreteGeneralizedSeries) :
    dgs_init (FromList gamma ram rho subexp alpha expansion) make_monic = Ok A ->
    dgs_value A
| dgs_value_copy (A0 : DiscreteGeneralizedSeries) (make_monic : bool)
    (A : DiscreteGeneralizedSeries) :
    dgs_value A0 -> dgs_init (FromDiscrete A0) make_monic = Ok A -> dgs_value A.

(** Whether a result is the exception [e]. *)
Definition exn_eqb (e f : exn) : bool :=
  match e, f with
  | ZeroDivisionError, ZeroDivisionError => true
  | ValueError a, ValueError b =>
      match a, b with
      | ramification_must_be_a_positive_integer, ramification_must_be_a_positive_integer
      | s_must_be_a_positive_integer_multiple_of_the_ramification,
        s_must_be_a_positive_integer_multiple_of_the_ramification
      | can_only_add_generalized_series_if_they_are_similar,
        can_only_add_generalized_series_if_they_are_similar
      | generalized_series_involving_logarithms_are_not_invertible,
        generalized_series_involving_logarithms_are_not_invertible
      | only_nonnegative_shifts_are_allowed, only_nonnegative_shifts_are_allowed
      | insufficient_precision, insufficient_precision
      | no_message, no_message => true
      | _, _ => false
      end
  | TypeError _, TypeError _ => true
  | NotImplementedError, NotImplementedError => true
  | AttributeError, AttributeError => true
  | HostError, HostError => true
  | _, _ => false
  end.

Definition raises {A : Type} (r : result A) (e : exn) : bool :=
  match r with
  | Ok _ => false
  | Raise e' => exn_eqb e' e
  end.

(** ** Identity of stored values

    Rationals of [Qc] carry a proof that they are reduced, so two computed
    values are compared through boolean tests on their numerators and
    denominators. *)

Definition eprec_eqb (a b : eprec) : bool :=
  match a, b with
  | None, None => true
  | Some m, Some n => Nat.eqb m n
  | _, _ => false
  end.

(** Identity of two stored series: same polynomial and same precision. *)
Definition ps_same (a b : pseries) : bool :=
  poly_eqb (ps_poly a) (ps_poly b) && eprec_eqb (ps_prec a) (ps_prec b).

Definition cgs_same (A B : ContinuousGeneralizedSeries) : bool :=
  (c_ramification A =? c_ramification B)%Z
  && poly_eqb (c_exp A) (c_exp B)
  && list_eqb ps_same (c_tail A) (c_tail B).

Definition dgs_same (A B : DiscreteGeneralizedSeries) : bool :=
  Qc_eq_bool (d_gamma A) (d_gamma B)
  && (d_ramification A =? d_ramification B)%Z
  && Qc_eq_bool (d_rho A) (d_rho B)
  && poly_eqb (d_subexp A) (d_subexp B)
  && Qc_eq_bool (d_alpha A) (d_alpha B)
  && list_eqb ps_same (d_expansion A) (d_expansion B).

Definition result_eqb {A : Type} (eqb : A -> A -> bool) (r s : result A) : bool :=
  match r, s with
  | Ok a, Ok b => eqb a b
  | Raise e, Raise f => exn_eqb e f
  | _, _ => false
  end.

(** ** The invariant of the constructors *)

(** A stored power series is well formed: its polynomial is in normal form
    and lies below the precision. *)
Definition ps_wf (c : pseries) : Prop :=
  norm (ps_poly c) = ps_poly c /\
  forall n, ps_prec c = Some n -> (length (ps_poly c) <= n)%nat.

(** A tail that has passed the valuation step: an element of the ring of
    tails one of whose coefficients has a nonzero constant term. *)
Definition tail_ok (p : tpoly) : Prop :=
  tail_ring p = p /\ exists c, In c p /\ ps_coeff c 0 <> 0.

Definition tail_nonzero (p : tpoly) : Prop := tail_ring p = p /\ p <> [].

(** What the constructor establishes: a positive ramification, fields in
    normal form, the canonical zero when the tail is zero, no excess
    valuation left in the tail, and a ramification that the constructor's
    own computation does not reduce any further. *)
Record cgs_wf (A : ContinuousGeneralizedSeries) : Prop := {
  wf_ram : (0 < c_ramification A)%Z;
  wf_exp : norm (c_exp A) = c_exp A;
  wf_tail : tail_ring (c_tail A) = c_tail A;
  wf_zero : c_tail A = [] -> A = cgs_zero;
  wf_val : c_tail A <> [] -> exists c, In c (c_tail A) /\ ps_coeff c 0 <> 0;
  wf_min : new_ramification (c_exp A) (c_tail A) (c_ramification A) = c_ramification A
}.

Record dgs_wf (A : DiscreteGeneralizedSeries) : Prop := {
  dwf_ram : (0 < d_ramification A)%Z;
  dwf_zero : d_expansion A = [] -> A = dgs_zero
}.

(** ** The steps of the continuous constructor *)

(** The rationals [c.valuation()/ramification] over which [alpha] is the
    minimum. *)
Definition valuations (r : Z) (p : tpoly) : list Qc :=
  map (fun c => rat (Z.of_nat (low_zeros (ps_poly c))) r) (coefficients p).

(** The function [map_coefficients] applies for [lambda q: q//(x**k)]. *)
Definition floordiv_step (k : nat) (c : pseries) : pseries :=
  if ps_is_zero c then ps_zero else ps_floordiv_xpow k c.

(** The first half of the constructor: excess valuation moves from the tail
    to the exponential part. *)
Definition valuation_step (r : Z) (exp : poly) (p : tpoly) : result (poly * tpoly) :=
  let alpha := min_list (valuations r p) in
  if Qc_is_zero alpha then Ok (exp, p)
  else
    do k <- to_exponent (Z2Qc r * alpha);
    Ok (add exp (const alpha), map_coefficients (ps_floordiv_xpow k) p).

(** The second half: the ramification is reduced, and the tail made monic on
    request. *)
Definition ramification_step (r : Z) (E : poly) (p : tpoly) (make_monic : bool)
  : ContinuousGeneralizedSeries :=
  let new_ram := new_ramification E p r in
  let '(r', E', p') :=
    if (new_ram =? r)%Z then (r, E, p)
    else
      let quo := Z.to_nat (r / new_ram) in
      (new_ram, rescaled quo E, norm (map (ps_rescaled quo) p)) in
  CGS r' E' (if make_monic then make_monic_tail p' else p').

(** The loop of [new_ramification] over the coefficients of the tail. *)
Definition tail_fold (r : Z) (cs : list pseries) (n : Z) : Z :=
  fold_left
    (fun new_ram c => lcm_list (new_ram :: map (exponent_denominator r) (ps_exponents c)))
    cs n.

(** [fits r es m]: for every exponent [e] of [es], [e*m/r] is an integer;
    these [m] are the multiples of the lcm of the denominators of the [e/r]. *)
Definition fits (r : Z) (es : list nat) (m : Z) : Prop :=
  forall e, In e es -> (r | Z.of_nat e * m)%Z.

Definition tail_fits (r : Z) (cs : list pseries) (m : Z) : Prop :=
  forall c, In c cs -> fits r (ps_exponents c) m.

(** Every exponent of [p] is a multiple of [quo]. *)
Definition divides_exponents (quo : nat) (p : poly) : Prop :=
  forall e, In e (exponents p) -> (e mod quo = 0)%nat.

(** A coefficient of a tail with its precision forgotten. *)
Definition erase_prec (c : pseries) : pseries := PS (ps_poly c) None.

(** ** Series used as examples *)

(** The series [1 + log(x)], the element [G([1, 1])]. *)
Definition log_series : ContinuousGeneralizedSeries := CGS 1 [] [ps_one; ps_one].

(** The power series [1 + x + x^2] and the element [G(1+x+x^2)]. *)
Definition quadratic : pseries := PS [1; 1; 1] None.
Definition quadratic_series : ContinuousGeneralizedSeries := CGS 1 [] [quadratic].

(** [G(1+x+x^2, exp=1+x+x^2, ramification=2)] and
    [G(1+x+x^2, exp=-2/3+x+x^2, ramification=2)]. *)
Definition similar_A : ContinuousGeneralizedSeries := CGS 2 [1; 1; 1] [quadratic].
Definition similar_C : ContinuousGeneralizedSeries :=
  CGS 2 [rat (-2) 3; 1; 1] [quadratic].

(** [G(1 + x^2 + O(x^4), exp=x, ramification=2)]. *)
Definition truncated_series : ContinuousGeneralizedSeries :=
  CGS 2 [0; 1] [PS [1; 0; 1] (Some 4%nat)].

(** The discrete series [2^n * n * (1 + n^(-1) + O(n^(-3)))] and
    [3^n * (1 + O(n^(-3)))]. *)
Definition discrete_A : DiscreteGeneralizedSeries :=
  DGS 0 1 (Z2Qc 2) [] 1 [PS [1; 1] (Some 3%nat)].
Definition discrete_B : DiscreteGeneralizedSeries :=
  DGS 0 1 (Z2Qc 3) [] 0 [PS [1] (Some 3%nat)].

(** The discrete series [2^n * (1 + O(n^(-3)))], similar to [discrete_A]. *)
Definition discrete_C : DiscreteGeneralizedSeries :=
  DGS 0 1 (Z2Qc 2) [] 0 [PS [1] (Some 3%nat)].

(** ** Definitions used in the further properties *)


(** The function [map_coefficients] applies for [lambda c: c(x**quo)]. *)
Definition subst_step (q : nat) (c : pseries) : pseries :=
  if ps_is_zero c then ps_zero else ps_subst_xpow q c.

(** One turn of the loop of [_binomial]. *)
Definition binomial_step (j : nat) (st : Qc * Qc) (jj : nat) : Qc * Qc :=
  let '(b, lam) := st in (b * (lam / nat2Qc (j - jj)), lam - 1).

(** Finite sums in [K], and the Cauchy formula for the coefficients of a
    product. *)
Definition qsum (l : list Qc) : Qc := fold_right Qcplus 0 l.

Definition conv (p q : poly) (n : nat) : Qc :=
  qsum (map (fun i => coeff p i * coeff q (n - i)) (seq 0 (S n))).

(** The coefficient of [x^k] in the list [map f l] for a function [f] that
    need not send zero to zero: beyond the length of [l] it is zero. *)
Definition mapped (f : pseries -> pseries) (l : tpoly) (k : nat) : pseries :=
  if (k <? length l)%nat then f (nth k l ps_zero) else ps_zero.

(** * The monoids of generalized series and their registry *)

(** The coefficient domain handed to [GeneralizedSeriesMonoid]: the field
    [QQ], a number field, or any other ring.  Parents are unique objects of
    the host, so the identity test [is] is the equality of these names. *)
Inductive base_ring : Type :=
| RationalField
| NumberField (id : nat)
| OtherRing (id : nat).

Definition base_ring_is (a b : base_ring) : bool :=
  match a, b with
  | RationalField, RationalField => true
  | NumberField i, NumberField j => Nat.eqb i j
  | OtherRing i, OtherRing j => Nat.eqb i j
  | _, _ => false
  end.

(** The exceptions of [GeneralizedSeriesMonoid_class.__init__]: the first is
    raised inside [Parent.__init__] of the host, the second is a
    [TypeError], the last two are [ValueError]s. *)
Inductive monoid_error : Type :=
| refused_by_the_host
| base_ring_must_be_QQ_or_a_number_field
| generator_name_must_not_contain_the_substring_LOG
| type_must_be_either_continuous_or_discrete.

Record GeneralizedSeriesMonoid_class : Type := Monoid {
  m_base : base_ring;
  m_var : String.string;
  m_type : String.string
}.

Section Registry.

(** Whether [Parent.__init__] accepts the base and the variable name. *)
Variable parent_init : base_ring -> String.string -> bool.

(** [GeneralizedSeriesMonoid_class.__init__]. *)
Definition monoid_init (base : base_ring) (x type : String.string)
  : monoid_error + GeneralizedSeriesMonoid_class :=
  if negb (parent_init base x) then inl refused_by_the_host
  else if match base with RationalField | NumberField _ => false | OtherRing _ => true end
  then inl base_ring_must_be_QQ_or_a_number_field
  else if match String.index 0 "LOG"%string x with Some _ => true | None => false end
  then inl generator_name_must_not_contain_the_substring_LOG
  else if negb (String.eqb type "continuous"%string)
          && negb (String.eqb type "discrete"%string)
  then inl type_must_be_either_continuous_or_discrete
  else inr (Monoid base x type).

(** [GeneralizedSeriesMonoid_class.__eq__] for two monoids. *)
Definition monoid_eq (m other : GeneralizedSeriesMonoid_class) : bool :=
  String.eqb (m_type m) (m_type other)
  && base_ring_is (m_base m) (m_base other)
  && String.eqb (m_var m) (m_var other).

(** The function [GeneralizedSeriesMonoid]; the global list
    [_list_of_generalized_series_parents] is threaded through the call. *)
Definition GeneralizedSeriesMonoid (registry : list GeneralizedSeriesMonoid_class)
    (base : base_ring) (x type : String.string)
  : (monoid_error + GeneralizedSeriesMonoid_class) * list GeneralizedSeriesMonoid_class :=
  match monoid_init base x type with
  | inl e => (inl e, registry)
  | inr M =>
      match find (fun m => monoid_eq m M) registry with
      | Some m => (inr m, registry)
      | None => (inr M, registry ++ [M])
      end
  end.

(** The registries that calls of [GeneralizedSeriesMonoid] produce from the
    empty list. *)
Inductive registry_reachable : list GeneralizedSeriesMonoid_class -> Prop :=
| registry_empty : registry_reachable []
| registry_call (registry : list GeneralizedSeriesMonoid_class) (base : base_ring)
    (x type : String.string) :
    registry_reachable registry ->
    registry_reachable (snd (GeneralizedSeriesMonoid registry base x type)).

End Registry.

(** A host that accepts every name, and the registry after the call
    [GeneralizedSeriesMonoid(QQ, 'x')]. *)
Definition accept_all (_ : base_ring) (_ : String.string) : bool := true.

Definition example_registry : list GeneralizedSeriesMonoid_class :=
  snd (GeneralizedSeriesMonoid accept_all [] RationalField "x"%string "continuous"%string).

(** * Properties *)


(** ** Deciding equality of concrete values *)

Lemma Qc_eq_bool_true (a b : Qc) : Qc_eq_bool a b = true -> a = b.
Proof. apply Qc_eq_bool_correct. Qed.

Lemma Qc_eq_bool_refl (a : Qc) : Qc_eq_bool a a = true.
Proof. unfold Qc_eq_bool. destruct (Qc_eq_dec a a); congruence. Qed.

Lemma Qc_is_zero_true (c : Qc) : Qc_is_zero c = true <-> c = 0.
Proof.
  unfold Qc_is_zero. split.
  - apply Qc_eq_bool_correct.
  - intros ->. apply Qc_eq_bool_refl.
Qed.

Lemma Qc_is_zero_false (c : Qc) : Qc_is_zero c = false <-> c <> 0.
Proof.
  rewrite <- Qc_is_zero_true. destruct (Qc_is_zero c); split; congruence.
Qed.

Lemma list_eqb_true {A : Type} (eqb : A -> A -> bool) :
  (forall a b, eqb a b = true -> a = b) ->
  forall l m, list_eqb eqb l m = true -> l = m.
Proof.
  intros Heq. induction l as [|a l IH]; intros [|b m]; simpl; try congruence.
  intros H. apply andb_prop in H as [H1 H2].
  f_equal; auto.
Qed.

Lemma list_eqb_refl {A : Type} (eqb : A -> A -> bool) :
  (forall a, eqb a a = true) -> forall l, list_eqb eqb l l = true.
Proof.
  intros Hr. induction l as [|a l IH]; simpl; auto.
  rewrite Hr, IH. reflexivity.
Qed.

Lemma poly_eqb_true (p q : poly) : poly_eqb p q = true -> p = q.
Proof. apply list_eqb_true. apply Qc_eq_bool_true. Qed.

Lemma poly_eqb_refl (p : poly) : poly_eqb p p = true.
Proof. apply list_eqb_refl. apply Qc_eq_bool_refl. Qed.

Lemma eprec_eqb_true (a b : eprec) : eprec_eqb a b = true -> a = b.
Proof.
  destruct a, b; simpl; try congruence.
  intros H. apply Nat.eqb_eq in H. congruence.
Qed.

Lemma ps_same_true (a b : pseries) : ps_same a b = true -> a = b.
Proof.
  destruct a, b. unfold ps_same. simpl. intros H.
  apply andb_prop in H as [H1 H2].
  apply poly_eqb_true in H1. apply eprec_eqb_true in H2. congruence.
Qed.

Lemma cgs_same_true A B : cgs_same A B = true -> A = B.
Proof.
  destruct A, B. unfold cgs_same. simpl. intros H.
  apply andb_prop in H as [H H3]. apply andb_prop in H as [H1 H2].
  apply Z.eqb_eq in H1. apply poly_eqb_true in H2.
  apply (list_eqb_true _ ps_same_true) in H3. congruence.
Qed.

Lemma dgs_same_true A B : dgs_same A B = true -> A = B.
Proof.
  destruct A, B. unfold dgs_same. simpl. intros H.
  repeat match goal with
         | H : _ && _ = true |- _ => apply andb_prop in H; destruct H
         end.
  repeat match goal with
         | H : Qc_eq_bool _ _ = true |- _ => apply Qc_eq_bool_true in H
         | H : (_ =? _)%Z = true |- _ => apply Z.eqb_eq in H
         | H : poly_eqb _ _ = true |- _ => apply poly_eqb_true in H
         | H : list_eqb ps_same _ _ = true |- _ =>
             apply (list_eqb_true _ ps_same_true) in H
         end.
  congruence.
Qed.

Lemma exn_eqb_true e f : exn_eqb e f = true -> e = f.
Proof.
  destruct e as [|a|a| | |], f as [|b|b| | |]; simpl; try congruence.
  - destruct a, b; congruence.
  - destruct a, b; congruence.
Qed.

Lemma result_eqb_true {A : Type} (eqb : A -> A -> bool) :
  (forall a b, eqb a b = true -> a = b) ->
  forall r s, result_eqb eqb r s = true -> r = s.
Proof.
  intros Heq [a|e] [b|f]; simpl; try congruence.
  - intros H. f_equal. auto.
  - intros H. f_equal. apply exn_eqb_true. exact H.
Qed.

(** Closes a goal [r = s] between two concrete results. *)
Ltac decide_cgs := apply (result_eqb_true _ cgs_same_true); vm_compute; reflexivity.
Ltac decide_dgs := apply (result_eqb_true _ dgs_same_true); vm_compute; reflexivity.

(** The canonical elements are the ones the constructors build. *)
Lemma cgs_zero_constructed : cgs_init (FromTail []) [] 1 false = Ok cgs_zero.
Proof. reflexivity. Qed.

Lemma cgs_one_constructed : cgs_init (FromTail [ps_one]) [] 1 false = Ok cgs_one.
Proof. decide_cgs. Qed.

Lemma dgs_zero_constructed : dgs_init (FromScalar []) false = Ok dgs_zero.
Proof. decide_dgs. Qed.

Lemma dgs_one_constructed : dgs_init (FromScalar [1]) false = Ok dgs_one.
Proof. decide_dgs. Qed.

(** ** Normal forms of polynomials *)

Section NormFacts.
Context {A : Type} {C : Coeff A}.

Lemma norm_nil_iff (p : list A) : norm p = [] <-> forallb cis_zero p = true.
Proof.
  induction p as [|c p IH]; simpl; [tauto|].
  destruct (norm p) eqn:E.
  - destruct (cis_zero c); simpl.
    + rewrite <- IH. tauto.
    + split; congruence.
  - split; [congruence|]. intros H. apply andb_prop in H as [_ H].
    apply IH in H. congruence.
Qed.

Lemma norm_cons (c : A) (p : list A) :
  norm (c :: p) = if forallb cis_zero (c :: p) then [] else c :: norm p.
Proof.
  simpl. destruct (norm p) eqn:E.
  - apply norm_nil_iff in E. rewrite E, andb_true_r.
    destruct (cis_zero c); reflexivity.
  - assert (forallb cis_zero p = false).
    { destruct (forallb cis_zero p) eqn:F; [|reflexivity].
      apply norm_nil_iff in F. congruence. }
    rewrite H, andb_false_r. reflexivity.
Qed.

Lemma norm_idem (p : list A) : norm (norm p) = norm p.
Proof.
  induction p as [|c p IH]; [reflexivity|].
  rewrite norm_cons. destruct (forallb cis_zero (c :: p)) eqn:E; [reflexivity|].
  rewrite norm_cons, IH.
  destruct (forallb cis_zero (c :: norm p)) eqn:F; [|reflexivity].
  simpl in E, F. apply andb_prop in F as [F1 F2].
  apply norm_nil_iff in F2. rewrite IH in F2. apply norm_nil_iff in F2.
  rewrite F1, F2 in E. discriminate.
Qed.

Lemma norm_In (c : A) (p : list A) : In c (norm p) -> In c p.
Proof.
  induction p as [|a p IH]; simpl; [tauto|].
  destruct (norm p) eqn:E.
  - destruct (cis_zero a); simpl; tauto.
  - simpl. intros [H|H]; auto.
Qed.

Lemma In_norm (c : A) (p : list A) : In c p -> cis_zero c = false -> In c (norm p).
Proof.
  induction p as [|a p IH]; simpl; [tauto|].
  intros [->|H] Hc.
  - destruct (norm p); [rewrite Hc|]; simpl; auto.
  - specialize (IH H Hc). destruct (norm p); simpl in *; tauto.
Qed.

Lemma coefficients_norm (p : list A) : coefficients (norm p) = coefficients p.
Proof.
  unfold coefficients. induction p as [|c p IH]; [reflexivity|].
  rewrite norm_cons. destruct (forallb cis_zero (c :: p)) eqn:E.
  - simpl in *. apply andb_prop in E as [E1 E2]. rewrite E1. simpl.
    apply norm_nil_iff in E2. rewrite E2 in IH. exact IH.
  - simpl. rewrite IH. reflexivity.
Qed.

Lemma length_norm (p : list A) : (length (norm p) <= length p)%nat.
Proof.
  induction p as [|c p IH]; simpl; [lia|].
  destruct (norm p); [destruct (cis_zero c)|]; simpl in *; lia.
Qed.

(** A list is in normal form when its last coefficient is not zero. *)
Lemma norm_fix_last (p : list A) :
  p <> [] -> cis_zero (last p czero) = false -> norm p = p.
Proof.
  induction p as [|c p IH]; [congruence|]. intros _ Hl.
  destruct p as [|d p].
  - simpl in *. rewrite Hl. reflexivity.
  - change (last (c :: d :: p) czero) with (last (d :: p) czero) in Hl.
    assert (H : norm (d :: p) = d :: p) by (apply IH; [congruence|exact Hl]).
    change (norm (c :: d :: p)) with
      (match norm (d :: p) with [] => if cis_zero c then [] else [c] | q => c :: q end).
    rewrite H. reflexivity.
Qed.

Lemma norm_last (p : list A) :
  norm p <> [] -> cis_zero (last (norm p) czero) = false.
Proof.
  induction p as [|c p IH]; [simpl; congruence|].
  simpl. destruct (norm p) eqn:E.
  - destruct (cis_zero c) eqn:F; [congruence|]. simpl. auto.
  - intros _. change (last (c :: a :: l) czero) with (last (a :: l) czero).
    apply IH. congruence.
Qed.

Lemma norm_fix_iff (p : list A) :
  norm p = p <-> p = [] \/ cis_zero (last p czero) = false.
Proof.
  split.
  - intros H. destruct p as [|c p]; [auto|]. right.
    rewrite <- H. apply norm_last. rewrite H. congruence.
  - intros [->|H]; [reflexivity|].
    destruct p; [reflexivity|]. apply norm_fix_last; [congruence|exact H].
Qed.

(** A map that keeps zero coefficients zero and nonzero ones nonzero
    commutes with normalization. *)
Lemma norm_map {B : Type} {D : Coeff B} (f : A -> B) (p : list A) :
  (forall c, In c p -> cis_zero (f c) = cis_zero c) ->
  norm (map f p) = map f (norm p).
Proof.
  induction p as [|c p IH]; [reflexivity|]. intros Hf.
  simpl. rewrite IH by (intros; apply Hf; simpl; auto).
  destruct (norm p); simpl.
  - rewrite Hf by (simpl; auto). destruct (cis_zero c); reflexivity.
  - reflexivity.
Qed.

Lemma norm_map_id (f : A -> A) (p : list A) :
  (forall c, In c p -> f c = c) -> map f p = p.
Proof.
  induction p as [|c p IH]; [reflexivity|]. intros Hf. simpl.
  rewrite Hf, IH; simpl; auto. intros; apply Hf; simpl; auto.
Qed.
End NormFacts.

Open Scope Qc_scope.

Lemma coeff_all_zero (p : poly) (k : nat) :
  forallb cis_zero p = true -> coeff p k = 0.
Proof.
  unfold coeff. revert k. induction p as [|c p IH]; intros [|k] H; simpl in *; auto.
  - apply andb_prop in H as [H _]. apply Qc_is_zero_true. exact H.
  - apply andb_prop in H as [_ H]. auto.
Qed.

Lemma coeff_norm (p : poly) (k : nat) : coeff (norm p) k = coeff p k.
Proof.
  revert k. induction p as [|c p IH]; intros k; [reflexivity|].
  rewrite norm_cons. destruct (forallb cis_zero (c :: p)) eqn:E.
  - rewrite (coeff_all_zero (c :: p)) by exact E. destruct k; reflexivity.
  - destruct k; [reflexivity|]. apply IH.
Qed.

Lemma coeff_beyond (p : poly) (k : nat) : (length p <= k)%nat -> coeff p k = 0.
Proof. intros H. unfold coeff. apply nth_overflow. exact H. Qed.

Lemma In_exponents (p : poly) (e : nat) : In e (exponents p) <-> coeff p e <> 0.
Proof.
  unfold exponents. rewrite filter_In, in_seq, negb_true_iff.
  change (cis_zero (coeff p e)) with (Qc_is_zero (coeff p e)).
  rewrite Qc_is_zero_false. split; [tauto|].
  intros H. split; [|exact H].
  destruct (Nat.lt_ge_cases e (length p)); [lia|].
  exfalso. apply H. apply coeff_beyond. assumption.
Qed.

Lemma norm_tail_fix {A} {C : Coeff A} (c : A) (p : list A) :
  norm (c :: p) = c :: p -> norm p = p.
Proof.
  rewrite norm_cons. destruct (forallb _ _); congruence.
Qed.

Lemma all_zero_coeff (p : poly) :
  (forall k, coeff p k = 0) -> forallb cis_zero p = true.
Proof.
  induction p as [|c p IH]; intros H; [reflexivity|]. simpl.
  rewrite (proj2 (Qc_is_zero_true c)) by (apply (H O)).
  apply IH. intros k. apply (H (S k)).
Qed.

(** Two polynomials in normal form with the same coefficients are equal. *)
Lemma poly_ext (p q : poly) :
  norm p = p -> norm q = q -> (forall k, coeff p k = coeff q k) -> p = q.
Proof.
  revert q. induction p as [|a p IH]; intros q Hp Hq H.
  - destruct q as [|b q]; [reflexivity|].
    assert (F : forallb cis_zero (b :: q) = true).
    { apply all_zero_coeff. intros k. rewrite <- H. destruct k; reflexivity. }
    apply norm_nil_iff in F. congruence.
  - destruct q as [|b q].
    + assert (F : forallb cis_zero (a :: p) = true).
      { apply all_zero_coeff. intros k. rewrite H. destruct k; reflexivity. }
      apply norm_nil_iff in F. congruence.
    + f_equal.
      * apply (H O).
      * apply IH; [eapply norm_tail_fix; eauto|eapply norm_tail_fix; eauto|].
        intros k. apply (H (S k)).
Qed.

(** *** Dictionaries *)

Lemma dict_get_fold (d : list (nat * Qc)) (k : nat) (v acc : Qc) :
  (forall kv, In kv d -> fst kv = k -> snd kv = v) ->
  fold_left (fun acc kv => if Nat.eqb (fst kv) k then snd kv else acc) d acc
  = if existsb (fun kv => Nat.eqb (fst kv) k) d then v else acc.
Proof.
  revert acc. induction d as [|kv d IH]; intros acc H; [reflexivity|].
  simpl. rewrite IH by (intros; apply H; simpl; auto).
  destruct (Nat.eqb_spec (fst kv) k) as [E|E]; simpl.
  - rewrite (H kv) by (simpl; auto). destruct (existsb _ d); reflexivity.
  - reflexivity.
Qed.

Lemma dict_get_absent (d : list (nat * Qc)) (k : nat) :
  (forall kv, In kv d -> fst kv <> k) -> dict_get d k = 0.
Proof.
  intros H. unfold dict_get.
  etransitivity; [apply (dict_get_fold d k 0)|].
  - intros kv Hin E. exfalso. exact (H kv Hin E).
  - destruct (existsb _ d); reflexivity.
Qed.

Lemma dict_size_bound (d : list (nat * Qc)) (kv : nat * Qc) :
  In kv d -> (fst kv < dict_size d)%nat.
Proof.
  induction d as [|a d IH]; [simpl; tauto|].
  change (dict_size (a :: d)) with (Nat.max (S (fst a)) (dict_size d)).
  intros [->|H]; [lia|]. specialize (IH H). lia.
Qed.

Lemma coeff_of_dict (d : list (nat * Qc)) (k : nat) :
  coeff (of_dict d) k = dict_get d k.
Proof.
  unfold of_dict. rewrite coeff_norm. unfold coeff.
  destruct (Nat.lt_ge_cases k (dict_size d)) as [H|H].
  - rewrite nth_indep with (d' := dict_get d 0%nat) by (rewrite length_map, length_seq; exact H).
    rewrite map_nth, seq_nth by exact H. reflexivity.
  - rewrite nth_overflow by (rewrite length_map, length_seq; exact H).
    symmetry. apply dict_get_absent. intros kv Hin E.
    apply dict_size_bound in Hin. lia.
Qed.

Lemma of_dict_norm (d : list (nat * Qc)) : norm (of_dict d) = of_dict d.
Proof. apply norm_idem. Qed.

(** *** Rescaling by an exact quotient *)

Lemma rescaled_coeff (quo : nat) (p : poly) (k : nat) :
  (0 < quo)%nat -> divides_exponents quo p ->
  coeff (rescaled quo p) k = coeff p (k * quo).
Proof.
  intros Hq Hd. unfold rescaled. rewrite coeff_of_dict. unfold dict_get.
  etransitivity; [apply (dict_get_fold _ k (coeff p (k * quo)))|]; cycle 1.
  - destruct (existsb _ _) eqn:E; [reflexivity|].
    destruct (Qc_eq_dec (coeff p (k * quo)) 0) as [Z|NZ]; [symmetry; exact Z|].
    apply In_exponents in NZ.
    assert (F : existsb (fun kv : nat * Qc => Nat.eqb (fst kv) k)
                  (map (fun e => (Nat.div e quo, coeff p e)) (exponents p)) = true).
    { apply existsb_exists. exists (Nat.div (k * quo) quo, coeff p (k * quo)). split.
      - apply in_map_iff. exists (k * quo)%nat. split; [reflexivity|exact NZ].
      - simpl. apply Nat.eqb_eq. apply Nat.div_mul. lia. }
    congruence.
  - intros kv Hin E. apply in_map_iff in Hin as [e [<- He]]. simpl in *.
    specialize (Hd e He).
    assert (e = k * quo)%nat.
    { rewrite <- E. rewrite (Nat.div_mod_eq e quo) at 1. rewrite Hd. lia. }
    congruence.
Qed.

Lemma coeff_nil (k : nat) : coeff (@nil Qc) k = 0.
Proof. destruct k; reflexivity. Qed.

Lemma coeff_stretch (q : nat) (p : poly) (k : nat) :
  (0 < q)%nat ->
  coeff (stretch q p) k = if (k mod q =? 0)%nat then coeff p (k / q) else 0.
Proof.
  intros Hq. revert k. induction p as [|a p IH]; intros k.
  - simpl stretch. rewrite !coeff_nil. destruct (_ =? _)%nat; reflexivity.
  - simpl stretch. destruct (Nat.lt_ge_cases k q) as [H|H].
    + destruct k as [|k].
      * rewrite Nat.Div0.mod_0_l, Nat.Div0.div_0_l. reflexivity.
      * rewrite Nat.mod_small by exact H. simpl Nat.eqb.
        unfold coeff. simpl nth. rewrite app_nth1 by (rewrite repeat_length; lia).
        apply nth_repeat.
    + assert (Hk : exists j, k = (j + 1 * q)%nat) by (exists (k - q)%nat; lia).
      destruct Hk as [j ->].
      rewrite Nat.Div0.mod_add, Nat.div_add by lia.
      replace (j / q + 1)%nat with (S (j / q)) by lia.
      change (coeff (a :: p) (S (j / q))) with (coeff p (j / q)).
      rewrite <- IH. unfold coeff.
      replace (j + 1 * q)%nat with (S (q - 1 + j)) by lia. simpl nth.
      rewrite app_nth2 by (rewrite repeat_length; lia).
      rewrite repeat_length. f_equal. lia.
Qed.

Lemma coeff_subst_xpow (q : nat) (p : poly) (k : nat) :
  (0 < q)%nat ->
  coeff (subst_xpow q p) k = if (k mod q =? 0)%nat then coeff p (k / q) else 0.
Proof. intros. unfold subst_xpow. rewrite coeff_norm. apply coeff_stretch. assumption. Qed.

Lemma subst_xpow_rescaled (quo : nat) (p : poly) :
  (0 < quo)%nat -> norm p = p -> divides_exponents quo p ->
  subst_xpow quo (rescaled quo p) = p.
Proof.
  intros Hq Hp Hd. apply poly_ext; [apply norm_idem|exact Hp|].
  intros k. rewrite coeff_subst_xpow by exact Hq.
  destruct (Nat.eqb_spec (k mod quo) 0) as [E|E].
  - rewrite rescaled_coeff by assumption. f_equal.
    rewrite (Nat.div_mod_eq k quo) at 2. rewrite E. lia.
  - destruct (Qc_eq_dec (coeff p k) 0) as [Z|NZ]; [congruence|].
    apply In_exponents in NZ. apply Hd in NZ. contradiction.
Qed.

Open Scope Z_scope.

(** ** Denominators and least common multiples *)

Lemma exponent_denominator_eq (r : Z) (e : nat) :
  0 < r -> exponent_denominator r e = r / Z.gcd (Z.of_nat e) r.
Proof.
  intros Hr. unfold exponent_denominator, denominator, rat. cbn [this Q2Qc].
  unfold Qred.
  pose proof (Z.ggcd_gcd (Z.of_nat e) (Zpos (Z.to_pos r))) as Hg.
  pose proof (Z.ggcd_correct_divisors (Z.of_nat e) (Zpos (Z.to_pos r))) as Hd.
  destruct (Z.ggcd (Z.of_nat e) (Zpos (Z.to_pos r))) as [g [aa bb]].
  cbn [fst snd] in *. rewrite Z2Pos.id in * by lia.
  destruct Hd as [Ha Hb]. cbn [Qden].
  assert (0 < g) by (subst g; pose proof (Z.gcd_nonneg (Z.of_nat e) r);
                     destruct (Z.eq_dec (Z.gcd (Z.of_nat e) r) 0) as [E|E];
                     [apply Z.gcd_eq_0_r in E; lia|lia]).
  assert (0 < bb) by nia.
  rewrite Z2Pos.id by lia.
  rewrite <- Hg. rewrite Hb at 1. rewrite Z.mul_comm, Z.div_mul by lia. reflexivity.
Qed.

Lemma exponent_denominator_pos (r : Z) (e : nat) : 0 < exponent_denominator r e.
Proof. unfold exponent_denominator, denominator. lia. Qed.

(** The denominator of [e/r] divides [m] exactly when [e*m/r] is an integer. *)
Lemma exponent_denominator_divide (r : Z) (e : nat) (m : Z) :
  0 < r -> (exponent_denominator r e | m) <-> (r | Z.of_nat e * m).
Proof.
  intros Hr. rewrite exponent_denominator_eq by exact Hr.
  set (a := Z.of_nat e). set (g := Z.gcd a r).
  assert (Hg : 0 < g).
  { pose proof (Z.gcd_nonneg a r).
    destruct (Z.eq_dec g 0) as [E|E]; [apply Z.gcd_eq_0_r in E; lia|lia]. }
  destruct (Z.gcd_divide_l a r) as [a' Ha]. destruct (Z.gcd_divide_r a r) as [d Hd].
  fold g in Ha, Hd.
  assert (Hdiv : r / g = d) by (rewrite Hd; apply Z.div_mul; lia).
  rewrite Hdiv.
  assert (Hcop : Z.gcd a' d = 1).
  { assert (E : Z.gcd (a / g) (r / g) = 1) by (apply Z.gcd_div_gcd; [lia|reflexivity]).
    rewrite Hdiv in E. rewrite Ha, Z.div_mul in E by lia. exact E. }
  split.
  - intros [k Hk]. exists (a' * k). rewrite Ha, Hd, Hk. ring.
  - intros [k Hk].
    assert (Hd' : (d | a' * m)).
    { exists k. apply Z.mul_reg_r with (p := g); [lia|].
      transitivity (a * m); [rewrite Ha; ring|]. rewrite Hk, Hd. ring. }
    apply Z.gauss with (m := a'); [exact Hd'|].
    rewrite Z.gcd_comm. exact Hcop.
Qed.

Lemma lcm_fold_pos (l : list Z) (a : Z) :
  0 < a -> (forall x, In x l -> 0 < x) -> 0 < fold_left Z.lcm l a.
Proof.
  revert a. induction l as [|x l IH]; intros a Ha Hl; [exact Ha|].
  simpl. apply IH; [|intros; apply Hl; simpl; auto].
  pose proof (Z.lcm_nonneg a x). specialize (Hl x (or_introl eq_refl)).
  destruct (Z.eq_dec (Z.lcm a x) 0) as [E|E]; [apply Z.lcm_eq_0 in E; lia|lia].
Qed.

Lemma lcm_fold_divide (l : list Z) (a m : Z) :
  (fold_left Z.lcm l a | m) <-> (a | m) /\ forall x, In x l -> (x | m).
Proof.
  revert a. induction l as [|x l IH]; intros a; simpl.
  - split; [intros; split; [assumption|tauto]|tauto].
  - rewrite IH. split.
    + intros [H1 H2]. split.
      * eapply Z.divide_trans; [apply Z.divide_lcm_l|exact H1].
      * intros y [<-|Hy]; [|auto].
        eapply Z.divide_trans; [apply Z.divide_lcm_r|exact H1].
    + intros [H1 H2]. split; [|auto].
      apply Z.lcm_least; auto.
Qed.

Lemma lcm_list_divide (l : list Z) (m : Z) :
  (lcm_list l | m) <-> forall x, In x l -> (x | m).
Proof.
  unfold lcm_list. rewrite lcm_fold_divide. split; [tauto|].
  intros H. split; [apply Z.divide_1_l|exact H].
Qed.

Lemma lcm_list_pos (l : list Z) : (forall x, In x l -> 0 < x) -> 0 < lcm_list l.
Proof. apply lcm_fold_pos. lia. Qed.

(** Two positive integers with the same multiples are equal. *)
Lemma same_multiples (a b : Z) :
  0 < a -> 0 < b -> (forall m, (a | m) <-> (b | m)) -> a = b.
Proof.
  intros Ha Hb H. apply Z.divide_antisym_nonneg; try lia.
  - apply H. apply Z.divide_refl.
  - apply H. apply Z.divide_refl.
Qed.

Lemma lcm_denominators_divide (r : Z) (es : list nat) (m : Z) :
  0 < r ->
  (lcm_list (map (exponent_denominator r) es) | m) <-> fits r es m.
Proof.
  intros Hr. rewrite lcm_list_divide. unfold fits. split.
  - intros H e He. apply exponent_denominator_divide; [exact Hr|].
    apply H. apply in_map. exact He.
  - intros H x Hx. apply in_map_iff in Hx as [e [<- He]].
    apply exponent_denominator_divide; auto.
Qed.

Lemma lcm_denominators_pos (r : Z) (es : list nat) :
  0 < lcm_list (map (exponent_denominator r) es).
Proof.
  apply lcm_list_pos. intros x Hx. apply in_map_iff in Hx as [e [<- _]].
  apply exponent_denominator_pos.
Qed.

Lemma tail_fold_divide (r : Z) (cs : list pseries) (n m : Z) :
  0 < r ->
  (tail_fold r cs n | m) <-> (n | m) /\ tail_fits r cs m.
Proof.
  intros Hr. unfold tail_fold, tail_fits. revert n.
  induction cs as [|c cs IH]; intros n; simpl.
  - split; [intros; split; [assumption|tauto]|tauto].
  - rewrite IH. rewrite lcm_list_divide. split.
    + intros [H1 H2]. split; [apply H1; simpl; auto|].
      intros c' [<-|Hc]; [|auto].
      intros e He. apply exponent_denominator_divide; [exact Hr|].
      apply H1. simpl. right. apply in_map. exact He.
    + intros [H1 H2]. split; [|intros; apply H2; auto].
      intros x [<-|Hx]; [exact H1|].
      apply in_map_iff in Hx as [e [<- He]].
      apply exponent_denominator_divide; [exact Hr|]. apply (H2 c); auto.
Qed.

Lemma tail_fold_pos (r : Z) (cs : list pseries) (n : Z) :
  0 < n -> 0 < tail_fold r cs n.
Proof.
  unfold tail_fold. revert n. induction cs as [|c cs IH]; intros n Hn; simpl; [exact Hn|].
  apply IH. apply lcm_list_pos. intros x [<-|Hx]; [exact Hn|].
  apply in_map_iff in Hx as [e [<- _]]. apply exponent_denominator_pos.
Qed.

Lemma new_ramification_unfold (exp : poly) (p : tpoly) (r : Z) :
  new_ramification exp p r =
  let n0 := lcm_list (map (exponent_denominator r) (exponents exp)) in
  if n0 <? r then tail_fold r (coefficients p) n0 else n0.
Proof. reflexivity. Qed.

(** ** The ramification computed by the constructor *)

Lemma new_ramification_pos exp p r : 0 < new_ramification exp p r.
Proof.
  rewrite new_ramification_unfold. cbv zeta.
  destruct (_ <? _); [apply tail_fold_pos|]; apply lcm_denominators_pos.
Qed.

Lemma fits_self r es : fits r es r.
Proof. intros e _. apply Z.divide_mul_r. apply Z.divide_refl. Qed.

Lemma new_ramification_divides exp p r : 0 < r -> (new_ramification exp p r | r).
Proof.
  intros Hr. rewrite new_ramification_unfold. cbv zeta.
  destruct (_ <? _).
  - apply tail_fold_divide; [exact Hr|]. split.
    + apply lcm_denominators_divide; [exact Hr|]. apply fits_self.
    + intros c _. apply fits_self.
  - apply lcm_denominators_divide; [exact Hr|]. apply fits_self.
Qed.

Lemma new_ramification_le exp p r : 0 < r -> new_ramification exp p r <= r.
Proof. intros Hr. apply Z.divide_pos_le; [exact Hr|]. apply new_ramification_divides. exact Hr. Qed.

(** When the constructor rescales, the new ramification is the lcm over all
    the exponents, those of the tail included. *)
Lemma new_ramification_multiples exp p r m :
  0 < r -> new_ramification exp p r <> r ->
  (new_ramification exp p r | m) <-> fits r (exponents exp) m /\ tail_fits r (coefficients p) m.
Proof.
  intros Hr Hn. rewrite new_ramification_unfold in *. cbv zeta in *.
  destruct (Z.ltb_spec (lcm_list (map (exponent_denominator r) (exponents exp))) r) as [H|H].
  - rewrite tail_fold_divide, lcm_denominators_divide by exact Hr. reflexivity.
  - exfalso. apply Hn. apply Z.le_antisymm; [|exact H].
    apply Z.divide_pos_le; [exact Hr|].
    apply lcm_denominators_divide; [exact Hr|]. apply fits_self.
Qed.

(** The quotient [ramification / new_ram] divides every rescaled exponent. *)
Lemma new_ramification_exact exp p r e :
  0 < r -> new_ramification exp p r <> r ->
  In e (exponents exp) \/ (exists c, In c (coefficients p) /\ In e (ps_exponents c)) ->
  (r / new_ramification exp p r | Z.of_nat e).
Proof.
  intros Hr Hn He.
  pose proof (new_ramification_pos exp p r) as Hpos.
  destruct (@new_ramification_divides exp p r Hr) as [q Hq].
  set (n := new_ramification exp p r) in *.
  assert (Hdiv : r / n = q) by (rewrite Hq; apply Z.div_mul; lia).
  rewrite Hdiv.
  assert (Hf : fits r (exponents exp) n /\ tail_fits r (coefficients p) n).
  { apply new_ramification_multiples; [exact Hr|exact Hn|apply Z.divide_refl]. }
  destruct Hf as [H1 H2].
  assert (Hd : (r | Z.of_nat e * n)).
  { destruct He as [He|[c [Hc He]]]; [apply H1; exact He|apply (H2 c Hc); exact He]. }
  destruct Hd as [k Hk]. exists k.
  apply Z.mul_reg_r with (p := n); [lia|]. rewrite Hk, Hq. ring.
Qed.

(** The computed ramification is kept when the exponents are rescaled
    together with the ramification. *)
Lemma new_ramification_stable exp p r exp' p' n :
  0 < r -> 0 < n ->
  (forall m, fits n (exponents exp') m <-> fits r (exponents exp) m) ->
  (forall m, tail_fits n (coefficients p') m <-> tail_fits r (coefficients p) m) ->
  new_ramification exp p r = n ->
  new_ramification exp' p' n = n.
Proof.
  intros Hr Hn He Hp H. rewrite new_ramification_unfold in *. cbv zeta in *.
  set (n0 := lcm_list (map (exponent_denominator r) (exponents exp))) in *.
  set (n0' := lcm_list (map (exponent_denominator n) (exponents exp'))).
  assert (E0 : n0' = n0).
  { apply same_multiples; try apply lcm_denominators_pos.
    intros m. unfold n0, n0'. rewrite !lcm_denominators_divide by assumption. apply He. }
  rewrite E0.
  destruct (Z.ltb_spec n0 r) as [Hlt|Hge].
  - assert (Hdiv : (n0 | n)).
    { assert (Hnn : (tail_fold r (coefficients p) n0 | n)) by (rewrite H; apply Z.divide_refl).
      apply tail_fold_divide in Hnn; [tauto|exact Hr]. }
    destruct (Z.ltb_spec n0 n) as [Hlt'|Hge'].
    + apply same_multiples; [apply tail_fold_pos; apply lcm_denominators_pos|exact Hn|].
      intros m. rewrite tail_fold_divide by exact Hn. rewrite <- H at 2.
      rewrite tail_fold_divide by exact Hr. rewrite Hp. reflexivity.
    + apply Z.le_antisymm; [|exact Hge'].
      apply Z.divide_pos_le; assumption.
  - subst n. rewrite Z.ltb_irrefl. reflexivity.
Qed.

Lemma divide_nat_mod (q : Z) (e : nat) :
  0 < q -> (q | Z.of_nat e) -> (e mod Z.to_nat q = 0)%nat.
Proof.
  intros Hq [k Hk].
  assert (0 <= k) by nia.
  assert (E : e = (Z.to_nat k * Z.to_nat q)%nat).
  { apply Nat2Z.inj. rewrite Nat2Z.inj_mul, !Z2Nat.id by lia. exact Hk. }
  rewrite E. apply Nat.Div0.mod_mul.
Qed.

(** ** Rationals, valuations and stored series *)

(** *** Rationals *)

Lemma Qc_ltb_lt (a b : Qc) : Qc_ltb a b = true <-> (a < b)%Qc.
Proof.
  unfold Qc_ltb. rewrite Qclt_alt. destruct (a ?= b)%Qc; split; congruence.
Qed.

Lemma Qc_ltb_ge (a b : Qc) : Qc_ltb a b = false <-> (b <= a)%Qc.
Proof.
  split.
  - intros H. apply Qcnot_lt_le. intros L. apply Qc_ltb_lt in L. congruence.
  - intros H. destruct (Qc_ltb a b) eqn:E; [|reflexivity].
    apply Qc_ltb_lt in E. exfalso. eapply Qcle_not_lt; eauto.
Qed.

Lemma Qc_min_le_l (a b : Qc) : (Qc_min a b <= a)%Qc.
Proof.
  unfold Qc_min. destruct (Qc_ltb b a) eqn:E.
  - apply Qc_ltb_lt in E. apply Qclt_le_weak. exact E.
  - apply Qcle_refl.
Qed.

Lemma Qc_min_le_r (a b : Qc) : (Qc_min a b <= b)%Qc.
Proof.
  unfold Qc_min. destruct (Qc_ltb b a) eqn:E.
  - apply Qcle_refl.
  - apply Qc_ltb_ge in E. exact E.
Qed.

Lemma Qc_min_cases (a b : Qc) : Qc_min a b = a \/ Qc_min a b = b.
Proof. unfold Qc_min. destruct (Qc_ltb b a); auto. Qed.

Lemma fold_min_In (l : list Qc) (a : Qc) : In (fold_left Qc_min l a) (a :: l).
Proof.
  revert a. induction l as [|b l IH]; intros a; simpl; [auto|].
  destruct (IH (Qc_min a b)) as [H|H]; [|auto].
  rewrite <- H. destruct (Qc_min_cases a b) as [E|E]; rewrite E; auto.
Qed.

Lemma fold_min_le_init (l : list Qc) (a : Qc) : (fold_left Qc_min l a <= a)%Qc.
Proof.
  revert a. induction l as [|b l IH]; intros a; simpl; [apply Qcle_refl|].
  eapply Qcle_trans; [apply IH|apply Qc_min_le_l].
Qed.

Lemma fold_min_le (l : list Qc) (a x : Qc) :
  In x (a :: l) -> (fold_left Qc_min l a <= x)%Qc.
Proof.
  revert a. induction l as [|b l IH]; intros a; simpl.
  - intros [<-|[]]. apply Qcle_refl.
  - intros [<-|[<-|H]].
    + eapply Qcle_trans; [apply fold_min_le_init|apply Qc_min_le_l].
    + eapply Qcle_trans; [apply fold_min_le_init|apply Qc_min_le_r].
    + apply IH. simpl. auto.
Qed.

Lemma min_list_In (l : list Qc) : l <> [] -> In (min_list l) l.
Proof. destruct l; [congruence|]. intros _. apply fold_min_In. Qed.

Lemma min_list_le (l : list Qc) (x : Qc) : In x l -> (min_list l <= x)%Qc.
Proof. destruct l; [simpl; tauto|]. apply fold_min_le. Qed.

Lemma this_rat (n d : Z) : 0 < d -> (this (rat n d) == inject_Z n / inject_Z d)%Q.
Proof.
  intros Hd. unfold rat. cbn [this Q2Qc]. rewrite Qred_correct.
  rewrite Qmake_Qdiv. rewrite Z2Pos.id by exact Hd. reflexivity.
Qed.

Lemma rat_le (a b r : Z) : 0 < r -> (rat a r <= rat b r)%Qc <-> a <= b.
Proof.
  intros Hr. unfold Qcle. rewrite !this_rat by exact Hr.
  assert (Hp : (0 < inject_Z r)%Q).
  { change 0%Q with (inject_Z 0). rewrite <- Zlt_Qlt. exact Hr. }
  unfold Qdiv. rewrite Qmult_le_r by (apply Qinv_lt_0_compat; exact Hp).
  rewrite <- Zle_Qle. reflexivity.
Qed.

Lemma rat_0 (r : Z) : rat 0 r = 0%Qc.
Proof. apply Qc_is_canon. unfold rat. cbn [this Q2Qc]. rewrite Qred_correct. reflexivity. Qed.

Lemma rat_eq_0 (n r : Z) : 0 < r -> rat n r = 0%Qc -> n = 0.
Proof.
  intros Hr H. rewrite <- (rat_0 r) in H.
  apply Z.le_antisymm; apply (rat_le _ _ _ Hr); rewrite H; apply Qcle_refl.
Qed.

Lemma Z2Qc_mul_rat (n r : Z) : 0 < r -> (Z2Qc r * rat n r)%Qc = Z2Qc n.
Proof.
  intros Hr. apply Qc_is_canon. unfold Z2Qc, Qcmult. cbn [this Q2Qc].
  rewrite !Qred_correct. rewrite this_rat by exact Hr.
  field. intros H. change 0%Q with (inject_Z 0) in H.
  rewrite inject_Z_injective in H. lia.
Qed.

Lemma this_Z2Qc (n : Z) : this (Z2Qc n) = inject_Z n.
Proof.
  unfold Z2Qc. cbn [this Q2Qc]. apply Qred_identity. simpl. apply Z.gcd_1_r.
Qed.

Lemma to_ZZ_Z2Qc (n : Z) : to_ZZ (Z2Qc n) = Ok n.
Proof.
  unfold to_ZZ, in_ZZ, denominator, numerator. rewrite this_Z2Qc. reflexivity.
Qed.

Lemma to_exponent_nat (v : nat) : to_exponent (Z2Qc (Z.of_nat v)) = Ok v.
Proof.
  unfold to_exponent. rewrite to_ZZ_Z2Qc. cbn [bind].
  destruct (Z.ltb_spec (Z.of_nat v) 0); [lia|]. rewrite Nat2Z.id. reflexivity.
Qed.

(** *** Valuations *)

Lemma low_zeros_spec (l : poly) :
  forallb cis_zero l = false ->
  coeff l (low_zeros l) <> 0%Qc /\ (low_zeros l < length l)%nat.
Proof.
  induction l as [|c l IH]; simpl; [congruence|].
  change (cis_zero c) with (Qc_is_zero c).
  destruct (Qc_is_zero c) eqn:E; simpl.
  - intros H. destruct (IH H) as [H1 H2]. split; [exact H1|lia].
  - intros _. split; [apply Qc_is_zero_false; exact E|lia].
Qed.

Lemma low_zeros_below (l : poly) (k : nat) :
  (k < low_zeros l)%nat -> coeff l k = 0%Qc.
Proof.
  revert k. induction l as [|c l IH]; intros k; simpl; [lia|].
  destruct (Qc_is_zero c) eqn:E; [|lia].
  destruct k as [|k]; intros H.
  - apply Qc_is_zero_true. exact E.
  - apply IH. lia.
Qed.

Lemma low_zeros_0 (l : poly) : coeff l 0 <> 0%Qc -> low_zeros l = O.
Proof.
  destruct l as [|c l]; simpl; [reflexivity|]. intros H.
  apply Qc_is_zero_false in H. unfold coeff in H. simpl in H. rewrite H. reflexivity.
Qed.

Lemma nonzero_not_all_zero (l : poly) : norm l = l -> l <> [] -> forallb cis_zero l = false.
Proof.
  intros Hn Hl. destruct (forallb cis_zero l) eqn:E; [|reflexivity].
  apply norm_nil_iff in E. congruence.
Qed.

(** *** Well-formed stored series *)

Lemma truncate_fix (pr : eprec) (l : poly) :
  (forall n, pr = Some n -> (length l <= n)%nat) -> truncate pr l = l.
Proof.
  destruct pr as [n|]; simpl; [|reflexivity].
  intros H. apply firstn_all2. apply H. reflexivity.
Qed.

Lemma mk_ps_wf (l : poly) (pr : eprec) : ps_wf (mk_ps l pr).
Proof.
  unfold mk_ps, ps_wf. cbn [ps_poly ps_prec]. split; [apply norm_idem|].
  intros n ->. simpl. etransitivity; [apply length_norm|].
  rewrite length_firstn. lia.
Qed.

Lemma mk_ps_fix (c : pseries) : ps_wf c -> mk_ps (ps_poly c) (ps_prec c) = c.
Proof.
  intros [H1 H2]. destruct c as [l pr]. unfold mk_ps. cbn [ps_poly ps_prec] in *.
  rewrite truncate_fix by exact H2. rewrite H1. reflexivity.
Qed.

Lemma tail_ring_fix (p : tpoly) :
  norm p = p -> (forall c, In c p -> ps_wf c) -> tail_ring p = p.
Proof.
  intros Hn Hw. unfold tail_ring.
  rewrite norm_map_id; [exact Hn|]. intros c Hc. apply mk_ps_fix. auto.
Qed.

Lemma tail_ring_norm (t : list pseries) : norm (tail_ring t) = tail_ring t.
Proof. apply norm_idem. Qed.

Lemma tail_ring_wf (t : list pseries) (c : pseries) : In c (tail_ring t) -> ps_wf c.
Proof.
  intros H. apply norm_In in H. apply in_map_iff in H as [c' [<- _]]. apply mk_ps_wf.
Qed.

Lemma tail_ring_idem (t : list pseries) : tail_ring (tail_ring t) = tail_ring t.
Proof. apply tail_ring_fix; [apply tail_ring_norm|apply tail_ring_wf]. Qed.

Lemma tail_ring_fix_inv (p : tpoly) :
  tail_ring p = p -> norm p = p /\ forall c, In c p -> ps_wf c.
Proof.
  intros H. split.
  - rewrite <- H. apply tail_ring_norm.
  - intros c Hc. rewrite <- H in Hc. eapply tail_ring_wf; eauto.
Qed.

(** A coefficient-wise map that sends well-formed series to well-formed
    series and keeps zero and nonzero apart yields a tail in normal form. *)
Lemma tail_map_fix (g : pseries -> pseries) (p : tpoly) :
  tail_ring p = p ->
  (forall c, In c p -> ps_wf (g c)) ->
  (forall c, In c p -> ps_is_zero (g c) = ps_is_zero c) ->
  norm (map g p) = map g p /\ tail_ring (map g p) = map g p.
Proof.
  intros Hp Hw Hz. apply tail_ring_fix_inv in Hp as [Hn _].
  assert (E : norm (map g p) = map g p).
  { rewrite norm_map by exact Hz. rewrite Hn. reflexivity. }
  split; [exact E|].
  apply tail_ring_fix; [exact E|].
  intros c Hc. apply in_map_iff in Hc as [c' [<- Hc']]. auto.
Qed.

Lemma coefficients_map (g : pseries -> pseries) (p : tpoly) :
  (forall c, In c p -> ps_is_zero (g c) = ps_is_zero c) ->
  coefficients (map g p) = map g (coefficients p).
Proof.
  unfold coefficients. induction p as [|c p IH]; intros H; [reflexivity|].
  cbn [map filter]. rewrite IH by (intros; apply H; simpl; auto).
  assert (E : cis_zero (g c) = cis_zero c) by (apply H; simpl; auto).
  rewrite E. destruct (cis_zero c); reflexivity.
Qed.

Lemma In_coefficients (c : pseries) (p : tpoly) :
  In c (coefficients p) <-> In c p /\ ps_is_zero c = false.
Proof.
  unfold coefficients. rewrite filter_In, negb_true_iff. reflexivity.
Qed.

(** ** The coefficient-wise steps *)

Lemma ps_coeff_nonzero (c : pseries) (k : nat) :
  ps_coeff c k <> 0%Qc -> ps_is_zero c = false.
Proof.
  unfold ps_coeff, ps_is_zero. destruct (ps_poly c); [|reflexivity].
  rewrite coeff_nil. congruence.
Qed.

Lemma ps_nonzero_not_all_zero (c : pseries) :
  ps_wf c -> ps_is_zero c = false -> forallb cis_zero (ps_poly c) = false.
Proof.
  intros [Hn _] Hz. apply nonzero_not_all_zero; [exact Hn|].
  unfold ps_is_zero in Hz. destruct (ps_poly c); [discriminate|congruence].
Qed.

(** *** The valuation step *)

Lemma valuations_nonneg (r : Z) (p : tpoly) (x : Qc) :
  0 < r -> In x (valuations r p) -> (0 <= x)%Qc.
Proof.
  intros Hr H. apply in_map_iff in H as [c [<- _]].
  rewrite <- (rat_0 r). apply rat_le; [exact Hr|lia].
Qed.

Lemma alpha_zero (r : Z) (p : tpoly) :
  0 < r -> (exists c, In c p /\ ps_coeff c 0 <> 0%Qc) ->
  min_list (valuations r p) = 0%Qc.
Proof.
  intros Hr [c [Hc Hc0]].
  assert (Hin : In 0%Qc (valuations r p)).
  { apply in_map_iff. exists c. split.
    - rewrite low_zeros_0 by exact Hc0. apply rat_0.
    - apply In_coefficients. split; [exact Hc|]. eapply ps_coeff_nonzero; eauto. }
  apply Qcle_antisym.
  - apply min_list_le. exact Hin.
  - apply (valuations_nonneg r p); [exact Hr|].
    apply min_list_In. intros E. rewrite E in Hin. exact Hin.
Qed.

Lemma alpha_spec (r : Z) (p : tpoly) :
  0 < r -> coefficients p <> [] ->
  exists c0, In c0 (coefficients p)
    /\ min_list (valuations r p) = rat (Z.of_nat (low_zeros (ps_poly c0))) r
    /\ forall c, In c (coefficients p) ->
         (low_zeros (ps_poly c0) <= low_zeros (ps_poly c))%nat.
Proof.
  intros Hr Hne.
  assert (Hin : In (min_list (valuations r p)) (valuations r p)).
  { apply min_list_In. unfold valuations. destruct (coefficients p); [congruence|discriminate]. }
  pose proof Hin as Hin'. apply in_map_iff in Hin' as [c0 [E Hc0]].
  exists c0. split; [exact Hc0|]. split; [symmetry; exact E|].
  intros c Hc. apply Nat2Z.inj_le. apply (rat_le _ _ r Hr).
  rewrite E. apply min_list_le. apply in_map_iff. exists c. auto.
Qed.

(** *** The three coefficient-wise steps of the constructor *)

Lemma map_coefficients_eq (f : pseries -> pseries) (p : tpoly) :
  map_coefficients f p = norm (map (fun c => if ps_is_zero c then ps_zero else f c) p).
Proof. reflexivity. Qed.

Lemma skipn_norm (k : nat) (l : poly) : norm l = l -> norm (skipn k l) = skipn k l.
Proof.
  revert l. induction k as [|k IH]; intros l H; [exact H|].
  destruct l as [|c l]; [reflexivity|]. simpl. apply IH. eapply norm_tail_fix; eauto.
Qed.

Lemma coeff_skipn (k : nat) (l : poly) (j : nat) : coeff (skipn k l) j = coeff l (k + j).
Proof.
  revert l. induction k as [|k IH]; intros l; [reflexivity|].
  destruct l as [|c l]; [rewrite !coeff_nil; reflexivity|]. simpl. apply IH.
Qed.

Lemma floordiv_step_wf (k : nat) (c : pseries) : ps_wf c -> ps_wf (floordiv_step k c).
Proof.
  intros [H1 H2]. unfold floordiv_step. destruct (ps_is_zero c).
  - split; [reflexivity|]. simpl. congruence.
  - unfold ps_floordiv_xpow, ps_wf. cbn [ps_poly ps_prec]. split.
    + apply skipn_norm. exact H1.
    + intros n Hn. rewrite length_skipn. destruct (ps_prec c) as [m|]; [|discriminate].
      simpl in Hn. injection Hn as <-. specialize (H2 m eq_refl). lia.
Qed.

Lemma floordiv_step_zero (k : nat) (c : pseries) :
  ps_wf c -> (ps_is_zero c = false -> (k <= low_zeros (ps_poly c))%nat) ->
  ps_is_zero (floordiv_step k c) = ps_is_zero c.
Proof.
  intros Hw Hk. unfold floordiv_step. destruct (ps_is_zero c) eqn:E; [reflexivity|].
  specialize (Hk eq_refl).
  destruct (low_zeros_spec (ps_poly c) (ps_nonzero_not_all_zero c Hw E)) as [_ Hl].
  unfold ps_is_zero, ps_floordiv_xpow. cbn [ps_poly].
  destruct (skipn k (ps_poly c)) eqn:F; [|reflexivity].
  apply (f_equal (@length Qc)) in F. rewrite length_skipn in F. simpl in F. lia.
Qed.

Lemma floordiv_step_coeff (c : pseries) :
  ps_wf c -> ps_is_zero c = false ->
  ps_coeff (floordiv_step (low_zeros (ps_poly c)) c) 0 <> 0%Qc.
Proof.
  intros Hw Hz. unfold floordiv_step. rewrite Hz.
  unfold ps_coeff, ps_floordiv_xpow. cbn [ps_poly].
  rewrite coeff_skipn, Nat.add_0_r.
  apply low_zeros_spec. apply ps_nonzero_not_all_zero; assumption.
Qed.

Lemma rescaled_nil (q : nat) : rescaled q (@nil Qc) = [].
Proof. reflexivity. Qed.

Lemma dict_get_last (d : list (nat * Qc)) (k : nat) (v : Qc) :
  dict_get (d ++ [(k, v)]) k = v.
Proof.
  unfold dict_get. rewrite fold_left_app. cbn [fold_left fst snd].
  rewrite Nat.eqb_refl. reflexivity.
Qed.

Lemma rescaled_nonzero (q : nat) (l : poly) :
  norm l = l -> l <> [] -> rescaled q l <> [].
Proof.
  intros Hn Hl E.
  destruct (low_zeros_spec l (nonzero_not_all_zero l Hn Hl)) as [H _].
  apply In_exponents in H.
  destruct (exists_last (l := exponents l)) as [es [e Ee]].
  { intros F. rewrite F in H. exact H. }
  assert (He : coeff l e <> 0%Qc).
  { apply In_exponents. rewrite Ee. apply in_or_app. right. simpl. auto. }
  unfold rescaled in E. rewrite Ee, map_app in E. cbn [map] in E.
  apply He.
  transitivity (dict_get (map (fun e => (Nat.div e q, coeff l e)) es
                          ++ [(Nat.div e q, coeff l e)]) (Nat.div e q));
    [symmetry; apply dict_get_last|].
  rewrite <- coeff_of_dict, E. apply coeff_nil.
Qed.

Lemma ps_rescaled_zero (q : nat) (c : pseries) :
  ps_wf c -> ps_is_zero (ps_rescaled q c) = ps_is_zero c.
Proof.
  intros [Hn _]. unfold ps_is_zero, ps_rescaled. cbn [ps_poly].
  destruct (ps_poly c) as [|a l] eqn:E; [reflexivity|].
  destruct (rescaled q (a :: l)) eqn:F; [|reflexivity].
  exfalso. eapply rescaled_nonzero; eauto. congruence.
Qed.

Lemma ps_rescaled_wf (q : nat) (c : pseries) : ps_wf (ps_rescaled q c).
Proof.
  unfold ps_rescaled, ps_wf. cbn [ps_poly ps_prec]. split; [apply of_dict_norm|congruence].
Qed.

Lemma Qcmult_nonzero (k x : Qc) : k <> 0%Qc -> (k * x = 0 <-> x = 0)%Qc.
Proof.
  intros Hk. split.
  - intros H. apply Qcmult_integral in H. tauto.
  - intros ->. apply Qcmult_0_r.
Qed.

Lemma scale_is_zero (k x : Qc) : k <> 0%Qc -> Qc_is_zero (k * x) = Qc_is_zero x.
Proof.
  intros Hk. destruct (Qc_is_zero x) eqn:E.
  - apply Qc_is_zero_true in E. subst. apply Qc_is_zero_true. apply Qcmult_0_r.
  - apply Qc_is_zero_false in E. apply Qc_is_zero_false.
    intros H. apply E. apply (Qcmult_nonzero k); assumption.
Qed.

Lemma ps_scale_eq (k : Qc) (c : pseries) :
  k <> 0%Qc -> ps_wf c -> ps_scale k c = PS (map (Qcmult k) (ps_poly c)) (ps_prec c).
Proof.
  intros Hk [H1 H2]. unfold ps_scale, mk_ps. f_equal.
  rewrite truncate_fix by (intros n Hn; rewrite length_map; auto).
  rewrite norm_map by (intros; apply scale_is_zero; exact Hk).
  rewrite H1. reflexivity.
Qed.

Lemma ps_scale_wf (k : Qc) (c : pseries) : ps_wf (ps_scale k c).
Proof. apply mk_ps_wf. Qed.

Lemma ps_scale_zero (k : Qc) (c : pseries) :
  k <> 0%Qc -> ps_wf c -> ps_is_zero (ps_scale k c) = ps_is_zero c.
Proof.
  intros Hk Hw. rewrite ps_scale_eq by assumption.
  unfold ps_is_zero. cbn [ps_poly]. destruct (ps_poly c); reflexivity.
Qed.

Lemma coeff_map_scale (k : Qc) (l : poly) (j : nat) :
  coeff (map (Qcmult k) l) j = (k * coeff l j)%Qc.
Proof.
  unfold coeff.
  transitivity (nth j (map (Qcmult k) l) (k * czero)%Qc); [|apply map_nth].
  f_equal. symmetry. apply Qcmult_0_r.
Qed.

Lemma ps_scale_coeff (k : Qc) (c : pseries) (j : nat) :
  k <> 0%Qc -> ps_wf c -> ps_coeff (ps_scale k c) j = (k * ps_coeff c j)%Qc.
Proof.
  intros Hk Hw. rewrite ps_scale_eq by assumption. unfold ps_coeff. cbn [ps_poly].
  apply coeff_map_scale.
Qed.

(** ** The invariant through the steps *)

(** *** Exponents after a step *)

Lemma fits_rescaled (q : nat) (l : poly) (r n m : Z) :
  (0 < q)%nat -> r = n * Z.of_nat q -> divides_exponents q l ->
  fits n (exponents (rescaled q l)) m <-> fits r (exponents l) m.
Proof.
  intros Hq Hr Hd. unfold fits. split.
  - intros H e He.
    assert (Ee : e = (e / q * q)%nat).
    { rewrite (Nat.div_mod_eq e q) at 1. rewrite (Hd e He). lia. }
    assert (He' : In (e / q)%nat (exponents (rescaled q l))).
    { apply In_exponents. rewrite rescaled_coeff by assumption.
      rewrite <- Ee. apply In_exponents. exact He. }
    destruct (H _ He') as [k Hk]. exists k.
    rewrite Ee, Nat2Z.inj_mul, Hr.
    transitivity (Z.of_nat (e / q) * m * Z.of_nat q); [ring|]. rewrite Hk. ring.
  - intros H e He.
    apply In_exponents in He. rewrite rescaled_coeff in He by assumption.
    apply In_exponents in He. destruct (H _ He) as [k Hk]. exists k.
    apply Z.mul_reg_r with (p := Z.of_nat q); [lia|].
    rewrite Nat2Z.inj_mul in Hk.
    transitivity (Z.of_nat e * Z.of_nat q * m); [ring|]. rewrite Hk, Hr. ring.
Qed.

Lemma exponents_scale (k : Qc) (l : poly) (e : nat) :
  k <> 0%Qc -> In e (exponents (map (Qcmult k) l)) <-> In e (exponents l).
Proof.
  intros Hk. rewrite !In_exponents, coeff_map_scale.
  split; intros H E; apply H.
  - rewrite E. apply Qcmult_0_r.
  - apply (Qcmult_nonzero k); assumption.
Qed.

Lemma fits_ext (r : Z) (es es' : list nat) (m : Z) :
  (forall e, In e es <-> In e es') -> fits r es m <-> fits r es' m.
Proof.
  intros H. unfold fits. split; intros F e He; apply F; apply H; exact He.
Qed.

Lemma tail_fits_map (g : pseries -> pseries) (p : tpoly) (n r m : Z) :
  (forall c, In c p -> ps_is_zero (g c) = ps_is_zero c) ->
  (forall c, In c (coefficients p) ->
     fits n (ps_exponents (g c)) m <-> fits r (ps_exponents c) m) ->
  tail_fits n (coefficients (map g p)) m <-> tail_fits r (coefficients p) m.
Proof.
  intros Hz Hf. rewrite coefficients_map by exact Hz. unfold tail_fits. split.
  - intros H c Hc. apply Hf; [exact Hc|]. apply H. apply in_map. exact Hc.
  - intros H c Hc. apply in_map_iff in Hc as [c' [<- Hc']]. apply Hf; auto.
Qed.

(** *** Tails that have passed the valuation step *)

Lemma tail_ok_nonempty (p : tpoly) : tail_ok p -> p <> [].
Proof. intros [_ [c [Hc _]]] E. rewrite E in Hc. exact Hc. Qed.

Lemma tail_ok_map (g : pseries -> pseries) (p : tpoly) :
  tail_ring p = p ->
  (forall c, In c p -> ps_wf c -> ps_wf (g c)) ->
  (forall c, In c p -> ps_wf c -> ps_is_zero (g c) = ps_is_zero c) ->
  (exists c, In c p /\ ps_coeff (g c) 0 <> 0%Qc) ->
  norm (map g p) = map g p /\ tail_ok (map g p).
Proof.
  intros Hp Hw Hz [c [Hc Hc0]].
  destruct (tail_ring_fix_inv p Hp) as [_ Hwf].
  destruct (tail_map_fix g p Hp) as [H1 H2]; auto.
  split; [exact H1|]. split; [exact H2|].
  exists (g c). split; [apply in_map; exact Hc|exact Hc0].
Qed.

(** *** Well-formed series: the invariant of the constructor *)

Lemma cgs_zero_wf : cgs_wf cgs_zero.
Proof. split; simpl; try reflexivity; try lia; congruence. Qed.

Lemma core_wf (r : Z) (E : poly) (p : tpoly) :
  0 < r -> norm E = E -> tail_ok p -> new_ramification E p r = r -> cgs_wf (CGS r E p).
Proof.
  intros Hr HE Hp Hn. pose proof (tail_ok_nonempty p Hp) as Hne.
  destruct Hp as [H1 H2]. split; simpl; auto. congruence.
Qed.

(** The constructor applied to the fields of a well-formed series returns
    that series. *)
Lemma cgs_init_fix (A : ContinuousGeneralizedSeries) :
  cgs_wf A -> cgs_init (FromTail (c_tail A)) (c_exp A) (c_ramification A) false = Ok A.
Proof.
  intros [Hr HE HT Hz Hv Hm]. destruct A as [r E T]. simpl in *.
  unfold cgs_init. rewrite HT.
  destruct (Z.leb_spec r 0) as [H|_]; [lia|].
  destruct T as [|c T]; [rewrite Hz by reflexivity; reflexivity|].
  cbn [is_zero_poly]. rewrite HE.
  fold (valuations r (c :: T)).
  rewrite alpha_zero; [|exact Hr|apply Hv; congruence].
  change (Qc_is_zero 0) with true. cbn [bind].
  rewrite Hm, Z.eqb_refl. reflexivity.
Qed.

(** *** The ramification step *)

Lemma new_ramification_quo (E : poly) (p : tpoly) (r : Z) :
  0 < r -> new_ramification E p r <> r ->
  let n := new_ramification E p r in
  let q := Z.to_nat (r / n) in
  (0 < q)%nat /\ r = n * Z.of_nat q
  /\ divides_exponents q E
  /\ forall c, In c (coefficients p) -> divides_exponents q (ps_poly c).
Proof.
  intros Hr Hn n q.
  pose proof (new_ramification_pos E p r) as Hpos.
  destruct (new_ramification_divides E p r Hr) as [k Hk]. fold n in Hpos, Hk.
  assert (Hdiv : r / n = k) by (rewrite Hk; apply Z.div_mul; lia).
  assert (Hkpos : 0 < k) by nia.
  assert (Hq : Z.of_nat q = k) by (unfold q; rewrite Hdiv, Z2Nat.id; lia).
  split; [lia|]. split; [rewrite Hq, Hk; ring|].
  split.
  - intros e He. unfold q. apply divide_nat_mod; [rewrite Hdiv; exact Hkpos|].
    apply new_ramification_exact; auto.
  - intros c Hc e He. unfold q. apply divide_nat_mod; [rewrite Hdiv; exact Hkpos|].
    apply new_ramification_exact; [exact Hr|exact Hn|]. right. exists c. auto.
Qed.

Lemma rescale_ok (E : poly) (p : tpoly) (r : Z) :
  0 < r -> tail_ok p -> new_ramification E p r <> r ->
  let n := new_ramification E p r in
  let q := Z.to_nat (r / n) in
  norm (map (ps_rescaled q) p) = map (ps_rescaled q) p
  /\ tail_ok (map (ps_rescaled q) p)
  /\ new_ramification (rescaled q E) (map (ps_rescaled q) p) n = n.
Proof.
  intros Hr [Hp Hc0] Hn n q.
  destruct (new_ramification_quo E p r Hr Hn) as [Hq [Hrn [HdE Hdp]]].
  fold n q in Hq, Hrn, HdE, Hdp.
  assert (Hd : forall c, In c p -> divides_exponents q (ps_poly c)).
  { intros c Hc. destruct (ps_is_zero c) eqn:Z.
    - unfold ps_is_zero in Z. destruct (ps_poly c); [|discriminate]. intros e [].
    - apply Hdp. apply In_coefficients. auto. }
  assert (Hzero : forall c, In c p -> ps_wf c -> ps_is_zero (ps_rescaled q c) = ps_is_zero c).
  { intros c Hc Hw. apply ps_rescaled_zero. exact Hw. }
  destruct (tail_ok_map (ps_rescaled q) p Hp) as [H1 H2]; auto.
  - intros. apply ps_rescaled_wf.
  - destruct Hc0 as [c [Hc Hc0]]. exists c. split; [exact Hc|].
    unfold ps_coeff, ps_rescaled in *. cbn [ps_poly].
    rewrite rescaled_coeff by auto. exact Hc0.
  - split; [exact H1|]. split; [exact H2|].
    destruct (tail_ring_fix_inv p Hp) as [_ Hwf].
    apply (new_ramification_stable E p r); auto.
    + apply new_ramification_pos.
    + intros m. apply fits_rescaled; auto.
    + intros m. apply tail_fits_map.
      * intros c Hc. apply Hzero; auto.
      * intros c Hc. unfold ps_exponents, ps_rescaled. cbn [ps_poly].
        apply fits_rescaled; auto.
Qed.

(** *** The [make_monic] step *)

Lemma last_In {A : Type} (l : list A) (d : A) : l <> [] -> In (last l d) l.
Proof.
  induction l as [|a l IH]; [congruence|]. intros _.
  destruct l as [|b l]; [simpl; auto|].
  right. apply IH. congruence.
Qed.

Lemma tail_nonzero_map (g : pseries -> pseries) (p : tpoly) :
  tail_nonzero p ->
  (forall c, In c p -> ps_wf c -> ps_wf (g c)) ->
  (forall c, In c p -> ps_wf c -> ps_is_zero (g c) = ps_is_zero c) ->
  norm (map g p) = map g p /\ tail_nonzero (map g p).
Proof.
  intros [Hp Hne] Hw Hz.
  destruct (tail_ring_fix_inv p Hp) as [_ Hwf].
  destruct (tail_map_fix g p Hp) as [H1 H2]; auto.
  split; [exact H1|]. split; [exact H2|].
  destruct p; [congruence|discriminate].
Qed.

Lemma leading_first_coefficient (p : tpoly) :
  tail_nonzero p -> ps_first_coefficient (leading_coefficient p) <> 0%Qc.
Proof.
  intros [Hp Hne].
  destruct (tail_ring_fix_inv p Hp) as [Hn Hwf].
  assert (Hl : ps_is_zero (leading_coefficient p) = false).
  { apply norm_fix_iff in Hn as [E|E]; [congruence|exact E]. }
  assert (Hw : ps_wf (leading_coefficient p)) by (apply Hwf; apply last_In; exact Hne).
  unfold ps_first_coefficient.
  pose proof (ps_nonzero_not_all_zero _ Hw Hl) as Hnz.
  unfold coefficients.
  induction (ps_poly (leading_coefficient p)) as [|a l IH]; [discriminate|].
  simpl in *. change (cis_zero a) with (Qc_is_zero a) in *.
  destruct (Qc_is_zero a) eqn:E; simpl in *.
  - apply IH. exact Hnz.
  - apply Qc_is_zero_false. exact E.
Qed.

Lemma tail_ok_nonzero (p : tpoly) : tail_ok p -> tail_nonzero p.
Proof. intros Hp. split; [apply Hp|apply tail_ok_nonempty; exact Hp]. Qed.

Lemma monic_ok (E : poly) (p : tpoly) (r : Z) :
  0 < r -> tail_ok p -> new_ramification E p r = r ->
  tail_ok (make_monic_tail p) /\ new_ramification E (make_monic_tail p) r = r.
Proof.
  intros Hr Hp Hn. pose proof (leading_first_coefficient p (tail_ok_nonzero p Hp)) as Hk.
  unfold make_monic_tail.
  set (k := (/ ps_first_coefficient (leading_coefficient p))%Qc).
  assert (Hk' : k <> 0%Qc).
  { unfold k. intros Ek. pose proof (Qcmult_inv_r _ Hk) as Hi.
    rewrite Ek, Qcmult_0_r in Hi. discriminate. }
  destruct Hp as [Hp Hc0].
  destruct (tail_ok_map (ps_scale k) p Hp) as [H1 H2].
  - intros. apply ps_scale_wf.
  - intros. apply ps_scale_zero; auto.
  - destruct Hc0 as [c [Hc Hc0]]. exists c. split; [exact Hc|].
    destruct (tail_ring_fix_inv p Hp) as [_ Hwf].
    rewrite ps_scale_coeff by auto.
    intros Z. apply Hc0. apply (Qcmult_nonzero k); assumption.
  - rewrite H1. split; [exact H2|].
    destruct (tail_ring_fix_inv p Hp) as [_ Hwf].
    apply (new_ramification_stable E p r); auto.
    + intros m. reflexivity.
    + intros m. apply tail_fits_map.
      * intros c Hc. apply ps_scale_zero; auto.
      * intros c Hc. apply In_coefficients in Hc as [Hc _].
        apply fits_ext. intros e. unfold ps_exponents.
        rewrite ps_scale_eq by auto. cbn [ps_poly]. apply exponents_scale. exact Hk'.
Qed.

(** ** The continuous constructor establishes the invariant *)

(** *** The constructor, step by step *)

Lemma cgs_init_steps (tail : list pseries) (exp : list Qc) (r : Z) (mm : bool) :
  0 < r -> tail_ring tail <> [] ->
  cgs_init (FromTail tail) exp r mm =
  do ep <- valuation_step r (norm exp) (tail_ring tail);
  Ok (ramification_step r (fst ep) (snd ep) mm).
Proof.
  intros Hr Hne. unfold cgs_init.
  destruct (Z.leb_spec r 0) as [H|_]; [lia|].
  destruct (tail_ring tail) as [|c p] eqn:E; [congruence|].
  cbn [is_zero_poly]. unfold valuation_step, ramification_step, valuations.
  cbv zeta.
  destruct (Qc_is_zero _); [|destruct (to_exponent _); [|reflexivity]];
    cbn [bind fst snd]; destruct (_ =? _); reflexivity.
Qed.

Lemma canonical_coefficients (p : tpoly) :
  norm p = p -> p <> [] -> coefficients p <> [].
Proof.
  intros Hn Hne E.
  assert (Hl : ps_is_zero (last p czero) = false).
  { apply norm_fix_iff in Hn as [F|F]; [congruence|exact F]. }
  assert (Hin : In (last p czero) (coefficients p)).
  { apply In_coefficients. split; [apply last_In; exact Hne|exact Hl]. }
  rewrite E in Hin. exact Hin.
Qed.

Lemma valuation_step_ok (r : Z) (E : poly) (p : tpoly) :
  0 < r -> norm E = E -> tail_ring p = p -> p <> [] ->
  exists E1 p1, valuation_step r E p = Ok (E1, p1) /\ norm E1 = E1 /\ tail_ok p1.
Proof.
  intros Hr HE Hp Hne.
  destruct (tail_ring_fix_inv p Hp) as [Hn Hwf].
  destruct (alpha_spec r p Hr (canonical_coefficients p Hn Hne)) as [c0 [Hc0 [Ea Hmin]]].
  apply In_coefficients in Hc0 as [Hc0 Hz0].
  unfold valuation_step. rewrite Ea.
  set (v := low_zeros (ps_poly c0)) in *.
  destruct (Qc_is_zero (rat (Z.of_nat v) r)) eqn:Z.
  - exists E, p. split; [reflexivity|]. split; [exact HE|]. split; [exact Hp|].
    exists c0. split; [exact Hc0|].
    apply Qc_is_zero_true in Z. apply rat_eq_0 in Z; [|exact Hr].
    assert (Hv : v = O) by lia.
    pose proof (floordiv_step_coeff c0 (Hwf c0 Hc0) Hz0) as H. fold v in H.
    rewrite Hv in H. unfold floordiv_step in H. rewrite Hz0 in H.
    unfold ps_coeff, ps_floordiv_xpow in H. cbn [ps_poly skipn] in H. exact H.
  - rewrite Z2Qc_mul_rat by exact Hr. rewrite to_exponent_nat. cbn [bind].
    eexists _, _. split; [reflexivity|]. split; [apply norm_idem|].
    rewrite map_coefficients_eq. fold (floordiv_step v).
    destruct (tail_ok_map (floordiv_step v) p Hp) as [H1 H2].
    + intros. apply floordiv_step_wf. assumption.
    + intros c Hc Hw. apply floordiv_step_zero; [exact Hw|].
      intros Hz. apply Hmin. apply In_coefficients. auto.
    + exists c0. split; [exact Hc0|]. apply floordiv_step_coeff; auto.
    + rewrite H1. exact H2.
Qed.

Lemma ramification_step_wf (r : Z) (E : poly) (p : tpoly) (mm : bool) :
  0 < r -> norm E = E -> tail_ok p -> cgs_wf (ramification_step r E p mm).
Proof.
  intros Hr HE Hp. unfold ramification_step.
  assert (Hcore : forall r' E' p', 0 < r' -> norm E' = E' -> tail_ok p' ->
            new_ramification E' p' r' = r' ->
            cgs_wf (CGS r' E' (if mm then make_monic_tail p' else p'))).
  { intros r' E' p' Hr' HE' Hp' Hn'. destruct mm.
    - destruct (monic_ok E' p' r' Hr' Hp' Hn'). apply core_wf; auto.
    - apply core_wf; auto. }
  destruct (Z.eqb_spec (new_ramification E p r) r) as [Hn|Hn].
  - apply Hcore; auto.
  - destruct (rescale_ok E p r Hr Hp Hn) as [H1 [H2 H3]].
    rewrite H1. apply Hcore; auto.
    + apply new_ramification_pos.
    + apply of_dict_norm.
Qed.

(** *** The values of the type *)

Lemma cgs_init_new_wf (tail : list pseries) (exp : list Qc) (r : Z) (mm : bool)
    (A : ContinuousGeneralizedSeries) :
  cgs_init (FromTail tail) exp r mm = Ok A -> cgs_wf A.
Proof.
  intros H.
  destruct (Z.leb_spec r 0) as [Hr|Hr].
  { unfold cgs_init in H. destruct (Z.leb_spec r 0); [discriminate|lia]. }
  destruct (tail_ring tail) as [|c p] eqn:Et.
  { unfold cgs_init in H. rewrite Et in H.
    destruct (Z.leb_spec r 0); [lia|]. cbn [is_zero_poly] in H.
    injection H as <-. apply cgs_zero_wf. }
  rewrite cgs_init_steps in H; [|exact Hr|rewrite Et; congruence].
  destruct (valuation_step_ok r (norm exp) (tail_ring tail) Hr) as [E1 [p1 [Hs [HE1 Hp1]]]].
  - apply norm_idem.
  - apply tail_ring_idem.
  - rewrite Et. congruence.
  - rewrite Hs in H. cbn [bind fst snd] in H. injection H as <-.
    apply ramification_step_wf; auto.
Qed.

Lemma cgs_init_copy_wf (A0 : ContinuousGeneralizedSeries) (exp : list Qc) (r : Z)
    (mm : bool) (A : ContinuousGeneralizedSeries) :
  cgs_wf A0 -> cgs_init (FromSeries A0) exp r mm = Ok A -> cgs_wf A.
Proof.
  intros [Hr HE HT Hz Hv Hm] H. unfold cgs_init in H. injection H as <-.
  rewrite HT, HE.
  destruct (c_tail A0) as [|c T] eqn:Et.
  - rewrite andb_false_r. rewrite Hz by reflexivity. apply cgs_zero_wf.
  - cbn [is_zero_poly negb]. rewrite andb_true_r.
    assert (Hok : tail_ok (c :: T)) by (split; [exact HT|apply Hv; congruence]).
    destruct mm.
    + destruct (monic_ok (c_exp A0) (c :: T) (c_ramification A0) Hr Hok Hm).
      apply core_wf; auto.
    + apply core_wf; auto.
Qed.

Lemma cgs_value_wf (A : ContinuousGeneralizedSeries) : cgs_value A -> cgs_wf A.
Proof.
  induction 1 as [tail exp r mm A H|A0 exp r mm A _ IH H].
  - eapply cgs_init_new_wf; eauto.
  - eapply cgs_init_copy_wf; eauto.
Qed.

Lemma cgs_value_zero (A : ContinuousGeneralizedSeries) :
  cgs_value A -> cgs_is_zero A = true -> A = cgs_zero.
Proof.
  intros H Hz. apply cgs_value_wf in H. apply (wf_zero A H).
  unfold cgs_is_zero in Hz. destruct (c_tail A); [reflexivity|discriminate].
Qed.

(** ** Unit and zero of the continuous monoid *)

(** *** Products with one and with zero *)

Lemma add_raw_nil_r {A : Type} {C : Coeff A} (l : list A) : add_raw l [] = l.
Proof. destruct l; reflexivity. Qed.

Lemma eprec_min_None_r (p : eprec) : eprec_min p None = p.
Proof. destruct p; reflexivity. Qed.

Lemma map_Qcmult_1 (l : poly) : map (Qcmult 1) l = l.
Proof. apply norm_map_id. intros c _. apply Qcmult_1_l. Qed.

Lemma mul_raw_one_r (l : poly) : mul_raw l [1%Qc] = l.
Proof.
  induction l as [|a l IH]; [reflexivity|].
  cbn [mul_raw map]. rewrite IH. cbn [cmul Qc_Coeff czero].
  destruct l; cbn [add_raw cadd Qc_Coeff]; f_equal; ring.
Qed.

Lemma ps_mul_one_r (c : pseries) : ps_wf c -> ps_mul c ps_one = c.
Proof.
  intros Hw. unfold ps_mul. cbn [ps_poly ps_prec ps_one].
  rewrite mul_raw_one_r, eprec_min_None_r. apply mk_ps_fix. exact Hw.
Qed.

Lemma ps_mul_one_l (c : pseries) : ps_wf c -> ps_mul ps_one c = c.
Proof.
  intros Hw. unfold ps_mul. cbn [ps_poly ps_prec ps_one eprec_min mul_raw].
  cbn [cmul Qc_Coeff czero]. rewrite map_Qcmult_1.
  destruct c as [[|a l] pr].
  - cbn [ps_poly ps_prec add_raw]. unfold mk_ps. f_equal.
    destruct pr as [[|n]|]; try reflexivity.
    cbn [truncate firstn]. rewrite firstn_nil. reflexivity.
  - cbn [ps_poly ps_prec add_raw cadd Qc_Coeff].
    replace (a + 0)%Qc with a by ring. rewrite add_raw_nil_r.
    apply (mk_ps_fix (PS (a :: l) pr)). exact Hw.
Qed.

Lemma ps_add_zero_r (c : pseries) : ps_wf c -> ps_add c ps_zero = c.
Proof.
  intros Hw. unfold ps_add. cbn [ps_poly ps_prec ps_zero].
  rewrite add_raw_nil_r, eprec_min_None_r. apply mk_ps_fix. exact Hw.
Qed.

Lemma tail_mul_one_l (T : tpoly) : tail_ring T = T -> mul [ps_one] T = T.
Proof.
  intros HT. destruct (tail_ring_fix_inv T HT) as [Hn Hw].
  unfold mul. cbn [mul_raw]. cbn [cmul pseries_Coeff czero].
  rewrite norm_map_id by (intros; apply ps_mul_one_l; auto).
  destruct T as [|c T]; [reflexivity|].
  cbn [add_raw cadd pseries_Coeff]. rewrite ps_add_zero_r by (apply Hw; simpl; auto).
  rewrite add_raw_nil_r. exact Hn.
Qed.

Lemma tail_mul_raw_one_r (T : tpoly) :
  (forall c, In c T -> ps_wf c) -> mul_raw T [ps_one] = T.
Proof.
  induction T as [|c T IH]; intros Hw; [reflexivity|].
  cbn [mul_raw map]. rewrite IH by (intros; apply Hw; simpl; auto).
  cbn [cmul pseries_Coeff czero]. rewrite ps_mul_one_r by (apply Hw; simpl; auto).
  destruct T; cbn [add_raw cadd pseries_Coeff];
    rewrite ps_add_zero_r by (apply Hw; simpl; auto); reflexivity.
Qed.

Lemma tail_mul_one_r (T : tpoly) : tail_ring T = T -> mul T [ps_one] = T.
Proof.
  intros HT. destruct (tail_ring_fix_inv T HT) as [Hn Hw].
  unfold mul. rewrite tail_mul_raw_one_r by exact Hw. exact Hn.
Qed.

Lemma tail_mul_zero_r (T : tpoly) : mul T (@nil pseries) = [].
Proof.
  unfold mul. apply norm_nil_iff.
  induction T as [|c T IH]; [reflexivity|].
  cbn [mul_raw map add_raw]. simpl. exact IH.
Qed.

Lemma poly_add_zero_r (E : poly) : norm E = E -> add E [] = E.
Proof. intros H. unfold add. rewrite add_raw_nil_r. exact H. Qed.

Lemma poly_add_zero_l (E : poly) : norm E = E -> add [] E = E.
Proof. intros H. exact H. Qed.

(** *** Inflating *)

Lemma inflate_same (A : ContinuousGeneralizedSeries) :
  cgs_inflate A (c_ramification A) = Ok (c_exp A, c_tail A).
Proof. unfold cgs_inflate, cgs_ramification. rewrite Z.eqb_refl. reflexivity. Qed.

Lemma inflate_quo (A : ContinuousGeneralizedSeries) (s : Z) :
  0 < c_ramification A -> 0 < s -> (c_ramification A | s) -> s <> c_ramification A ->
  cgs_inflate A s =
  Ok (subst_xpow (Z.to_nat (s / c_ramification A)) (c_exp A),
      map_coefficients (ps_subst_xpow (Z.to_nat (s / c_ramification A))) (c_tail A)).
Proof.
  intros Hr Hs [k Hk] Hne. unfold cgs_inflate, cgs_ramification.
  destruct (Z.eqb_spec s (c_ramification A)); [contradiction|].
  destruct (Z.eqb_spec (c_ramification A) 0); [lia|].
  destruct (Z.leb_spec s 0); [lia|].
  assert (Hmod : s mod c_ramification A = 0) by (rewrite Hk; apply Z.mod_mul; lia).
  assert (Hdiv : s / c_ramification A = k) by (rewrite Hk; apply Z.div_mul; lia).
  rewrite Hmod, Hdiv. cbn [Z.eqb andb].
  destruct (Z.ltb_spec 0 k); [reflexivity|nia].
Qed.

Lemma norm_singleton_zeros (a : Qc) (l : poly) :
  a <> 0%Qc -> forallb cis_zero l = true -> norm (a :: l) = [a].
Proof.
  intros Ha Hl. rewrite norm_cons. cbn [forallb].
  change (cis_zero a) with (Qc_is_zero a).
  rewrite (proj2 (Qc_is_zero_false a) Ha). cbn [andb].
  rewrite (proj2 (norm_nil_iff l) Hl). reflexivity.
Qed.

Lemma repeat_zero_all (k : nat) : forallb cis_zero (repeat (czero : Qc) k ++ []) = true.
Proof. induction k; [reflexivity|]. simpl. exact IHk. Qed.

Lemma subst_xpow_one (q : nat) : subst_xpow q [1%Qc] = [1%Qc].
Proof.
  unfold subst_xpow. cbn [stretch]. apply norm_singleton_zeros; [discriminate|].
  apply repeat_zero_all.
Qed.

Lemma subst_xpow_nil (q : nat) : subst_xpow q (@nil Qc) = [].
Proof. reflexivity. Qed.

Lemma inflate_one (s : Z) : 0 < s -> cgs_inflate cgs_one s = Ok ([], [ps_one]).
Proof.
  intros Hs. destruct (Z.eq_dec s 1) as [->|Hne]; [reflexivity|].
  rewrite inflate_quo; try (simpl; lia); [|apply Z.divide_1_l].
  cbn [c_exp c_tail cgs_one c_ramification]. rewrite subst_xpow_nil.
  unfold map_coefficients. cbn [map ps_is_zero ps_one ps_poly is_zero_poly].
  unfold ps_subst_xpow. cbn [ps_poly ps_prec eprec_mul option_map].
  rewrite subst_xpow_one. reflexivity.
Qed.

Lemma inflate_zero (s : Z) : 0 < s -> cgs_inflate cgs_zero s = Ok ([], []).
Proof.
  intros Hs. destruct (Z.eq_dec s 1) as [->|Hne]; [reflexivity|].
  rewrite inflate_quo; try (simpl; lia); [|apply Z.divide_1_l]. reflexivity.
Qed.

Lemma lcm_1_r_pos (r : Z) : 0 < r -> Z.lcm r 1 = r.
Proof. intros. rewrite Z.lcm_1_r. lia. Qed.

Lemma lcm_1_l_pos (r : Z) : 0 < r -> Z.lcm 1 r = r.
Proof. intros. rewrite Z.lcm_1_l. lia. Qed.

(** *** Multiplicative unit and zero of the continuous monoid *)

Lemma cgs_eq_refl (A : ContinuousGeneralizedSeries) : cgs_eq A A = true.
Proof.
  unfold cgs_eq. rewrite Z.eqb_refl, poly_eqb_refl. cbn [andb].
  apply list_eqb_refl. intros c. apply poly_eqb_refl.
Qed.

Lemma cgs_mul_one_r (A : ContinuousGeneralizedSeries) :
  cgs_wf A -> cgs_mul A cgs_one = Ok A.
Proof.
  intros Hw. pose proof Hw as [Hr HE HT _ _ _]. unfold cgs_mul, cgs_ramification.
  change (c_ramification cgs_one) with 1. rewrite lcm_1_r_pos by exact Hr.
  rewrite inflate_same, inflate_one by exact Hr. cbn [bind fst snd].
  rewrite tail_mul_one_r, poly_add_zero_r by assumption.
  apply cgs_init_fix. exact Hw.
Qed.

Lemma cgs_mul_zero_r (A : ContinuousGeneralizedSeries) :
  cgs_wf A -> cgs_mul A cgs_zero = Ok cgs_zero.
Proof.
  intros [Hr HE HT _ _ _]. unfold cgs_mul, cgs_ramification.
  change (c_ramification cgs_zero) with 1. rewrite lcm_1_r_pos by exact Hr.
  rewrite inflate_same, inflate_zero by exact Hr. cbn [bind fst snd].
  rewrite tail_mul_zero_r. unfold cgs_init.
  destruct (Z.leb_spec (c_ramification A) 0); [lia|reflexivity].
Qed.

Lemma cgs_add_zero_l (A : ContinuousGeneralizedSeries) : cgs_add cgs_zero A = Ok A.
Proof. reflexivity. Qed.

(** ** Exponential part and tail *)

(** *** The exponential part and the tail of a series *)

Lemma rescaled_one (q : nat) : rescaled q [1%Qc] = [1%Qc].
Proof.
  unfold rescaled, exponents. simpl.
  replace (Nat.div 0 q) with 0%nat by (destruct q; reflexivity).
  reflexivity.
Qed.

Lemma exponent_denominator_0 (r : Z) : 0 < r -> exponent_denominator r 0 = 1.
Proof.
  intros Hr. rewrite exponent_denominator_eq by exact Hr.
  simpl Z.of_nat. rewrite Z.gcd_0_l, Z.abs_eq by lia. apply Z.div_same. lia.
Qed.

Lemma new_ramification_one (E : poly) (r : Z) :
  0 < r ->
  new_ramification E [ps_one] r = lcm_list (map (exponent_denominator r) (exponents E)).
Proof.
  intros Hr. rewrite new_ramification_unfold. cbv zeta.
  set (n0 := lcm_list _).
  assert (Hn0 : 0 < n0) by apply lcm_denominators_pos.
  destruct (n0 <? r); [|reflexivity].
  change (coefficients [ps_one]) with [ps_one].
  unfold tail_fold. cbn [fold_left]. change (ps_exponents ps_one) with [O].
  cbn [map]. rewrite exponent_denominator_0 by exact Hr.
  unfold lcm_list. cbn [fold_left].
  rewrite Z.lcm_1_l, Z.lcm_1_r, !Z.abs_eq by lia. reflexivity.
Qed.

Lemma valuation_step_zero (r : Z) (E : poly) (p : tpoly) :
  0 < r -> (exists c, In c p /\ ps_coeff c 0 <> 0%Qc) ->
  valuation_step r E p = Ok (E, p).
Proof.
  intros Hr Hc. unfold valuation_step. rewrite alpha_zero by assumption. reflexivity.
Qed.

Lemma one_has_constant : exists c, In c [ps_one] /\ ps_coeff c 0 <> 0%Qc.
Proof. exists ps_one. split; [simpl; auto|discriminate]. Qed.

Lemma tail_ok_one : tail_ok [ps_one].
Proof. split; [reflexivity|apply one_has_constant]. Qed.

Lemma exponential_part_spec (A : ContinuousGeneralizedSeries) :
  cgs_wf A ->
  exists X, cgs_exponential_part A = Ok X
    /\ c_ramification X
       = lcm_list (map (exponent_denominator (c_ramification A)) (exponents (c_exp A)))
    /\ c_tail X = [ps_one]
    /\ cgs_inflate X (c_ramification A) = Ok (c_exp A, [ps_one]).
Proof.
  intros [Hr HE _ _ _ _]. destruct A as [r E T]. cbn [c_ramification c_exp c_tail] in *.
  unfold cgs_exponential_part, cgs_ramification. cbn [c_ramification c_exp].
  rewrite cgs_init_steps; [|exact Hr|discriminate].
  change (tail_ring [ps_one]) with [ps_one]. rewrite HE.
  rewrite valuation_step_zero; [|exact Hr|apply one_has_constant].
  cbn [bind fst snd]. eexists. split; [reflexivity|].
  unfold ramification_step.
  pose proof (new_ramification_one E r Hr) as Hn1.
  destruct (Z.eqb_spec (new_ramification E [ps_one] r) r) as [Hn|Hn].
  - cbn [c_ramification c_tail]. split; [congruence|]. split; [reflexivity|].
    apply (inflate_same (CGS r E [ps_one])).
  - destruct (new_ramification_quo E [ps_one] r Hr Hn) as [Hq [Hrn [HdE _]]].
    cbn [c_ramification c_tail]. split; [exact Hn1|].
    assert (Ht : norm (map (ps_rescaled (Z.to_nat (r / new_ramification E [ps_one] r))) [ps_one])
                 = [ps_one]).
    { cbn [map]. unfold ps_rescaled. cbn [ps_poly ps_one]. rewrite rescaled_one. reflexivity. }
    rewrite Ht. split; [reflexivity|].
    rewrite inflate_quo; cbn [c_ramification c_exp c_tail].
    + rewrite subst_xpow_rescaled by assumption.
      unfold map_coefficients. cbn [map ps_is_zero ps_one ps_poly is_zero_poly].
      unfold ps_subst_xpow. cbn [ps_poly ps_prec eprec_mul option_map].
      rewrite subst_xpow_one. reflexivity.
    + apply new_ramification_pos.
    + exact Hr.
    + apply new_ramification_divides. exact Hr.
    + congruence.
Qed.

Lemma erase_prec_wf (c : pseries) : ps_wf c -> ps_wf (erase_prec c).
Proof. intros [H _]. split; [exact H|]. simpl. congruence. Qed.

Lemma erase_wf (r : Z) (E : poly) (T : tpoly) :
  cgs_wf (CGS r E T) -> T <> [] -> cgs_wf (CGS r E (map erase_prec T)).
Proof.
  intros [Hr HE HT Hz Hv Hm] Hne. cbn [c_ramification c_exp c_tail] in *.
  destruct (tail_ok_map erase_prec T HT) as [H1 H2].
  - intros. apply erase_prec_wf. assumption.
  - reflexivity.
  - apply Hv. exact Hne.
  - apply core_wf; auto.
    apply (new_ramification_stable E T r); auto.
    + intros m. reflexivity.
    + intros m. apply tail_fits_map; [reflexivity|]. intros c _. reflexivity.
Qed.

Lemma tail_part_spec (A : ContinuousGeneralizedSeries) :
  cgs_wf A -> c_tail A <> [] ->
  exists Y U, cgs_tail A = Ok Y
    /\ c_ramification Y = new_ramification [] (c_tail A) (c_ramification A)
    /\ cgs_inflate Y (c_ramification A) = Ok ([], U)
    /\ (U = c_tail A \/ U = map erase_prec (c_tail A)).
Proof.
  intros [Hr HE HT Hz Hv Hm] Hne. destruct A as [r E T].
  cbn [c_ramification c_exp c_tail] in *.
  unfold cgs_tail, cgs_ramification. cbn [c_ramification c_tail].
  rewrite cgs_init_steps; [|exact Hr|rewrite HT; exact Hne].
  rewrite HT. change (norm (@nil Qc)) with (@nil Qc).
  rewrite valuation_step_zero; [|exact Hr|apply Hv; exact Hne].
  cbn [bind fst snd]. unfold ramification_step.
  assert (Hok : tail_ok T) by (split; [exact HT|apply Hv; exact Hne]).
  destruct (Z.eqb_spec (new_ramification [] T r) r) as [Hn|Hn].
  - eexists _, T. split; [reflexivity|]. cbn [c_ramification].
    split; [congruence|]. split; [|auto].
    apply (inflate_same (CGS r [] T)).
  - destruct (new_ramification_quo [] T r Hr Hn) as [Hq [Hrn [_ Hd]]].
    destruct (rescale_ok [] T r Hr Hok Hn) as [H1 [H2 H3]].
    set (q := Z.to_nat (r / new_ramification [] T r)) in *.
    eexists _, (map erase_prec T). split; [reflexivity|]. cbn [c_ramification].
    split; [reflexivity|]. split; [|auto].
    rewrite inflate_quo; cbn [c_ramification c_exp c_tail].
    + fold q. rewrite H1, rescaled_nil, subst_xpow_nil. f_equal. f_equal.
      destruct (tail_ring_fix_inv T HT) as [Hnorm Hwf].
      unfold map_coefficients. rewrite map_map.
      rewrite (map_ext_in _ erase_prec).
      * rewrite norm_map by reflexivity. rewrite Hnorm. reflexivity.
      * intros c Hc.
        assert (Hdc : divides_exponents q (ps_poly c)).
        { destruct (ps_is_zero c) eqn:Z.
          - unfold ps_is_zero in Z. destruct (ps_poly c); [|discriminate]. intros e [].
          - apply Hd. apply In_coefficients. auto. }
        rewrite ps_rescaled_zero by (apply Hwf; exact Hc).
        destruct (ps_is_zero c) eqn:Z.
        -- unfold ps_is_zero in Z. unfold erase_prec.
           destruct (ps_poly c); [reflexivity|discriminate].
        -- unfold ps_subst_xpow, ps_rescaled, erase_prec. cbn [ps_poly ps_prec eprec_mul option_map].
           rewrite subst_xpow_rescaled; auto. apply Hwf. exact Hc.
    + apply new_ramification_pos.
    + exact Hr.
    + apply new_ramification_divides. exact Hr.
    + congruence.
Qed.

Lemma lcm_divide_iff (a b m : Z) : (Z.lcm a b | m) <-> (a | m) /\ (b | m).
Proof.
  split.
  - intros H. split; (eapply Z.divide_trans; [|exact H]);
      [apply Z.divide_lcm_l|apply Z.divide_lcm_r].
  - intros [H1 H2]. apply Z.lcm_least; assumption.
Qed.

Lemma fits_multiple (r : Z) (es : list nat) (m : Z) : (r | m) -> fits r es m.
Proof. intros H e _. apply Z.divide_mul_r. exact H. Qed.

(** The two parts of a series are written with ramifications whose lcm is
    the ramification of the series. *)
Lemma parts_lcm (r : Z) (E : poly) (T : tpoly) :
  0 < r -> new_ramification E T r = r ->
  Z.lcm (lcm_list (map (exponent_denominator r) (exponents E)))
        (new_ramification [] T r) = r.
Proof.
  intros Hr Hm.
  set (n0 := lcm_list (map (exponent_denominator r) (exponents E))).
  assert (Hn0 : 0 < n0) by apply lcm_denominators_pos.
  pose proof (new_ramification_pos [] T r) as HnY.
  apply same_multiples; [|exact Hr|].
  { pose proof (Z.lcm_nonneg n0 (new_ramification [] T r)).
    destruct (Z.eq_dec (Z.lcm n0 (new_ramification [] T r)) 0) as [E0|E0]; [|lia].
    apply Z.lcm_eq_0 in E0. lia. }
  intros m. rewrite lcm_divide_iff.
  assert (HY : (new_ramification [] T r | m) <-> tail_fits r (coefficients T) m \/ (r | m)).
  { rewrite new_ramification_unfold. cbv zeta.
    change (lcm_list (map (exponent_denominator r) (exponents (@nil Qc)))) with 1.
    destruct (Z.ltb_spec 1 r) as [H1|H1].
    - rewrite tail_fold_divide by exact Hr. split.
      + tauto.
      + intros [H|H]; (split; [apply Z.divide_1_l|]); [exact H|].
        intros c _. apply fits_multiple. exact H.
    - assert (r = 1) by lia. subst r. split; [intros _; right|intros _]; apply Z.divide_1_l. }
  assert (HX : (n0 | m) <-> fits r (exponents E) m)
    by (apply lcm_denominators_divide; exact Hr).
  assert (HR : (r | m) <-> fits r (exponents E) m /\ (tail_fits r (coefficients T) m \/ (r | m))).
  { rewrite new_ramification_unfold in Hm. cbv zeta in Hm. fold n0 in Hm.
    destruct (Z.ltb_spec n0 r) as [H1|H1].
    - rewrite <- Hm at 1. rewrite tail_fold_divide by exact Hr. rewrite HX.
      split; [tauto|]. intros [H2 [H3|H3]]; [tauto|].
      split; [exact H2|]. intros c _. apply fits_multiple. exact H3.
    - rewrite <- Hm at 1. rewrite HX. split; [|tauto].
      intros H. split; [exact H|]. right. rewrite <- Hm. apply HX. exact H. }
  rewrite HX, HY. symmetry. exact HR.
Qed.

Lemma ps_eqb_erase (c : pseries) : ps_eqb (erase_prec c) c = true.
Proof. unfold ps_eqb, erase_prec. cbn [ps_poly ps_prec eprec_min]. apply poly_eqb_refl. Qed.

Lemma tpoly_eqb_erase (T : tpoly) : tpoly_eqb (map erase_prec T) T = true.
Proof.
  unfold tpoly_eqb. induction T as [|c T IH]; [reflexivity|].
  cbn [map list_eqb]. rewrite ps_eqb_erase, IH. reflexivity.
Qed.

Lemma tpoly_eqb_refl (T : tpoly) : tpoly_eqb T T = true.
Proof. apply list_eqb_refl. intros c. apply poly_eqb_refl. Qed.

(** The product of the two parts of a well-formed series. *)
Lemma parts_product (A : ContinuousGeneralizedSeries) :
  cgs_wf A ->
  exists X Y P,
    cgs_exponential_part A = Ok X /\ cgs_tail A = Ok Y /\ cgs_mul X Y = Ok P
    /\ c_ramification P = c_ramification A
    /\ c_exp P = c_exp A
    /\ map ps_poly (c_tail P) = map ps_poly (c_tail A)
    /\ cgs_eq P A = true.
Proof.
  intros Hw. destruct (c_tail A) as [|c0 T0] eqn:Et.
  - pose proof (wf_zero A Hw Et) as ->.
    exists cgs_one, cgs_zero, cgs_zero.
    repeat split; reflexivity.
  - assert (Hne : c_tail A <> []) by congruence. rewrite <- Et.
    destruct (exponential_part_spec A Hw) as [X [HX [HrX [HtX HiX]]]].
    destruct (tail_part_spec A Hw Hne) as [Y [U [HY [HrY [HiY HU]]]]].
    pose proof Hw as [Hr HE HT Hz Hv Hm].
    assert (HwU : cgs_wf (CGS (c_ramification A) (c_exp A) U)).
    { destruct HU as [->| ->].
      - destruct A; exact Hw.
      - apply erase_wf; [destruct A; exact Hw|exact Hne]. }
    exists X, Y, (CGS (c_ramification A) (c_exp A) U).
    split; [exact HX|]. split; [exact HY|]. split.
    + unfold cgs_mul, cgs_ramification. rewrite HrX, HrY.
      rewrite parts_lcm by assumption. rewrite HiX, HiY. cbn [bind fst snd].
      rewrite tail_mul_one_l by (apply (wf_tail _ HwU)).
      rewrite poly_add_zero_r by exact HE.
      apply (cgs_init_fix _ HwU).
    + cbn [c_ramification c_exp c_tail]. split; [reflexivity|]. split; [reflexivity|].
      split.
      * destruct HU as [->| ->]; [reflexivity|]. rewrite map_map. reflexivity.
      * unfold cgs_eq. cbn [c_ramification c_exp c_tail].
        rewrite Z.eqb_refl, poly_eqb_refl. cbn [andb].
        destruct HU as [->| ->]; [apply tpoly_eqb_refl|apply tpoly_eqb_erase].
Qed.

(** ** The discrete constructor *)

Lemma eprec_min_list_le (l : list eprec) (n x : nat) :
  eprec_min_list l = Some n -> In (Some x) l -> (n <= x)%nat.
Proof.
  revert n. induction l as [|a l IH]; intros n Hn Hx; [destruct Hx|].
  simpl in Hn. destruct Hx as [->|Hx].
  - destruct (eprec_min_list l); simpl in Hn; injection Hn as <-; lia.
  - destruct (eprec_min_list l) as [m|] eqn:E.
    + specialize (IH m eq_refl Hx). destruct a; simpl in Hn; injection Hn as <-; lia.
    + exfalso. clear -E Hx. induction l as [|b l IH]; [destruct Hx|].
      simpl in E. destruct Hx as [->|Hx].
      * destruct (eprec_min_list l); discriminate.
      * destruct b, (eprec_min_list l); try discriminate. auto.
Qed.

(** *** The discrete constructor *)

Lemma monic_nonzero (p : tpoly) : tail_nonzero p -> tail_nonzero (make_monic_tail p).
Proof.
  intros Hp. pose proof (leading_first_coefficient p Hp) as Hk.
  unfold make_monic_tail.
  set (k := (/ ps_first_coefficient (leading_coefficient p))%Qc).
  assert (Hk' : k <> 0%Qc).
  { unfold k. intros Ek. pose proof (Qcmult_inv_r _ Hk) as Hi.
    rewrite Ek, Qcmult_0_r in Hi. discriminate. }
  destruct (tail_nonzero_map (ps_scale k) p Hp) as [H1 H2].
  - intros. apply ps_scale_wf.
  - intros. apply ps_scale_zero; auto.
  - rewrite H1. exact H2.
Qed.

Lemma rescale_nonzero (q : nat) (p : tpoly) :
  tail_nonzero p -> tail_nonzero (norm (map (ps_rescaled q) p)).
Proof.
  intros Hp. destruct (tail_nonzero_map (ps_rescaled q) p Hp) as [H1 H2].
  - intros. apply ps_rescaled_wf.
  - intros. apply ps_rescaled_zero. assumption.
  - rewrite H1. exact H2.
Qed.

Lemma floordiv_nonzero (k : nat) (p : tpoly) :
  tail_nonzero p -> eprec_min_list (map ps_valuation p) = Some k ->
  tail_nonzero (map_coefficients (ps_floordiv_xpow k) p).
Proof.
  intros Hp Hk. rewrite map_coefficients_eq. fold (floordiv_step k).
  destruct (tail_nonzero_map (floordiv_step k) p Hp) as [H1 H2].
  - intros. apply floordiv_step_wf. assumption.
  - intros c Hc Hw. apply floordiv_step_zero; [exact Hw|]. intros Hz.
    apply (eprec_min_list_le _ _ _ Hk). apply in_map_iff. exists c. split; [|exact Hc].
    unfold ps_valuation. rewrite Hz. reflexivity.
  - rewrite H1. exact H2.
Qed.

Lemma dgs_zero_wf : dgs_wf dgs_zero.
Proof. split; [simpl; lia|reflexivity]. Qed.

Lemma dgs_init_list_wf gamma ram rho subexp alpha expansion mm A :
  dgs_init_list gamma ram rho subexp alpha expansion mm = Ok A -> dgs_wf A.
Proof.
  unfold dgs_init_list. intros H.
  destruct (Qc_is_zero rho || (ram <=? 0)) eqn:G; [discriminate|].
  apply orb_false_elim in G as [_ G]. apply Z.leb_gt in G.
  set (p0 := match expansion with
             | ExpansionList l => tail_ring _
             | ExpansionTail t => tail_ring t
             end) in *.
  assert (Hp0 : tail_ring p0 = p0) by (unfold p0; destruct expansion; apply tail_ring_idem).
  destruct (is_zero_poly p0) eqn:Z; [injection H as <-; apply dgs_zero_wf|].
  assert (Hn0 : tail_nonzero p0).
  { split; [exact Hp0|]. intros E. rewrite E in Z. discriminate. }
  set (st := match eprec_min_list (map ps_valuation p0) with
             | Some (S d) => _
             | _ => (alpha, p0)
             end) in *.
  assert (Hst : tail_nonzero (snd st)).
  { unfold st. destruct (eprec_min_list (map ps_valuation p0)) as [[|d]|] eqn:Ed;
      try exact Hn0. cbn [snd]. apply floordiv_nonzero; assumption. }
  destruct st as [alpha1 p1]. cbn [snd] in Hst.
  set (st2 := if _ <? ram then _ else _) in *.
  assert (Hst2 : tail_nonzero (snd st2)).
  { unfold st2. destruct (_ <? ram); [|exact Hst]. cbn [snd]. apply rescale_nonzero. exact Hst. }
  destruct st2 as [subexp2 p2]. cbn [snd] in Hst2.
  injection H as <-. split; cbn [d_ramification d_expansion]; [exact G|].
  intros E. exfalso.
  assert (Hf : tail_nonzero (if mm then make_monic_tail p2 else p2))
    by (destruct mm; [apply monic_nonzero|]; exact Hst2).
  destruct Hf as [_ Hf]. contradiction.
Qed.

Lemma dgs_value_wf (A : DiscreteGeneralizedSeries) : dgs_value A -> dgs_wf A.
Proof.
  induction 1 as [p mm A H|gamma ram rho subexp alpha expansion mm A H|A0 mm A _ IH H].
  - unfold dgs_init, scalar_data in H.
    destruct (is_zero_poly (norm p)); eapply dgs_init_list_wf; eauto.
  - eapply dgs_init_list_wf; eauto.
  - unfold dgs_init in H. destruct (_ && _); [discriminate|]. injection H as <-. exact IH.
Qed.

Lemma dgs_value_zero (A : DiscreteGeneralizedSeries) :
  dgs_value A -> dgs_is_zero A = true -> A = dgs_zero.
Proof.
  intros H Hz. apply dgs_value_wf in H. apply (dwf_zero A H).
  unfold dgs_is_zero in Hz. destruct (d_expansion A); [reflexivity|discriminate].
Qed.

(** ** The example series are values *)

Lemma cgs_zero_value : cgs_value cgs_zero.
Proof. apply (cgs_value_new [] [] 1 false). reflexivity. Qed.

Lemma log_series_value : cgs_value log_series.
Proof. apply (cgs_value_new [ps_one; ps_one] [] 1 false). decide_cgs. Qed.

Lemma quadratic_series_value : cgs_value quadratic_series.
Proof. apply (cgs_value_new [quadratic] [] 1 false). decide_cgs. Qed.

Lemma similar_A_value : cgs_value similar_A.
Proof. apply (cgs_value_new [quadratic] [1; 1; 1]%Qc 2 false). decide_cgs. Qed.

Lemma similar_C_value : cgs_value similar_C.
Proof. apply (cgs_value_new [quadratic] [rat (-2) 3; 1%Qc; 1%Qc] 2 false). decide_cgs. Qed.

Lemma truncated_series_value : cgs_value truncated_series.
Proof.
  apply (cgs_value_new [PS [1; 0; 1]%Qc (Some 4%nat)] [0; 1]%Qc 2 false). decide_cgs.
Qed.

Lemma dgs_zero_value : dgs_value dgs_zero.
Proof. apply (dgs_value_scalar [] false). apply dgs_zero_constructed. Qed.

Lemma dgs_one_value : dgs_value dgs_one.
Proof. apply (dgs_value_scalar [1%Qc] false). apply dgs_one_constructed. Qed.

Lemma discrete_A_value : dgs_value discrete_A.
Proof.
  apply (dgs_value_list 0 1 (Z2Qc 2) (SubexpPoly []) 1
           (ExpansionTail [PS [1; 1]%Qc (Some 3%nat)]) false).
  decide_dgs.
Qed.

Lemma discrete_B_value : dgs_value discrete_B.
Proof.
  apply (dgs_value_list 0 1 (Z2Qc 3) (SubexpPoly []) 0
           (ExpansionTail [PS [1%Qc] (Some 3%nat)]) false).
  decide_dgs.
Qed.

(** ** Inversion and the accessors of a continuous series *)

(** The only [ValueError] the continuous constructor raises is the one about
    the ramification. *)
Lemma cgs_init_errors (tail : tail_arg) (exp : list Qc) (r : Z) (mm : bool)
    (e : value_error) :
  e <> ramification_must_be_a_positive_integer ->
  raises (cgs_init tail exp r mm) (ValueError e) = false.
Proof.
  intros He. unfold cgs_init. destruct tail as [A|t]; [reflexivity|].
  destruct (r <=? 0); [destruct e; try reflexivity; congruence|].
  destruct (is_zero_poly _); [reflexivity|].
  destruct (Qc_is_zero _); cbn [bind].
  - destruct (_ =? _); reflexivity.
  - unfold to_exponent, to_ZZ. destruct (in_ZZ _); cbn [bind]; [|reflexivity].
    destruct (_ <? 0); cbn [bind]; [reflexivity|].
    destruct (_ =? _); reflexivity.
Qed.

(** C1 (the code departs from the claim).  The claim: [invert(A)] fails with
    the non-invertible error when the tail of [A] has a nonzero log-degree.
    In the code, [__invert__] tests [has_logarithms()], which returns [None],
    so the branch that raises "generalized series involving logarithms are
    not invertible" is never taken: for no series at all does [invert] raise
    that error, and for [1 + log(x)], whose tail has log-degree 1, the
    inversion of the tail is left to the host, which refuses it. *)
Theorem invert_logarithms_not_rejected :
  (forall A,
     raises (cgs_invert A)
       (ValueError generalized_series_involving_logarithms_are_not_invertible) = false)
  /\ cgs_is_zero log_series = false
  /\ degree (c_tail log_series) = 1
  /\ cgs_invert log_series = Raise HostError.
Proof.
  split; [|repeat split; reflexivity].
  intros A. unfold cgs_invert. destruct (cgs_is_zero A); [reflexivity|].
  cbn [truthy cgs_has_logarithms].
  destruct (tpoly_invert (c_tail A)) as [t|e] eqn:E.
  - cbn [bind]. apply cgs_init_errors. discriminate.
  - unfold tpoly_invert in E.
    destruct (c_tail A) as [|c [|d T]]; try (injection E as <-; reflexivity).
    destruct (ps_is_unit c); [discriminate|]. injection E as <-. reflexivity.
Qed.

(** C2 (the code departs from the claim).  The claim: [hasLogarithms]
    returns True if the log-degree of the tail is greater than 0 and False
    otherwise.  In the code the method returns [None] for every series; for
    [1 + log(x)], of log-degree 1, the answer is [None], which is falsy. *)
Theorem has_logarithms_returns_none :
  (forall A, cgs_has_logarithms A = PyNone)
  /\ degree (c_tail log_series) = 1
  /\ cgs_has_logarithms log_series = PyNone
  /\ truthy (cgs_has_logarithms log_series) = false.
Proof. repeat split; reflexivity. Qed.

(** C3 (the code departs from the claim).  The claim: [hasExponentialPart]
    returns False when the exponential-part polynomial is zero, as for the
    series [1+x+x^2].  In the code the method asks whether the series
    [exponential_part()], whose tail is 1, is the zero series: it answers
    True for every value of the type. *)
Theorem has_exponential_part_always_true (A : ContinuousGeneralizedSeries) :
  cgs_value A -> cgs_has_exponential_part A = Ok true.
Proof.
  intros H. apply cgs_value_wf in H.
  destruct (exponential_part_spec A H) as [X [HX [_ [Ht _]]]].
  unfold cgs_has_exponential_part. rewrite HX. cbn [bind].
  unfold cgs_is_zero. rewrite Ht. reflexivity.
Qed.

Lemma has_exponential_part_quadratic :
  c_exp quadratic_series = [] /\ cgs_has_exponential_part quadratic_series = Ok true.
Proof.
  split; [reflexivity|].
  apply (has_exponential_part_always_true quadratic_series quadratic_series_value).
Defined.

(** ** Addition *)

(** C4.  For all series [A] and [B] of a continuous domain, and all series
    [C] and [D] of a discrete domain: the sum is the second operand when the
    first is zero and the first operand when the second is zero; and when
    both are nonzero and [similar] answers False, the sum raises the
    [ValueError] "can only add generalized series if they are similar". *)
Theorem add_zero_or_dissimilar
    (A B : ContinuousGeneralizedSeries) (C D : DiscreteGeneralizedSeries) :
  cgs_value A -> cgs_value B -> dgs_value C -> dgs_value D ->
  (cgs_is_zero A = true -> cgs_add A B = Ok B)
  /\ (cgs_is_zero B = true -> cgs_add A B = Ok A)
  /\ (cgs_is_zero A = false -> cgs_is_zero B = false -> cgs_similar A B ZZ = Ok false ->
      cgs_add A B = Raise (ValueError can_only_add_generalized_series_if_they_are_similar))
  /\ (dgs_is_zero C = true -> dgs_add C D = Ok D)
  /\ (dgs_is_zero D = true -> dgs_add C D = Ok C)
  /\ (dgs_is_zero C = false -> dgs_is_zero D = false -> dgs_similar C D ZZ = false ->
      dgs_add C D = Raise (ValueError can_only_add_generalized_series_if_they_are_similar)).
Proof.
  intros HA HB HC HD.
  split; [|split; [|split; [|split; [|split]]]].
  - intros Hz. unfold cgs_add. rewrite Hz. reflexivity.
  - intros Hz. unfold cgs_add. destruct (cgs_is_zero A) eqn:Za.
    + rewrite (cgs_value_zero A HA Za), (cgs_value_zero B HB Hz). reflexivity.
    + rewrite Hz. reflexivity.
  - intros Za Zb Hs. unfold cgs_add. rewrite Za, Zb, Hs. reflexivity.
  - intros Hz. unfold dgs_add. rewrite Hz. reflexivity.
  - intros Hz. unfold dgs_add. destruct (dgs_is_zero C) eqn:Zc.
    + rewrite (dgs_value_zero C HC Zc), (dgs_value_zero D HD Hz). reflexivity.
    + rewrite Hz. reflexivity.
  - intros Zc Zd Hs. unfold dgs_add. rewrite Zc, Zd, Hs. reflexivity.
Qed.

Lemma add_zero_or_dissimilar_witness :
  cgs_add cgs_zero similar_C = Ok similar_C
  /\ cgs_add similar_A cgs_zero = Ok similar_A
  /\ cgs_add similar_A similar_C
     = Raise (ValueError can_only_add_generalized_series_if_they_are_similar)
  /\ dgs_add dgs_zero discrete_B = Ok discrete_B
  /\ dgs_add discrete_A dgs_zero = Ok discrete_A
  /\ dgs_add discrete_A discrete_B
     = Raise (ValueError can_only_add_generalized_series_if_they_are_similar).
Proof.
  destruct (add_zero_or_dissimilar cgs_zero similar_C dgs_zero discrete_B
              cgs_zero_value similar_C_value dgs_zero_value discrete_B_value)
    as (H1 & _ & _ & H4 & _ & _).
  destruct (add_zero_or_dissimilar similar_A cgs_zero discrete_A dgs_zero
              similar_A_value cgs_zero_value discrete_A_value dgs_zero_value)
    as (_ & H2 & _ & _ & H5 & _).
  destruct (add_zero_or_dissimilar similar_A similar_C discrete_A discrete_B
              similar_A_value similar_C_value discrete_A_value discrete_B_value)
    as (_ & _ & H3 & _ & _ & H6).
  refine (conj (H1 _) (conj (H2 _) (conj (H3 _ _ _) (conj (H4 _) (conj (H5 _) (H6 _ _ _))))));
    vm_compute; reflexivity.
Defined.

(** ** Shifts *)

(** C5, as stated, fails: the zero series is returned unchanged by a shift by
    -1; the shift quotient asked for a negative shift with [prec + i*gamma < 0]
    (precision 5, shift -1, gamma 7) raises "only nonnegative shifts are
    allowed", not "insufficient precision"; and for the shift 0 and the
    precision -1 it returns the power [x^(-1)]. *)
Lemma shift_of_zero_by_negative :
  dgs_shift dgs_zero (-1) = Ok dgs_zero
  /\ Qc_ltb (Z2Qc 5 + Z2Qc (-1) * Z2Qc 7) 0 = true
  /\ _generalized_series_shift_quotient (Finite 5) (-1) (Z2Qc 7) 1 None 0
     = Raise (ValueError only_nonnegative_shifts_are_allowed)
  /\ Qc_ltb (Z2Qc (-1) + Z2Qc 0 * 1) 0 = true
  /\ _generalized_series_shift_quotient (Finite (-1)) 0 1 1 None 0
     = Ok (InverseOfPower 1).
Proof. split; [reflexivity|]. repeat split; vm_compute; reflexivity. Qed.

(** C5, amended.  For every nonzero discrete series [A] for which the
    comprehension over [xrange(1, max(subexp.degree(), gamma.denominator()))]
    is empty, and every negative [i], [shift(A, i)] raises "only nonnegative
    shifts are allowed"; and for a positive shift [i] and [gamma <> 0], the
    shift quotient raises "insufficient precision" whenever
    [prec + i*gamma < 0]. *)
Theorem shift_failure_modes (A : DiscreteGeneralizedSeries) (i prec shift : Z)
    (gamma rho : Qc) (subexp : option (list Qc * Qc)) (alpha : Qc) :
  (dgs_is_zero A = false ->
   Z.max (degree (d_subexp A)) (denominator (d_gamma A)) <= 1 ->
   i < 0 ->
   dgs_shift A i = Raise (ValueError only_nonnegative_shifts_are_allowed))
  /\ (0 < shift -> gamma <> 0%Qc -> (Z2Qc prec + Z2Qc shift * gamma < 0)%Qc ->
      _generalized_series_shift_quotient (Finite prec) shift gamma rho subexp alpha
      = Raise (ValueError insufficient_precision)).
Proof.
  split.
  - intros Hz Hn Hi. unfold dgs_shift. rewrite Hz.
    unfold after_comprehension.
    destruct (Z.ltb_spec 1 (Z.max (degree (d_subexp A)) (denominator (d_gamma A)))); [lia|].
    unfold _generalized_series_shift_quotient.
    destruct (Z.eqb_spec i 0); [lia|].
    destruct (Z.ltb_spec i 0); [|lia].
    reflexivity.
  - intros Hs Hg Hp. unfold _generalized_series_shift_quotient.
    destruct (Z.eqb_spec shift 0); [lia|].
    destruct (Z.ltb_spec shift 0); [lia|].
    assert (Hg' : Qc_eq_bool gamma 0 = false).
    { destruct (Qc_eq_bool gamma 0) eqn:E; [|reflexivity].
      apply Qc_eq_bool_correct in E. contradiction. }
    rewrite Hg'. cbn [negb].
    apply Qc_ltb_lt in Hp. rewrite Hp. reflexivity.
Qed.

Lemma shift_failure_modes_witness :
  dgs_shift discrete_A (-1) = Raise (ValueError only_nonnegative_shifts_are_allowed)
  /\ _generalized_series_shift_quotient (Finite 3) 1 (Z2Qc (-5)) 1 None 0
     = Raise (ValueError insufficient_precision).
Proof.
  destruct (shift_failure_modes discrete_A (-1) 3 1 (Z2Qc (-5)) 1 None 0) as [H1 H2].
  split.
  - apply H1; [reflexivity|vm_compute; discriminate|lia].
  - apply H2; [lia| |apply Qc_ltb_lt; vm_compute; reflexivity].
    intros E. apply (f_equal this) in E. vm_compute in E. discriminate.
Defined.

(** C9.  For the zero discrete series and every integer [i], negative ones
    included, [shift(i)] returns the zero series unchanged, and raises
    nothing. *)
Theorem shift_zero_series (i : Z) : dgs_shift dgs_zero i = Ok dgs_zero.
Proof. reflexivity. Qed.

(** With a non-empty comprehension the parameter [i] is overwritten: a shift
    by -1 of a series with [gamma = 1/2] is computed as a shift by 1. *)
Remark shift_overwrites_its_argument :
  let A := DGS (rat 1 2) 2 (Z2Qc 2) [] 1 [PS [1; 1]%Qc (Some 3%nat)] in
  dgs_shift A (-1) = dgs_shift A 1
  /\ raises (dgs_shift A (-1)) (ValueError only_nonnegative_shifts_are_allowed) = false.
Proof. split; vm_compute; reflexivity. Qed.

(** ** Exponential part times tail *)

(** C6.  For every continuous series [A], the zero series included, the
    product of the two extracted parts compares equal to [A]:
    [A.exponential_part() * A.tail() == A], where [==] is the [__eq__] of the
    series type.  The product [P] has the ramification of [A], its
    exponential part, and all the coefficients of its tail. *)
Theorem exponential_part_times_tail (A : ContinuousGeneralizedSeries) :
  cgs_value A ->
  exists X Y P,
    cgs_exponential_part A = Ok X /\ cgs_tail A = Ok Y /\ cgs_mul X Y = Ok P
    /\ cgs_eq P A = true
    /\ c_ramification P = c_ramification A
    /\ c_exp P = c_exp A
    /\ map ps_poly (c_tail P) = map ps_poly (c_tail A).
Proof.
  intros H. apply cgs_value_wf in H.
  destruct (parts_product A H) as (X & Y & P & HX & HY & HP & Hr & Hx & Ht & He).
  exists X, Y, P. auto 10.
Qed.

Lemma exponential_part_times_tail_witness :
  exists X Y P,
    cgs_exponential_part truncated_series = Ok X /\ cgs_tail truncated_series = Ok Y
    /\ cgs_mul X Y = Ok P /\ cgs_eq P truncated_series = true
    /\ c_ramification P = c_ramification truncated_series
    /\ c_exp P = c_exp truncated_series
    /\ map ps_poly (c_tail P) = map ps_poly (c_tail truncated_series).
Proof. apply (exponential_part_times_tail truncated_series truncated_series_value). Defined.

(** The product has the ramification, the exponential part and every
    coefficient of the tail of [A]; what may differ is a recorded precision,
    which the constructor drops when [tail()] reduces the ramification and
    which the comparison [==] of the host does not look at. *)
Remark parts_product_precision :
  cgs_exponential_part truncated_series = Ok (CGS 2 [0; 1]%Qc [ps_one])
  /\ cgs_tail truncated_series = Ok (CGS 1 [] [PS [1; 1]%Qc None])
  /\ cgs_mul (CGS 2 [0; 1]%Qc [ps_one]) (CGS 1 [] [PS [1; 1]%Qc None])
     = Ok (CGS 2 [0; 1]%Qc [PS [1; 0; 1]%Qc None])
  /\ cgs_same (CGS 2 [0; 1]%Qc [PS [1; 0; 1]%Qc None]) truncated_series = false
  /\ cgs_eq (CGS 2 [0; 1]%Qc [PS [1; 0; 1]%Qc None]) truncated_series = true.
Proof.
  split; [decide_cgs|]. split; [decide_cgs|]. split; [decide_cgs|].
  split; vm_compute; reflexivity.
Qed.

(** ** Unit and zero *)

Lemma dgs_inflate_lcm_l (A B : DiscreteGeneralizedSeries) :
  0 < d_ramification A -> 0 < d_ramification B ->
  exists a, dgs_inflate A (Z.lcm (d_ramification A) (d_ramification B)) = Ok a.
Proof.
  intros HA HB. unfold dgs_inflate.
  set (r := d_ramification A). set (s := Z.lcm r (d_ramification B)).
  assert (Hs : 0 < s).
  { pose proof (Z.lcm_nonneg r (d_ramification B)).
    destruct (Z.eq_dec s 0) as [E|E]; [apply Z.lcm_eq_0 in E; lia|unfold s; lia]. }
  destruct (Z.divide_lcm_l r (d_ramification B)) as [k Hk]. fold s in Hk.
  destruct (Z.eqb_spec r 0); [lia|].
  destruct (s =? r); [eexists; reflexivity|].
  assert (Hmod : s mod r = 0) by (rewrite Hk; apply Z.mod_mul; lia).
  assert (Hdiv : s / r = k) by (rewrite Hk; apply Z.div_mul; lia).
  rewrite Hmod, Hdiv. cbn [Z.eqb andb].
  destruct (Z.ltb_spec 0 k); [eexists; reflexivity|nia].
Qed.

(** C7 (the code departs from the claim).  The claim: [A*one == A],
    [A*zero == zero] and [zero+A == A] for every series of a domain.  In a
    discrete domain the canonical zero stores [rho = 0], the product
    multiplies the two [rho], and the constructor raises a [ValueError] on
    [rho = 0]: every product with the zero series raises, on either side. *)
Theorem discrete_product_with_zero_raises (A : DiscreteGeneralizedSeries) :
  dgs_value A ->
  dgs_mul A dgs_zero = Raise (ValueError no_message)
  /\ dgs_mul dgs_zero A = Raise (ValueError no_message).
Proof.
  intros H. apply dgs_value_wf in H. destruct H as [Hr _].
  assert (H1 : 0 < d_ramification dgs_zero) by (simpl; lia).
  split; unfold dgs_mul.
  - destruct (dgs_inflate_lcm_l A dgs_zero Hr H1) as [a ->].
    rewrite Z.lcm_comm.
    destruct (dgs_inflate_lcm_l dgs_zero A H1 Hr) as [b ->].
    cbn [bind]. unfold dgs_init, dgs_init_list.
    change (d_rho dgs_zero) with 0%Qc. rewrite Qcmult_0_r. reflexivity.
  - destruct (dgs_inflate_lcm_l dgs_zero A H1 Hr) as [a ->].
    rewrite Z.lcm_comm.
    destruct (dgs_inflate_lcm_l A dgs_zero Hr H1) as [b ->].
    cbn [bind]. unfold dgs_init, dgs_init_list.
    change (d_rho dgs_zero) with 0%Qc. rewrite Qcmult_0_l. reflexivity.
Qed.

Lemma discrete_product_with_zero_witness :
  dgs_mul dgs_one dgs_zero = Raise (ValueError no_message)
  /\ dgs_mul dgs_zero dgs_one = Raise (ValueError no_message).
Proof. apply (discrete_product_with_zero_raises dgs_one dgs_one_value). Defined.

(** The unit law can fail as well in a discrete domain.  When the constructor
    reduces the ramification it rescales the expansion and keeps the stored
    ramification; the product with one goes through the constructor again,
    which rescales once more: [1 + x^4] at ramification 2 is stored as
    [1 + x^2], and its product with one is [1 + x]. *)
Remark discrete_product_with_one :
  let A := DGS 0 2 1 [] 0 [PS [1; 0; 1]%Qc None] in
  let P := DGS 0 2 1 [] 0 [PS [1; 1]%Qc None] in
  dgs_init (FromList 0%Qc 2 1%Qc (SubexpPoly []) 0%Qc
              (ExpansionTail [PS [1; 0; 0; 0; 1]%Qc None])) false = Ok A
  /\ dgs_mul A dgs_one = Ok P
  /\ dgs_eq P A = false.
Proof.
  cbv zeta. split; [decide_dgs|]. split; [decide_dgs|]. vm_compute; reflexivity.
Qed.

(** In a continuous domain the three laws hold, with equality of the stored
    fields: [A*one] is [A], [A*zero] is [zero], and [zero+A] is [A]. *)
Theorem continuous_unit_and_zero (A : ContinuousGeneralizedSeries) :
  cgs_value A ->
  cgs_mul A cgs_one = Ok A /\ cgs_mul A cgs_zero = Ok cgs_zero /\ cgs_add cgs_zero A = Ok A.
Proof.
  intros H. apply cgs_value_wf in H.
  split; [apply cgs_mul_one_r; exact H|].
  split; [apply cgs_mul_zero_r; exact H|reflexivity].
Qed.

Lemma continuous_unit_and_zero_witness :
  cgs_mul truncated_series cgs_one = Ok truncated_series
  /\ cgs_mul truncated_series cgs_zero = Ok cgs_zero
  /\ cgs_add cgs_zero truncated_series = Ok truncated_series.
Proof. apply (continuous_unit_and_zero truncated_series truncated_series_value). Defined.

(** ** Substitution *)

(** C8.  The series built from the tail [1+x+x^2], the exponential part 0
    and the ramification 3 has ramification 3, and its [substitute(3)] is the
    series of ramification 1 whose tail is [1+x+x^2]. *)
Theorem substitute_scenario :
  exists A B,
    cgs_init (FromTail [quadratic]) [] 3 false = Ok A
    /\ cgs_ramification A = 3
    /\ cgs_substitute A (Rational (Z2Qc 3)) = Ok B
    /\ cgs_ramification B = 1
    /\ c_tail B = [quadratic].
Proof.
  exists (CGS 3 [] [quadratic]), (CGS 1 [] [quadratic]).
  split; [decide_cgs|]. split; [reflexivity|]. split; [decide_cgs|].
  split; reflexivity.
Qed.

(** C10.  For every continuous series [A], [A.substitute(1)] returns [A]
    itself. *)
Theorem substitute_one_identity (A : ContinuousGeneralizedSeries) :
  cgs_substitute A (Rational 1%Qc) = Ok A.
Proof. reflexivity. Qed.

(** * Further properties of the code *)

(** ** The continuous constructor as a whole *)

Lemma cgs_init_total (tail : list pseries) (exp : list Qc) (r : Z) (mm : bool) :
  0 < r -> exists A, cgs_init (FromTail tail) exp r mm = Ok A.
Proof.
  intros Hr.
  destruct (tail_ring tail) as [|c p] eqn:Et.
  - exists cgs_zero. unfold cgs_init. rewrite Et.
    destruct (Z.leb_spec r 0); [lia|reflexivity].
  - rewrite cgs_init_steps; [|exact Hr|rewrite Et; congruence].
    destruct (valuation_step_ok r (norm exp) (tail_ring tail) Hr) as [E1 [p1 [Hs _]]].
    + apply norm_idem.
    + apply tail_ring_idem.
    + rewrite Et. congruence.
    + rewrite Hs. cbn [bind]. eexists. reflexivity.
Qed.

Lemma ramification_step_divides (r : Z) (E : poly) (p : tpoly) (mm : bool) :
  0 < r -> (c_ramification (ramification_step r E p mm) | r).
Proof.
  intros Hr. unfold ramification_step.
  destruct (Z.eqb_spec (new_ramification E p r) r) as [Hn|Hn]; cbn [c_ramification].
  - apply Z.divide_refl.
  - apply new_ramification_divides. exact Hr.
Qed.

Lemma cgs_init_divides (tail : list pseries) (exp : list Qc) (r : Z) (mm : bool)
    (A : ContinuousGeneralizedSeries) :
  0 < r -> cgs_init (FromTail tail) exp r mm = Ok A -> (c_ramification A | r).
Proof.
  intros Hr H.
  destruct (tail_ring tail) as [|c p] eqn:Et.
  - unfold cgs_init in H. rewrite Et in H.
    destruct (Z.leb_spec r 0); [lia|]. injection H as <-. apply Z.divide_1_l.
  - rewrite cgs_init_steps in H; [|exact Hr|rewrite Et; congruence].
    destruct (valuation_step r (norm exp) (tail_ring tail)) as [[E1 p1]|e]; [|discriminate].
    cbn [bind fst snd] in H. injection H as <-.
    apply ramification_step_divides. exact Hr.
Qed.

Lemma cgs_init_zero_iff (tail : list pseries) (exp : list Qc) (r : Z) (mm : bool)
    (A : ContinuousGeneralizedSeries) :
  cgs_init (FromTail tail) exp r mm = Ok A ->
  (c_tail A = [] <-> tail_ring tail = []).
Proof.
  intros H.
  destruct (Z.leb_spec r 0) as [Hr|Hr].
  { unfold cgs_init in H. destruct (Z.leb_spec r 0); [discriminate|lia]. }
  destruct (tail_ring tail) as [|c p] eqn:Et.
  - unfold cgs_init in H. rewrite Et in H.
    destruct (Z.leb_spec r 0); [lia|]. injection H as <-. split; reflexivity.
  - pose proof (cgs_init_new_wf _ _ _ _ _ H) as Hw.
    rewrite cgs_init_steps in H; [|exact Hr|rewrite Et; congruence].
    destruct (valuation_step_ok r (norm exp) (tail_ring tail) Hr) as [E1 [p1 [Hs [HE1 Hp1]]]].
    + apply norm_idem.
    + apply tail_ring_idem.
    + rewrite Et. congruence.
    + rewrite Hs in H. cbn [bind fst snd] in H. injection H as H.
      split; [|discriminate]. intros Hz. exfalso.
      assert (Hne : c_tail A <> []).
      { rewrite <- H. unfold ramification_step.
        assert (Hmm : forall q, tail_ok q -> (if mm then make_monic_tail q else q) <> []).
        { intros q Hq. destruct mm.
          - apply tail_ok_nonzero in Hq. apply monic_nonzero in Hq. apply Hq.
          - apply tail_ok_nonempty. exact Hq. }
        destruct (Z.eqb_spec (new_ramification E1 p1 r) r) as [Hn|Hn]; cbn [c_tail].
        - apply Hmm. exact Hp1.
        - destruct (rescale_ok E1 p1 r Hr Hp1 Hn) as [H1 [H2 H3]].
          rewrite H1. apply Hmm. exact H2. }
      contradiction.
Qed.

(** The constructor from data.  A ramification that is not positive raises
    the [ValueError] about the ramification.  With a positive ramification
    the constructor never fails, whatever tail and exponential part it is
    given; the ramification of the result is positive and divides the given
    one; the result is zero exactly when the tail is zero in the ring of
    tails, and is then the canonical zero; and in a nonzero result some
    coefficient of the tail has a nonzero constant term, so that no power of
    [x] is left in the tail. *)
Theorem constructor_normal_form (tail : list pseries) (exp : list Qc) (r : Z)
    (make_monic : bool) :
  (r <= 0 ->
   cgs_init (FromTail tail) exp r make_monic
   = Raise (ValueError ramification_must_be_a_positive_integer))
  /\ (0 < r ->
      exists A, cgs_init (FromTail tail) exp r make_monic = Ok A
        /\ 0 < c_ramification A /\ (c_ramification A | r)
        /\ (cgs_is_zero A = true <-> tail_ring tail = [])
        /\ (cgs_is_zero A = true -> A = cgs_zero)
        /\ (cgs_is_zero A = false -> exists c, In c (c_tail A) /\ ps_coeff c 0 <> 0%Qc)).
Proof.
  split.
  - intros Hr. unfold cgs_init. destruct (Z.leb_spec r 0); [reflexivity|lia].
  - intros Hr. destruct (cgs_init_total tail exp r make_monic Hr) as [A HA].
    exists A. split; [exact HA|].
    pose proof (cgs_init_new_wf _ _ _ _ _ HA) as Hw.
    split; [apply (wf_ram A Hw)|].
    split; [apply (cgs_init_divides _ _ _ _ _ Hr HA)|].
    assert (Hz : cgs_is_zero A = true <-> c_tail A = []).
    { unfold cgs_is_zero. destruct (c_tail A); cbn [is_zero_poly]; split; intros;
        try reflexivity; discriminate. }
    split; [rewrite Hz; apply (cgs_init_zero_iff _ _ _ _ _ HA)|].
    split.
    + intros H. apply (wf_zero A Hw). apply Hz. exact H.
    + intros H. apply (wf_val A Hw). intros E. apply Hz in E. congruence.
Qed.

Lemma constructor_normal_form_witness :
  exists A, cgs_init (FromTail [PS [0; 0; 1; 0; 1]%Qc (Some 6%nat)]) [] 4 false = Ok A
    /\ 0 < c_ramification A /\ (c_ramification A | 4)
    /\ (cgs_is_zero A = true <-> tail_ring [PS [0; 0; 1; 0; 1]%Qc (Some 6%nat)] = [])
    /\ (cgs_is_zero A = true -> A = cgs_zero)
    /\ (cgs_is_zero A = false -> exists c, In c (c_tail A) /\ ps_coeff c 0 <> 0%Qc).
Proof.
  apply (proj2 (constructor_normal_form [PS [0; 0; 1; 0; 1]%Qc (Some 6%nat)] [] 4 false)).
  lia.
Defined.

(** The constructor is idempotent on the values of the type: applied to the
    stored tail, exponential part and ramification of a series it returns
    that series, and so does the copy [G(A)], whatever [exp] and
    [ramification] are passed along. *)
Theorem constructor_round_trip (A : ContinuousGeneralizedSeries) (exp : list Qc) (r : Z) :
  cgs_value A ->
  cgs_init (FromTail (c_tail A)) (c_exp A) (c_ramification A) false = Ok A
  /\ cgs_init (FromSeries A) exp r false = Ok A.
Proof.
  intros H. apply cgs_value_wf in H. split.
  - apply cgs_init_fix. exact H.
  - unfold cgs_init. rewrite (wf_exp A H), (wf_tail A H). cbn [andb].
    destruct A; reflexivity.
Qed.

Lemma constructor_round_trip_witness :
  cgs_init (FromTail (c_tail truncated_series)) (c_exp truncated_series)
    (c_ramification truncated_series) false = Ok truncated_series
  /\ cgs_init (FromSeries truncated_series) [1%Qc] 7 false = Ok truncated_series.
Proof. apply (constructor_round_trip truncated_series [1%Qc] 7 truncated_series_value). Defined.

(** The stored ramification is minimal, as the docstring of [ramification]
    says: when [m] clears the denominators of all the exponents [e/r] of the
    exponential part and of the coefficients of the tail, then the
    ramification [r] divides [m]. *)
Theorem ramification_is_minimal (A : ContinuousGeneralizedSeries) (m : Z) :
  cgs_value A ->
  (forall e, In e (exponents (c_exp A)) -> (c_ramification A | Z.of_nat e * m)) ->
  (forall c e, In c (c_tail A) -> In e (ps_exponents c) ->
     (c_ramification A | Z.of_nat e * m)) ->
  (c_ramification A | m).
Proof.
  intros H HE HT. apply cgs_value_wf in H.
  pose proof (wf_ram A H) as Hr. pose proof (wf_min A H) as Hm.
  set (r := c_ramification A) in *.
  rewrite new_ramification_unfold in Hm. cbv zeta in Hm.
  destruct (Z.ltb_spec (lcm_list (map (exponent_denominator r) (exponents (c_exp A)))) r)
    as [Hlt|Hge].
  - rewrite <- Hm. apply tail_fold_divide; [exact Hr|]. split.
    + apply lcm_denominators_divide; [exact Hr|]. exact HE.
    + intros c Hc e He. apply (HT c e); [|exact He].
      apply In_coefficients in Hc. apply Hc.
  - rewrite <- Hm. apply lcm_denominators_divide; [exact Hr|]. exact HE.
Qed.

Lemma ramification_is_minimal_witness : (c_ramification truncated_series | 4).
Proof.
  apply (ramification_is_minimal truncated_series 4 truncated_series_value).
  - intros e _. exists (Z.of_nat e * 2). cbn [c_ramification truncated_series]. lia.
  - intros c e _ _. exists (Z.of_nat e * 2). cbn [c_ramification truncated_series]. lia.
Defined.

(** [is_one] answers False for every series, the unit [G(1)] included: it
    asks [has_exponential_part], which answers True for every series. *)
Theorem is_one_never_true (A : ContinuousGeneralizedSeries) :
  cgs_value A -> cgs_is_one A = Ok false.
Proof.
  intros H. apply cgs_value_wf in H.
  destruct (exponential_part_spec A H) as [X [HX [_ [Ht _]]]].
  unfold cgs_is_one, cgs_has_exponential_part. rewrite HX. cbn [bind].
  unfold cgs_is_zero. rewrite Ht. reflexivity.
Qed.

Lemma cgs_one_value : cgs_value cgs_one.
Proof. apply (cgs_value_new [ps_one] [] 1 false). exact cgs_one_constructed. Qed.

Lemma is_one_never_true_witness :
  tpoly_is_one (c_tail cgs_one) = true /\ c_exp cgs_one = [] /\ cgs_is_one cgs_one = Ok false.
Proof.
  split; [reflexivity|]. split; [reflexivity|].
  apply (is_one_never_true cgs_one cgs_one_value).
Defined.

(** ** Negation *)

Lemma ps_neg_scale (c : pseries) : ps_neg c = ps_scale (- (1))%Qc c.
Proof.
  unfold ps_neg, ps_scale.
  rewrite (map_ext Qcopp (Qcmult (- (1))%Qc)); [reflexivity|intros a; ring].
Qed.

Lemma minus_one_nonzero : (- (1))%Qc <> 0%Qc.
Proof. intros E. apply (f_equal this) in E. discriminate. Qed.

Lemma scale_ok (k : Qc) (E : poly) (p : tpoly) (r : Z) :
  k <> 0%Qc -> 0 < r -> tail_ok p -> new_ramification E p r = r ->
  norm (map (ps_scale k) p) = map (ps_scale k) p
  /\ tail_ok (map (ps_scale k) p)
  /\ new_ramification E (map (ps_scale k) p) r = r.
Proof.
  intros Hk' Hr Hp Hn.
  destruct Hp as [Hp Hc0].
  destruct (tail_ok_map (ps_scale k) p Hp) as [H1 H2].
  - intros. apply ps_scale_wf.
  - intros. apply ps_scale_zero; auto.
  - destruct Hc0 as [c [Hc Hc0]]. exists c. split; [exact Hc|].
    destruct (tail_ring_fix_inv p Hp) as [_ Hwf].
    rewrite ps_scale_coeff by auto.
    intros Z. apply Hc0. apply (Qcmult_nonzero k); assumption.
  - split; [exact H1|]. split; [exact H2|].
    destruct (tail_ring_fix_inv p Hp) as [_ Hwf].
    apply (new_ramification_stable E p r); auto.
    + intros m. reflexivity.
    + intros m. apply tail_fits_map.
      * intros c Hc. apply ps_scale_zero; auto.
      * intros c Hc. apply In_coefficients in Hc as [Hc _].
        apply fits_ext. intros e. unfold ps_exponents.
        rewrite ps_scale_eq by auto. cbn [ps_poly]. apply exponents_scale. exact Hk'.
Qed.

Lemma tail_neg_eq (T : tpoly) : neg T = norm (map (ps_scale (- (1))%Qc) T).
Proof.
  unfold neg. apply f_equal. apply map_ext. intros c. apply ps_neg_scale.
Qed.

Lemma ps_scale_scale (k : Qc) (c : pseries) :
  k <> 0%Qc -> (k * k = 1)%Qc -> ps_wf c -> ps_scale k (ps_scale k c) = c.
Proof.
  intros Hk Hkk Hw.
  rewrite (ps_scale_eq k (ps_scale k c)) by (auto; apply ps_scale_wf).
  rewrite (ps_scale_eq k c) by auto. cbn [ps_poly ps_prec].
  destruct c as [p n]. cbn [ps_poly ps_prec]. f_equal.
  rewrite map_map. apply norm_map_id. intros a _.
  rewrite Qcmult_assoc, Hkk. ring.
Qed.

Lemma cgs_neg_spec (A : ContinuousGeneralizedSeries) :
  cgs_wf A ->
  cgs_neg A = Ok (CGS (c_ramification A) (c_exp A) (map (ps_scale (- (1))%Qc) (c_tail A)))
  /\ cgs_wf (CGS (c_ramification A) (c_exp A) (map (ps_scale (- (1))%Qc) (c_tail A))).
Proof.
  intros Hw. unfold cgs_neg, cgs_ramification. rewrite tail_neg_eq.
  destruct (c_tail A) as [|c0 T0] eqn:Et.
  - pose proof (wf_zero A Hw Et) as ->. split; [reflexivity|apply cgs_zero_wf].
  - rewrite <- Et.
    assert (Hok : tail_ok (c_tail A)).
    { split; [apply (wf_tail A Hw)|apply (wf_val A Hw); congruence]. }
    destruct (scale_ok (- (1))%Qc (c_exp A) (c_tail A) (c_ramification A)
                minus_one_nonzero (wf_ram A Hw) Hok (wf_min A Hw)) as [H1 [H2 H3]].
    rewrite H1.
    assert (Hw' : cgs_wf (CGS (c_ramification A) (c_exp A)
                            (map (ps_scale (- (1))%Qc) (c_tail A)))).
    { apply core_wf; auto; [apply (wf_ram A Hw)|apply (wf_exp A Hw)]. }
    split; [|exact Hw'].
    apply (cgs_init_fix _ Hw').
Qed.

Lemma add_raw_map {A : Type} {C : Coeff A} (f : A -> A) (l : list A) :
  add_raw l (map f l) = map (fun x => cadd x (f x)) l.
Proof. induction l as [|a l IH]; [reflexivity|]. simpl. rewrite IH. reflexivity. Qed.

Lemma norm_map_zero {A B : Type} {C : Coeff B} (f : A -> B) (l : list A) :
  (forall a, In a l -> cis_zero (f a) = true) -> norm (map f l) = [].
Proof.
  intros H. apply norm_nil_iff. apply forallb_forall. intros b Hb.
  apply in_map_iff in Hb as [a [<- Ha]]. apply H. exact Ha.
Qed.

Lemma poly_sub_self (E : poly) : norm E = E -> sub E E = [].
Proof.
  intros HE. unfold sub, add, neg.
  rewrite (norm_map Qcopp E), HE.
  - rewrite (add_raw_map Qcopp E). apply norm_map_zero.
    intros a _. apply Qc_is_zero_true. cbn [cadd Qc_Coeff]. ring.
  - intros c _. change (Qc_is_zero (- c) = Qc_is_zero c).
    destruct (Qc_is_zero c) eqn:Z.
    + apply Qc_is_zero_true in Z. subst c. reflexivity.
    + apply Qc_is_zero_false in Z. apply Qc_is_zero_false. intros E0. apply Z.
      rewrite <- (Qcopp_involutive c), E0. reflexivity.
Qed.

Lemma firstn_all_zero (n : nat) (l : poly) :
  forallb cis_zero l = true -> forallb cis_zero (firstn n l) = true.
Proof.
  revert l. induction n as [|n IH]; intros [|a l] H; try reflexivity.
  simpl in *. apply andb_prop in H as [H1 H2]. rewrite H1. apply IH. exact H2.
Qed.

Lemma ps_add_opposite (c : pseries) :
  ps_wf c -> ps_is_zero (ps_add c (ps_scale (- (1))%Qc c)) = true.
Proof.
  intros Hw. rewrite ps_scale_eq by (auto using minus_one_nonzero).
  unfold ps_add, mk_ps, ps_is_zero. cbn [ps_poly ps_prec].
  rewrite (add_raw_map (Qcmult (- (1))%Qc)).
  assert (Hz : forallb cis_zero (map (fun x : Qc => cadd x (- (1) * x)%Qc) (ps_poly c)) = true).
  { apply forallb_forall. intros b Hb. apply in_map_iff in Hb as [a [<- _]].
    apply Qc_is_zero_true. cbn [cadd Qc_Coeff]. ring. }
  assert (Hn : norm (truncate (eprec_min (ps_prec c) (ps_prec c))
                       (map (fun x : Qc => cadd x (- (1) * x)%Qc) (ps_poly c))) = []).
  { apply norm_nil_iff. destruct (eprec_min _ _); cbn [truncate];
      [apply firstn_all_zero|]; exact Hz. }
  rewrite Hn. reflexivity.
Qed.

Lemma tail_add_opposite (T : tpoly) :
  tail_ring T = T -> add T (map (ps_scale (- (1))%Qc) T) = [].
Proof.
  intros HT. destruct (tail_ring_fix_inv T HT) as [_ Hwf].
  unfold add. rewrite (add_raw_map (ps_scale (- (1))%Qc)).
  apply norm_map_zero. intros c Hc. apply ps_add_opposite. apply Hwf. exact Hc.
Qed.

Lemma tail_scale_one (T : tpoly) : tail_ring T = T -> scale ps_one T = T.
Proof.
  intros HT. destruct (tail_ring_fix_inv T HT) as [Hn Hwf].
  unfold scale. rewrite (norm_map_id (cmul ps_one) T); [exact Hn|].
  intros c Hc. apply ps_mul_one_l. apply Hwf. exact Hc.
Qed.

Lemma inflate_to (X : ContinuousGeneralizedSeries) (s : Z) :
  c_ramification X = s -> cgs_inflate X s = Ok (c_exp X, c_tail X).
Proof. intros <-. apply inflate_same. Qed.

Lemma lcm_diag_pos (r : Z) : 0 < r -> Z.lcm r r = r.
Proof. intros H. rewrite Z.lcm_diag. lia. Qed.

(** Negation never fails, negating twice returns the series itself, and the
    sum of a series and its negative, in either order, is the canonical
    zero. *)
Theorem negation_is_an_involution (A : ContinuousGeneralizedSeries) :
  cgs_value A ->
  exists N, cgs_neg A = Ok N /\ cgs_neg N = Ok A /\ cgs_add A N = Ok cgs_zero
            /\ cgs_add N A = Ok cgs_zero.
Proof.
  intros H. apply cgs_value_wf in H.
  destruct (cgs_neg_spec A H) as [HN HwN].
  set (N := CGS (c_ramification A) (c_exp A) (map (ps_scale (- (1))%Qc) (c_tail A))) in *.
  exists N. split; [exact HN|].
  destruct (tail_ring_fix_inv _ (wf_tail A H)) as [Hn Hwf].
  assert (Hback : map (ps_scale (- (1))%Qc) (c_tail N) = c_tail A).
  { unfold N. cbn [c_tail]. rewrite map_map. apply norm_map_id.
    intros c Hc. apply ps_scale_scale; [apply minus_one_nonzero|ring|apply Hwf; exact Hc]. }
  split.
  { destruct (cgs_neg_spec N HwN) as [HNN _]. rewrite HNN.
    rewrite Hback. destruct A; reflexivity. }
  assert (Hcase : c_tail A = [] \/ c_tail A <> []).
  { destruct (c_tail A); [left; reflexivity|right; discriminate]. }
  destruct Hcase as [Et|HtA].
  { pose proof (wf_zero A H Et) as EA. subst N. rewrite EA. split; reflexivity. }
  assert (Hsim : forall X Y, c_ramification X = c_ramification A ->
            c_ramification Y = c_ramification A -> c_exp X = c_exp A ->
            c_exp Y = c_exp A -> cgs_similar X Y ZZ = Ok true).
  { intros X Y HX HY EX EY. unfold cgs_similar, cgs_ramification.
    rewrite HX, HY, lcm_diag_pos by (apply (wf_ram A H)).
    rewrite (inflate_to X), (inflate_to Y) by assumption.
    cbn [bind fst snd]. rewrite EX, EY, poly_sub_self by (apply (wf_exp A H)).
    reflexivity. }
  assert (Hadd : forall X Y, cgs_wf X -> cgs_wf Y ->
            c_ramification X = c_ramification A ->
            c_ramification Y = c_ramification A -> c_exp X = c_exp A ->
            c_exp Y = c_exp A -> c_tail X <> [] -> c_tail Y <> [] ->
            add (c_tail X) (c_tail Y) = [] ->
            cgs_add X Y = Ok cgs_zero).
  { intros X Y WX WY HX HY EX EY NX NY Hsum.
    assert (ZX : cgs_is_zero X = false).
    { unfold cgs_is_zero. destruct (c_tail X); [congruence|reflexivity]. }
    assert (ZY : cgs_is_zero Y = false).
    { unfold cgs_is_zero. destruct (c_tail Y); [congruence|reflexivity]. }
    unfold cgs_add. rewrite ZX, ZY, (Hsim X Y) by assumption. cbn [bind negb].
    unfold cgs_ramification.
    rewrite HX, HY, lcm_diag_pos by (apply (wf_ram A H)).
    rewrite (inflate_to X), (inflate_to Y) by assumption.
    cbn [bind fst snd]. rewrite EX, EY, poly_sub_self by (apply (wf_exp A H)).
    cbn [scale map norm poly_to_ZZ bind Z.ltb Z.compare Z.to_nat].
    change (ps_xpow 0) with ps_one.
    rewrite tail_scale_one by (apply (wf_tail X WX)).
    rewrite Hsum.
    unfold cgs_init. cbn [tail_ring map norm is_zero_poly].
    pose proof (wf_ram A H). destruct (Z.leb_spec (c_ramification A) 0); [lia|reflexivity]. }
  assert (HtN : c_tail N <> []).
  { unfold N. cbn [c_tail]. destruct (c_tail A); [congruence|discriminate]. }
  split.
  - apply Hadd; auto. unfold N. cbn [c_tail].
    apply tail_add_opposite. apply (wf_tail A H).
  - apply Hadd; auto. rewrite <- Hback.
    apply tail_add_opposite. apply (wf_tail N HwN).
Qed.

Lemma negation_is_an_involution_witness :
  exists N, cgs_neg truncated_series = Ok N /\ cgs_neg N = Ok truncated_series
            /\ cgs_add truncated_series N = Ok cgs_zero
            /\ cgs_add N truncated_series = Ok cgs_zero.
Proof. apply (negation_is_an_involution truncated_series truncated_series_value). Defined.

(** ** Products and sums never fail inside the host *)

Lemma lcm_pos (a b : Z) : 0 < a -> 0 < b -> 0 < Z.lcm a b.
Proof.
  intros Ha Hb. pose proof (Z.lcm_nonneg a b).
  destruct (Z.eq_dec (Z.lcm a b) 0) as [E|E]; [apply Z.lcm_eq_0 in E; lia|lia].
Qed.

Lemma inflate_multiple (A : ContinuousGeneralizedSeries) (s : Z) :
  0 < c_ramification A -> 0 < s -> (c_ramification A | s) ->
  exists a, cgs_inflate A s = Ok a.
Proof.
  intros Hr Hs Hd. destruct (Z.eq_dec s (c_ramification A)) as [->|Hne].
  - rewrite inflate_same. eexists. reflexivity.
  - rewrite inflate_quo by assumption. eexists. reflexivity.
Qed.

Lemma inflate_lcm (A B : ContinuousGeneralizedSeries) :
  cgs_wf A -> cgs_wf B ->
  exists a b,
    cgs_inflate A (Z.lcm (c_ramification A) (c_ramification B)) = Ok a
    /\ cgs_inflate B (Z.lcm (c_ramification A) (c_ramification B)) = Ok b.
Proof.
  intros HA HB. pose proof (wf_ram A HA) as Ha. pose proof (wf_ram B HB) as Hb.
  destruct (inflate_multiple A (Z.lcm (c_ramification A) (c_ramification B)))
    as [a Ea]; [exact Ha|apply lcm_pos; assumption|apply Z.divide_lcm_l|].
  destruct (inflate_multiple B (Z.lcm (c_ramification A) (c_ramification B)))
    as [b Eb]; [exact Hb|apply lcm_pos; assumption|apply Z.divide_lcm_r|].
  exists a, b. auto.
Qed.

(** The product of two series never fails, and its ramification divides the
    least common multiple of the two ramifications. *)
Theorem product_never_fails (A B : ContinuousGeneralizedSeries) :
  cgs_value A -> cgs_value B ->
  exists P, cgs_mul A B = Ok P /\ cgs_value P
    /\ (c_ramification P | Z.lcm (c_ramification A) (c_ramification B)).
Proof.
  intros HA HB. apply cgs_value_wf in HA, HB.
  destruct (inflate_lcm A B HA HB) as [a [b [Ea Eb]]].
  unfold cgs_mul, cgs_ramification. rewrite Ea, Eb. cbn [bind].
  assert (Hs : 0 < Z.lcm (c_ramification A) (c_ramification B)).
  { apply lcm_pos; [apply (wf_ram A HA)|apply (wf_ram B HB)]. }
  destruct (cgs_init_total (mul (snd a) (snd b)) (add (fst a) (fst b)) _ false Hs) as [P HP].
  exists P. split; [exact HP|]. split.
  - eapply cgs_value_new. exact HP.
  - eapply cgs_init_divides; eauto.
Qed.

Lemma product_never_fails_witness :
  exists P, cgs_mul similar_A truncated_series = Ok P /\ cgs_value P
    /\ (c_ramification P | Z.lcm (c_ramification similar_A) (c_ramification truncated_series)).
Proof.
  apply (product_never_fails similar_A truncated_series similar_A_value truncated_series_value).
Defined.

Lemma poly_to_ZZ_total (d : poly) : poly_in_ZZ d = true -> exists z, poly_to_ZZ d = Ok z.
Proof.
  destruct d as [|c [|c' d]]; simpl; intros H; try discriminate.
  - eexists; reflexivity.
  - unfold to_ZZ. rewrite H. eexists; reflexivity.
Qed.

(** The only way a sum of two series fails is the [ValueError] for
    dissimilar operands, and it is raised exactly when both operands are
    nonzero and [similar] answers False; in every other case the sum
    returns a series. *)
Theorem add_fails_only_on_dissimilar (A B : ContinuousGeneralizedSeries) :
  cgs_value A -> cgs_value B ->
  (exists S, cgs_add A B = Ok S /\ cgs_value S)
  \/ (cgs_is_zero A = false /\ cgs_is_zero B = false
      /\ cgs_similar A B ZZ = Ok false
      /\ cgs_add A B = Raise (ValueError can_only_add_generalized_series_if_they_are_similar)).
Proof.
  intros VA VB. pose proof (cgs_value_wf A VA) as HA. pose proof (cgs_value_wf B VB) as HB.
  unfold cgs_add.
  destruct (cgs_is_zero A) eqn:ZA; [left; exists B; auto|].
  destruct (cgs_is_zero B) eqn:ZB; [left; exists A; auto|].
  destruct (inflate_lcm A B HA HB) as [a [b [Ea Eb]]].
  unfold cgs_similar, cgs_ramification. rewrite Ea, Eb. cbn [bind].
  destruct (poly_in_ZZ _) eqn:Hin; cbn [negb].
  - left. destruct (poly_to_ZZ_total _ Hin) as [z Hz]. rewrite Hz. cbn [bind].
    assert (Hs : 0 < Z.lcm (c_ramification A) (c_ramification B)).
    { apply lcm_pos; [apply (wf_ram A HA)|apply (wf_ram B HB)]. }
    destruct (z <? 0).
    + destruct (cgs_init_total (add (scale (ps_xpow (Z.to_nat (- z))) (snd b)) (snd a))
                  (fst a) _ false Hs) as [S HS].
      exists S. split; [exact HS|eapply cgs_value_new; exact HS].
    + destruct (cgs_init_total (add (scale (ps_xpow (Z.to_nat z)) (snd a)) (snd b))
                  (fst b) _ false Hs) as [S HS].
      exists S. split; [exact HS|eapply cgs_value_new; exact HS].
  - right. auto.
Qed.

Lemma add_fails_only_on_dissimilar_witness :
  (exists S, cgs_add similar_A similar_C = Ok S /\ cgs_value S)
  \/ (cgs_is_zero similar_A = false /\ cgs_is_zero similar_C = false
      /\ cgs_similar similar_A similar_C ZZ = Ok false
      /\ cgs_add similar_A similar_C
         = Raise (ValueError can_only_add_generalized_series_if_they_are_similar)).
Proof.
  apply (add_fails_only_on_dissimilar similar_A similar_C similar_A_value similar_C_value).
Defined.

(** ** The order of a series *)

Lemma coeff_add_raw (p q : poly) (k : nat) :
  coeff (add_raw p q) k = (coeff p k + coeff q k)%Qc.
Proof.
  revert q k. induction p as [|a p IH]; intros q k.
  - cbn [add_raw]. rewrite coeff_nil. ring.
  - destruct q as [|b q].
    + cbn [add_raw]. rewrite coeff_nil. ring.
    + cbn [add_raw]. destruct k as [|k]; [reflexivity|].
      change (coeff (add_raw p q) k = (coeff p k + coeff q k)%Qc). apply IH.
Qed.

Lemma coeff_add (p q : poly) (k : nat) : coeff (add p q) k = (coeff p k + coeff q k)%Qc.
Proof. unfold add. rewrite coeff_norm. apply coeff_add_raw. Qed.

Lemma coeff_const (a : Qc) : coeff (const a) 0 = a.
Proof. unfold const. rewrite coeff_norm. reflexivity. Qed.

Lemma ramification_step_order (r : Z) (E : poly) (p : tpoly) (mm : bool) :
  0 < r -> coeff (c_exp (ramification_step r E p mm)) 0 = coeff E 0.
Proof.
  intros Hr. unfold ramification_step.
  destruct (Z.eqb_spec (new_ramification E p r) r) as [Hn|Hn]; cbn [c_exp]; [reflexivity|].
  destruct (new_ramification_quo E p r Hr Hn) as [Hq [_ [Hd _]]].
  rewrite rescaled_coeff by assumption. reflexivity.
Qed.

Lemma valuation_step_order (r : Z) (E : poly) (p : tpoly) (E1 : poly) (p1 : tpoly) :
  valuation_step r E p = Ok (E1, p1) ->
  coeff E1 0 = (coeff E 0 + min_list (valuations r p))%Qc.
Proof.
  unfold valuation_step. destruct (Qc_is_zero (min_list (valuations r p))) eqn:Z.
  - intros H. injection H as <- _. apply Qc_is_zero_true in Z. rewrite Z. ring.
  - destruct (to_exponent _); [|discriminate]. cbn [bind]. intros H. injection H as <- _.
    rewrite coeff_add, coeff_const. reflexivity.
Qed.

Lemma cgs_init_order (tail : list pseries) (exp : list Qc) (r : Z) (mm : bool)
    (A : ContinuousGeneralizedSeries) :
  tail_ring tail <> [] ->
  cgs_init (FromTail tail) exp r mm = Ok A ->
  cgs_order A = Some (coeff exp 0 + min_list (valuations r (tail_ring tail)))%Qc.
Proof.
  intros Hne H.
  assert (Hz : cgs_is_zero A = false).
  { unfold cgs_is_zero. destruct (c_tail A) eqn:Et; [|reflexivity].
    apply (cgs_init_zero_iff _ _ _ _ _ H) in Et. contradiction. }
  unfold cgs_order. rewrite Hz. f_equal.
  destruct (Z.leb_spec r 0) as [Hr|Hr].
  { unfold cgs_init in H. destruct (Z.leb_spec r 0); [discriminate|lia]. }
  rewrite cgs_init_steps in H by assumption.
  destruct (valuation_step r (norm exp) (tail_ring tail)) as [[E1 p1]|e] eqn:Hs; [|discriminate].
  cbn [bind fst snd] in H. injection H as <-.
  unfold constant_coefficient. rewrite ramification_step_order by exact Hr.
  rewrite (valuation_step_order _ _ _ _ _ Hs), coeff_norm. reflexivity.
Qed.

(** The order of a series built from a nonzero tail is the constant
    coefficient of the given exponential part plus the least of the
    quotients [c.valuation()/ramification] over the nonzero coefficients [c]
    of the tail. *)
Theorem order_of_constructed_series (tail : list pseries) (exp : list Qc) (r : Z)
    (make_monic : bool) :
  0 < r -> tail_ring tail <> [] ->
  exists A, cgs_init (FromTail tail) exp r make_monic = Ok A
    /\ cgs_order A = Some (coeff exp 0 + min_list (valuations r (tail_ring tail)))%Qc.
Proof.
  intros Hr Hne. destruct (cgs_init_total tail exp r make_monic Hr) as [A HA].
  exists A. split; [exact HA|]. apply (cgs_init_order _ _ _ _ _ Hne HA).
Qed.

Lemma order_of_constructed_series_witness :
  exists A, cgs_init (FromTail [PS [0; 0; 0; 0; 0; 1; 1]%Qc None]) [Z2Qc (-3)] 1 false = Ok A
    /\ cgs_order A = Some (Z2Qc 2).
Proof.
  destruct (order_of_constructed_series [PS [0; 0; 0; 0; 0; 1; 1]%Qc None] [Z2Qc (-3)] 1 false)
    as [A [HA HO]]; [lia|vm_compute; discriminate|].
  exists A. split; [exact HA|]. rewrite HO. reflexivity.
Defined.

(** ** The two parts of a series *)

Lemma cgs_tail_exp (A Y : ContinuousGeneralizedSeries) :
  cgs_wf A -> cgs_tail A = Ok Y -> c_exp Y = [].
Proof.
  intros Hw HY. unfold cgs_tail, cgs_ramification in HY.
  assert (Hcase : c_tail A = [] \/ c_tail A <> []).
  { destruct (c_tail A); [left; reflexivity|right; discriminate]. }
  destruct Hcase as [Et|Hne].
  - rewrite Et in HY. unfold cgs_init in HY. cbn [tail_ring map norm is_zero_poly] in HY.
    destruct (_ <=? _); [discriminate|]. injection HY as <-. reflexivity.
  - rewrite cgs_init_steps in HY;
      [|apply (wf_ram A Hw)|rewrite (wf_tail A Hw); exact Hne].
    rewrite (wf_tail A Hw) in HY. change (norm (@nil Qc)) with (@nil Qc) in HY.
    rewrite valuation_step_zero in HY; [|apply (wf_ram A Hw)|apply (wf_val A Hw); exact Hne].
    cbn [bind fst snd] in HY. injection HY as <-.
    unfold ramification_step. destruct (_ =? _); cbn [c_exp]; [reflexivity|apply rescaled_nil].
Qed.

(** The two parts of a series.  [exponential_part] and [tail] never fail:
    the first returns a series with tail 1 whose order is the constant
    coefficient of the exponential part, the second a series whose
    exponential part is 0 and which is
    zero exactly when the series is; and the least common multiple of the
    ramifications of the two parts is the ramification of the series. *)
Theorem parts_of_a_series (A : ContinuousGeneralizedSeries) :
  cgs_value A ->
  exists X Y,
    cgs_exponential_part A = Ok X /\ cgs_tail A = Ok Y
    /\ c_tail X = [ps_one]
    /\ cgs_order X = Some (constant_coefficient (c_exp A))
    /\ c_exp Y = []
    /\ (cgs_is_zero Y = cgs_is_zero A)
    /\ Z.lcm (c_ramification X) (c_ramification Y) = c_ramification A.
Proof.
  intros H. apply cgs_value_wf in H.
  destruct (exponential_part_spec A H) as [X [HX [HrX [HtX _]]]].
  assert (HoX : cgs_order X = Some (constant_coefficient (c_exp A))).
  { unfold cgs_exponential_part, cgs_ramification in HX.
    destruct tail_ok_one as [Hone Hc].
    rewrite (cgs_init_order [ps_one] (c_exp A) (c_ramification A) false X);
      [|rewrite Hone; discriminate|exact HX].
    rewrite Hone, alpha_zero; [|apply (wf_ram A H)|exact Hc].
    unfold constant_coefficient. f_equal. ring. }
  assert (Hcase : c_tail A = [] \/ c_tail A <> []).
  { destruct (c_tail A); [left; reflexivity|right; discriminate]. }
  destruct Hcase as [Et|Hne].
  - pose proof (wf_zero A H Et) as EA. subst A.
    exists X, cgs_zero. split; [exact HX|]. split; [reflexivity|].
    split; [exact HtX|]. split; [exact HoX|]. split; [reflexivity|]. split; [reflexivity|].
    rewrite HrX. reflexivity.
  - destruct (tail_part_spec A H Hne) as [Y [U [HY [HrY _]]]].
    exists X, Y. split; [exact HX|]. split; [exact HY|].
    split; [exact HtX|]. split; [exact HoX|].
    split; [apply (cgs_tail_exp A Y H HY)|]. split.
    + unfold cgs_is_zero. unfold cgs_tail in HY.
      pose proof (cgs_init_zero_iff _ _ _ _ _ HY) as Hz. rewrite (wf_tail A H) in Hz.
      destruct (c_tail Y), (c_tail A); try reflexivity.
      * destruct Hz as [Hz _]. specialize (Hz eq_refl). discriminate.
      * destruct Hz as [_ Hz]. specialize (Hz eq_refl). discriminate.
    + rewrite HrX, HrY. apply parts_lcm; [apply (wf_ram A H)|apply (wf_min A H)].
Qed.

Lemma parts_of_a_series_witness :
  exists X Y,
    cgs_exponential_part truncated_series = Ok X /\ cgs_tail truncated_series = Ok Y
    /\ c_tail X = [ps_one]
    /\ cgs_order X = Some (constant_coefficient (c_exp truncated_series))
    /\ c_exp Y = []
    /\ (cgs_is_zero Y = cgs_is_zero truncated_series)
    /\ Z.lcm (c_ramification X) (c_ramification Y) = c_ramification truncated_series.
Proof. apply (parts_of_a_series truncated_series truncated_series_value). Defined.

(** ** Substitution *)

Lemma denominator_pos (e : Qc) : 0 < denominator e.
Proof. unfold denominator. lia. Qed.

(** [substitute] raises a [TypeError] for an argument that is no rational
    number or is not positive.  For a positive rational [e] it never fails,
    the ramification of the result divides the denominator of [e] times the
    ramification of the series, and the zero series is mapped to itself. *)
Theorem substitute_contract (A : ContinuousGeneralizedSeries) (e : Qc) :
  cgs_value A ->
  cgs_substitute A NotRational = Raise (TypeError exponent_must_be_a_rational_number)
  /\ (~ (0 < e)%Qc ->
      cgs_substitute A (Rational e) = Raise (TypeError exponent_must_be_a_rational_number))
  /\ ((0 < e)%Qc ->
      exists B, cgs_substitute A (Rational e) = Ok B /\ cgs_value B
        /\ (c_ramification B | denominator e * c_ramification A)
        /\ (cgs_is_zero A = true -> B = cgs_zero)).
Proof.
  intros VA. pose proof (cgs_value_wf A VA) as HA.
  split; [reflexivity|]. split.
  - intros He. unfold cgs_substitute.
    destruct (Qc_ltb 0 e) eqn:L; [|reflexivity].
    apply Qc_ltb_lt in L. contradiction.
  - intros He. unfold cgs_substitute.
    apply Qc_ltb_lt in He. rewrite He. cbn [negb].
    destruct (Qc_eq_bool e 1) eqn:E1.
    + exists A. split; [reflexivity|]. split; [exact VA|]. split.
      * exists (denominator e). reflexivity.
      * apply cgs_value_zero. exact VA.
    + assert (Hs : 0 < denominator e * c_ramification A).
      { pose proof (denominator_pos e). pose proof (wf_ram A HA). nia. }
      unfold cgs_ramification.
      match goal with |- exists B, cgs_init (FromTail ?t) ?x ?r false = Ok B /\ _ =>
        destruct (cgs_init_total t x r false Hs) as [B HB] end.
      exists B. split; [exact HB|]. split; [eapply cgs_value_new; exact HB|]. split.
      * eapply cgs_init_divides; eauto.
      * intros Hz. apply (cgs_value_zero A VA) in Hz. subst A.
        apply (wf_zero B (cgs_init_new_wf _ _ _ _ _ HB)).
        apply (cgs_init_zero_iff _ _ _ _ _ HB). reflexivity.
Qed.

Lemma substitute_contract_witness :
  cgs_substitute truncated_series NotRational
  = Raise (TypeError exponent_must_be_a_rational_number)
  /\ cgs_substitute truncated_series (Rational (Z2Qc (-2)))
     = Raise (TypeError exponent_must_be_a_rational_number)
  /\ exists B, cgs_substitute truncated_series (Rational (rat 3 5)) = Ok B /\ cgs_value B
        /\ (c_ramification B | denominator (rat 3 5) * c_ramification truncated_series)
        /\ (cgs_is_zero truncated_series = true -> B = cgs_zero).
Proof.
  destruct (substitute_contract truncated_series (Z2Qc (-2)) truncated_series_value)
    as (H1 & H2 & _).
  destruct (substitute_contract truncated_series (rat 3 5) truncated_series_value)
    as (_ & _ & H3).
  refine (conj H1 (conj (H2 _) (H3 _))).
  - intros L. apply Qc_ltb_lt in L. vm_compute in L. discriminate.
  - apply Qc_ltb_lt. vm_compute. reflexivity.
Defined.

(** ** The discrete constructor as a whole *)

Lemma dgs_init_list_fields gamma ram rho subexp alpha expansion mm A :
  dgs_init_list gamma ram rho subexp alpha expansion mm = Ok A ->
  dgs_is_zero A = false ->
  d_gamma A = gamma /\ d_ramification A = ram /\ d_rho A = rho
  /\ rho <> 0%Qc /\ 0 < ram.
Proof.
  unfold dgs_init_list. intros H Hz.
  destruct (Qc_is_zero rho || (ram <=? 0)) eqn:G; [discriminate|].
  apply orb_false_elim in G as [G1 G2]. apply Z.leb_gt in G2.
  apply Qc_is_zero_false in G1.
  destruct (is_zero_poly _).
  - injection H as <-. discriminate.
  - destruct (match eprec_min_list _ with Some (S d) => _ | _ => _ end) as [alpha1 p1].
    destruct (if _ <? ram then _ else _) as [subexp2 p2].
    injection H as <-. cbn. auto.
Qed.

Lemma dgs_init_list_total gamma ram rho subexp alpha expansion mm :
  rho <> 0%Qc -> 0 < ram ->
  exists A, dgs_init_list gamma ram rho subexp alpha expansion mm = Ok A.
Proof.
  intros Hrho Hram. unfold dgs_init_list.
  apply Qc_is_zero_false in Hrho. rewrite Hrho.
  destruct (Z.leb_spec ram 0); [lia|]. cbn [orb].
  destruct (is_zero_poly _); [eexists; reflexivity|].
  destruct (match eprec_min_list _ with Some (S d) => _ | _ => _ end) as [alpha1 p1].
  destruct (if _ <? ram then _ else _) as [subexp2 p2].
  eexists; reflexivity.
Qed.

(** The constructor of discrete series from a list of data.  It raises a
    [ValueError] when [rho] is zero or the ramification is not positive,
    whatever the expansion is, and never fails otherwise.  A zero result is
    the canonical zero; a nonzero result stores the given [gamma], [rho] and
    ramification: the ramification is never reduced, even when the
    expansion is rescaled. *)
Theorem discrete_constructor_contract (gamma : Qc) (ram : Z) (rho : Qc)
    (subexp : subexp_arg) (alpha : Qc) (expansion : expansion_arg) (make_monic : bool) :
  (rho = 0%Qc \/ ram <= 0 ->
   dgs_init (FromList gamma ram rho subexp alpha expansion) make_monic
   = Raise (ValueError no_message))
  /\ (rho <> 0%Qc -> 0 < ram ->
      exists A, dgs_init (FromList gamma ram rho subexp alpha expansion) make_monic = Ok A
        /\ (dgs_is_zero A = true -> A = dgs_zero)
        /\ (dgs_is_zero A = false ->
            d_gamma A = gamma /\ d_ramification A = ram /\ d_rho A = rho)).
Proof.
  cbn [dgs_init]. split.
  - intros H. unfold dgs_init_list.
    assert (G : Qc_is_zero rho || (ram <=? 0) = true).
    { destruct H as [->|H]; [reflexivity|].
      apply orb_true_iff. right. apply Z.leb_le. exact H. }
    rewrite G. reflexivity.
  - intros Hrho Hram.
    destruct (dgs_init_list_total gamma ram rho subexp alpha expansion make_monic Hrho Hram)
      as [A HA].
    exists A. split; [exact HA|]. split.
    + intros Hz. apply (dwf_zero A (dgs_init_list_wf _ _ _ _ _ _ _ _ HA)).
      unfold dgs_is_zero in Hz. destruct (d_expansion A); [reflexivity|discriminate].
    + intros Hz. destruct (dgs_init_list_fields _ _ _ _ _ _ _ _ HA Hz) as (H1 & H2 & H3 & _).
      auto.
Qed.

Lemma discrete_constructor_contract_witness :
  dgs_init (FromList 0%Qc 2 0%Qc (SubexpPoly []) 0%Qc (ExpansionTail [])) false
  = Raise (ValueError no_message)
  /\ exists A,
       dgs_init (FromList 0%Qc 2 1%Qc (SubexpPoly []) 0%Qc
                   (ExpansionTail [PS [1; 0; 0; 0; 1]%Qc None])) false = Ok A
       /\ (dgs_is_zero A = true -> A = dgs_zero)
       /\ (dgs_is_zero A = false ->
           d_gamma A = 0%Qc /\ d_ramification A = 2 /\ d_rho A = 1%Qc).
Proof.
  split.
  - apply (proj1 (discrete_constructor_contract 0%Qc 2 0%Qc (SubexpPoly []) 0%Qc
                    (ExpansionTail []) false)).
    left. reflexivity.
  - apply (proj2 (discrete_constructor_contract 0%Qc 2 1%Qc (SubexpPoly []) 0%Qc
                    (ExpansionTail [PS [1; 0; 0; 0; 1]%Qc None]) false)).
    + intros E. apply (f_equal this) in E. discriminate.
    + lia.
Defined.

Lemma dgs_value_rho (A : DiscreteGeneralizedSeries) :
  dgs_value A -> dgs_is_zero A = false -> d_rho A <> 0%Qc.
Proof.
  induction 1 as [p mm A H|gamma ram rho subexp alpha expansion mm A H|A0 mm A _ IH H];
    intros Hz.
  - unfold dgs_init, scalar_data in H.
    destruct (is_zero_poly (norm p));
      destruct (dgs_init_list_fields _ _ _ _ _ _ _ _ H Hz) as (_ & _ & -> & Hr & _);
      exact Hr.
  - destruct (dgs_init_list_fields _ _ _ _ _ _ _ _ H Hz) as (_ & _ & -> & Hr & _).
    exact Hr.
  - unfold dgs_init in H. destruct (_ && _); [discriminate|]. injection H as <-. auto.
Qed.

Lemma dgs_inflate_lcm (A B : DiscreteGeneralizedSeries) :
  0 < d_ramification A -> 0 < d_ramification B ->
  exists a b,
    dgs_inflate A (Z.lcm (d_ramification A) (d_ramification B)) = Ok a
    /\ dgs_inflate B (Z.lcm (d_ramification A) (d_ramification B)) = Ok b.
Proof.
  intros HA HB.
  destruct (dgs_inflate_lcm_l A B HA HB) as [a Ea].
  destruct (dgs_inflate_lcm_l B A HB HA) as [b Eb].
  rewrite Z.lcm_comm in Eb. exists a, b. auto.
Qed.

(** The product of two nonzero discrete series never fails (unlike a product
    with the zero series).  When the result is not zero its [gamma] is the
    sum of the two [gamma], its [rho] the product of the two [rho], and its
    ramification the least common multiple of the two ramifications. *)
Theorem discrete_product_of_nonzero (A B : DiscreteGeneralizedSeries) :
  dgs_value A -> dgs_value B -> dgs_is_zero A = false -> dgs_is_zero B = false ->
  exists P, dgs_mul A B = Ok P
    /\ (dgs_is_zero P = true -> P = dgs_zero)
    /\ (dgs_is_zero P = false ->
        d_gamma P = (d_gamma A + d_gamma B)%Qc
        /\ d_rho P = (d_rho A * d_rho B)%Qc
        /\ d_ramification P = Z.lcm (d_ramification A) (d_ramification B)).
Proof.
  intros VA VB ZA ZB.
  pose proof (dgs_value_wf A VA) as HA. pose proof (dgs_value_wf B VB) as HB.
  destruct (dgs_inflate_lcm A B (dwf_ram A HA) (dwf_ram B HB)) as [a [b [Ea Eb]]].
  unfold dgs_mul. rewrite Ea, Eb. cbn [bind dgs_init].
  assert (Hrho : (d_rho A * d_rho B)%Qc <> 0%Qc).
  { intros E. apply Qcmult_integral in E.
    destruct E as [E|E]; [apply (dgs_value_rho A VA ZA E)|apply (dgs_value_rho B VB ZB E)]. }
  assert (Hs : 0 < Z.lcm (d_ramification A) (d_ramification B)).
  { apply lcm_pos; [apply (dwf_ram A HA)|apply (dwf_ram B HB)]. }
  match goal with |- exists P, dgs_init_list ?g ?r ?h ?s ?al ?e ?m = Ok P /\ _ =>
    destruct (dgs_init_list_total g r h s al e m Hrho Hs) as [P HP] end.
  exists P. split; [exact HP|]. split.
  - intros Hz. apply (dwf_zero P (dgs_init_list_wf _ _ _ _ _ _ _ _ HP)).
    unfold dgs_is_zero in Hz. destruct (d_expansion P); [reflexivity|discriminate].
  - intros Hz. destruct (dgs_init_list_fields _ _ _ _ _ _ _ _ HP Hz) as (H1 & H2 & H3 & _).
    auto.
Qed.

Lemma discrete_product_of_nonzero_witness :
  exists P, dgs_mul discrete_A discrete_B = Ok P
    /\ (dgs_is_zero P = true -> P = dgs_zero)
    /\ (dgs_is_zero P = false ->
        d_gamma P = (d_gamma discrete_A + d_gamma discrete_B)%Qc
        /\ d_rho P = (d_rho discrete_A * d_rho discrete_B)%Qc
        /\ d_ramification P
           = Z.lcm (d_ramification discrete_A) (d_ramification discrete_B)).
Proof.
  apply (discrete_product_of_nonzero discrete_A discrete_B discrete_A_value discrete_B_value);
    reflexivity.
Defined.

(** ** Sums of discrete series *)

Lemma in_ZZ_Z2Qc (q : Qc) : in_ZZ q = true -> q = Z2Qc (numerator q).
Proof.
  unfold in_ZZ, denominator, numerator. intros H. apply Z.eqb_eq in H.
  apply Qc_is_canon. rewrite this_Z2Qc. unfold Qeq. cbn [Qnum Qden inject_Z].
  injection H as H. rewrite H. ring.
Qed.

Lemma Z2Qc_mul (a b : Z) : (Z2Qc a * Z2Qc b)%Qc = Z2Qc (a * b).
Proof.
  apply Qc_is_canon. unfold Qcmult. cbn [this Q2Qc]. rewrite Qred_correct.
  rewrite !this_Z2Qc. unfold Qeq. cbn. ring.
Qed.

Lemma Z2Qc_opp (a : Z) : (- Z2Qc a)%Qc = Z2Qc (- a).
Proof.
  apply Qc_is_canon. unfold Qcopp. cbn [this Q2Qc]. rewrite Qred_correct.
  rewrite !this_Z2Qc. unfold Qeq. cbn. ring.
Qed.

Lemma Z2Qc_lt (a b : Z) : (Z2Qc a < Z2Qc b)%Qc <-> a < b.
Proof. unfold Qclt. rewrite !this_Z2Qc. rewrite <- Zlt_Qlt. reflexivity. Qed.

Lemma to_exponent_nonneg (m : Z) : 0 <= m -> to_exponent (Z2Qc m) = Ok (Z.to_nat m).
Proof.
  intros H. unfold to_exponent. rewrite to_ZZ_Z2Qc. cbn [bind].
  destruct (Z.ltb_spec m 0); [lia|reflexivity].
Qed.

Lemma shift_exponent (ram : Z) (a b : Qc) :
  0 < ram -> in_ZZ (a - b) = true -> (a < b)%Qc ->
  exists k, to_exponent (Z2Qc ram * (b - a)) = Ok k.
Proof.
  intros Hr Hin Hlt. apply in_ZZ_Z2Qc in Hin.
  set (n := numerator (a - b)) in *.
  assert (E : (b - a)%Qc = Z2Qc (- n)).
  { rewrite <- Z2Qc_opp, <- Hin. ring. }
  assert (Hn : n < 0).
  { destruct (Z.lt_ge_cases n 0) as [L|L]; [exact L|]. exfalso.
    apply (Qcle_not_lt b a); [|exact Hlt].
    apply Qcle_minus_iff. fold (Qcminus a b). rewrite Hin.
    unfold Qcle. rewrite this_Z2Qc. change (this 0%Qc) with (inject_Z 0).
    rewrite <- Zle_Qle. exact L. }
  rewrite E, Z2Qc_mul. eexists. apply to_exponent_nonneg. nia.
Qed.

Lemma dgs_inflate_same (A : DiscreteGeneralizedSeries) :
  0 < d_ramification A ->
  dgs_inflate A (d_ramification A) = Ok (d_subexp A, d_expansion A).
Proof.
  intros H. unfold dgs_inflate.
  destruct (Z.eqb_spec (d_ramification A) 0); [lia|]. rewrite Z.eqb_refl. reflexivity.
Qed.

Lemma dgs_inflate_to (B : DiscreteGeneralizedSeries) (s : Z) :
  d_ramification B = s -> 0 < s -> dgs_inflate B s = Ok (d_subexp B, d_expansion B).
Proof. intros <- H. apply dgs_inflate_same. exact H. Qed.

(** The only way a sum of two discrete series fails is the [ValueError] for
    dissimilar operands, raised exactly when both operands are nonzero and
    [similar] answers False; in every other case the sum returns a series. *)
Theorem discrete_add_fails_only_on_dissimilar (A B : DiscreteGeneralizedSeries) :
  dgs_value A -> dgs_value B ->
  (exists S, dgs_add A B = Ok S /\ dgs_value S)
  \/ (dgs_is_zero A = false /\ dgs_is_zero B = false
      /\ dgs_similar A B ZZ = false
      /\ dgs_add A B = Raise (ValueError can_only_add_generalized_series_if_they_are_similar)).
Proof.
  intros VA VB.
  pose proof (dgs_value_wf A VA) as HA. pose proof (dgs_value_wf B VB) as HB.
  unfold dgs_add.
  destruct (dgs_is_zero A) eqn:ZA; [left; exists B; auto|].
  destruct (dgs_is_zero B) eqn:ZB; [left; exists A; auto|].
  destruct (dgs_similar A B ZZ) eqn:Hsim; cbn [negb]; [|right; auto].
  left. unfold dgs_similar in Hsim.
  apply andb_prop in Hsim as [Hsim Hal]. apply andb_prop in Hsim as [Hsim _].
  apply andb_prop in Hsim as [_ Hram]. apply Z.eqb_eq in Hram.
  rewrite <- Hram, lcm_diag_pos by (apply (dwf_ram A HA)).
  rewrite dgs_inflate_same by (apply (dwf_ram A HA)).
  rewrite (dgs_inflate_to B (d_ramification A));
    [|symmetry; exact Hram|apply (dwf_ram A HA)].
  cbn [bind fst snd].
  assert (Hfin : forall al t,
            exists S, dgs_init (FromList (d_gamma A) (d_ramification A) (d_rho A)
                                  (SubexpPoly (d_subexp A)) al (ExpansionTail t)) false = Ok S
                      /\ dgs_value S).
  { intros al t. cbn [dgs_init].
    destruct (dgs_init_list_total (d_gamma A) (d_ramification A) (d_rho A)
                (SubexpPoly (d_subexp A)) al (ExpansionTail t) false) as [S HS].
    - apply dgs_value_rho; assumption.
    - apply (dwf_ram A HA).
    - exists S. split; [exact HS|]. eapply dgs_value_list. exact HS. }
  destruct (Qc_ltb (d_alpha A) (Qc_max (d_alpha A) (d_alpha B))) eqn:LA.
  - assert (Emax : Qc_max (d_alpha A) (d_alpha B) = d_alpha B).
    { unfold Qc_max in *. destruct (Qc_ltb (d_alpha A) (d_alpha B)); [reflexivity|].
      apply Qc_ltb_lt in LA. exfalso. apply (Qclt_not_eq _ _ LA). reflexivity. }
    rewrite Emax in *. apply Qc_ltb_lt in LA.
    destruct (shift_exponent (d_ramification A) (d_alpha A) (d_alpha B)
                (dwf_ram A HA) Hal LA) as [k Hk].
    rewrite Hk. cbn [bind fst snd]. apply Hfin.
  - destruct (Qc_ltb (d_alpha B) (Qc_max (d_alpha A) (d_alpha B))) eqn:LB.
    + assert (Emax : Qc_max (d_alpha A) (d_alpha B) = d_alpha A).
      { unfold Qc_max in *. destruct (Qc_ltb (d_alpha A) (d_alpha B)); [|reflexivity].
        apply Qc_ltb_lt in LB. exfalso. apply (Qclt_not_eq _ _ LB). reflexivity. }
      rewrite Emax in *. apply Qc_ltb_lt in LB.
      assert (Hal' : in_ZZ (d_alpha B - d_alpha A) = true).
      { apply in_ZZ_Z2Qc in Hal.
        replace (d_alpha B - d_alpha A)%Qc with (Z2Qc (- numerator (d_alpha A - d_alpha B))).
        - unfold in_ZZ, denominator. rewrite this_Z2Qc. reflexivity.
        - rewrite <- Z2Qc_opp, <- Hal. ring. }
      destruct (shift_exponent (d_ramification A) (d_alpha B) (d_alpha A)
                  (dwf_ram A HA) Hal' LB) as [k Hk].
      rewrite Hk. cbn [bind fst snd]. apply Hfin.
    + cbn [bind fst snd]. apply Hfin.
Qed.

Lemma discrete_add_fails_only_on_dissimilar_witness :
  (exists S, dgs_add discrete_A discrete_B = Ok S /\ dgs_value S)
  \/ (dgs_is_zero discrete_A = false /\ dgs_is_zero discrete_B = false
      /\ dgs_similar discrete_A discrete_B ZZ = false
      /\ dgs_add discrete_A discrete_B
         = Raise (ValueError can_only_add_generalized_series_if_they_are_similar)).
Proof.
  apply (discrete_add_fails_only_on_dissimilar discrete_A discrete_B
           discrete_A_value discrete_B_value).
Defined.

(** ** Inversion of discrete series *)











(** ** Binomial coefficients *)

Lemma _binomial_unfold (lam : Qc) (j : nat) :
  _binomial lam j = fst (fold_left (binomial_step j) (seq 0 j) (1%Qc, lam)).
Proof. reflexivity. Qed.

Lemma binomial_fold_scale (j : nat) (l : list nat) (b c lam : Qc) :
  fold_left (binomial_step j) l ((c * b)%Qc, lam)
  = ((c * fst (fold_left (binomial_step j) l (b, lam)))%Qc,
     snd (fold_left (binomial_step j) l (b, lam))).
Proof.
  revert b lam. induction l as [|jj l IH]; intros b lam; [reflexivity|].
  cbn [fold_left binomial_step].
  replace (c * b * (lam / nat2Qc (j - jj)))%Qc with (c * (b * (lam / nat2Qc (j - jj))))%Qc
    by ring.
  apply IH.
Qed.

Lemma binomial_fold_shift (j : nat) (l : list nat) (st : Qc * Qc) :
  fold_left (binomial_step (S j)) (map S l) st = fold_left (binomial_step j) l st.
Proof.
  revert st. induction l as [|jj l IH]; intros [b lam]; [reflexivity|].
  cbn [map fold_left]. rewrite <- IH. reflexivity.
Qed.

Lemma nat2Qc_S_nonzero (j : nat) : nat2Qc (S j) <> 0%Qc.
Proof.
  intros E. apply (f_equal this) in E. unfold nat2Qc in E. rewrite this_Z2Qc in E.
  change (this 0%Qc) with (inject_Z 0) in E. injection E as E. lia.
Qed.

Lemma nat2Qc_S (k : nat) : nat2Qc (S k) = (nat2Qc k + 1)%Qc.
Proof.
  unfold nat2Qc. rewrite Nat2Z.inj_succ. unfold Z.succ.
  apply Qc_is_canon. unfold Qcplus. cbn [this Q2Qc]. rewrite Qred_correct.
  rewrite !this_Z2Qc. rewrite inject_Z_plus. reflexivity.
Qed.

Lemma binomial_absorption (lam : Qc) (j : nat) :
  _binomial lam (S j) = (lam / nat2Qc (S j) * _binomial (lam - 1) j)%Qc.
Proof.
  rewrite !_binomial_unfold. cbn [seq fold_left]. rewrite <- seq_shift.
  rewrite binomial_fold_shift. unfold binomial_step at 2.
  replace (S j - 0)%nat with (S j) by lia.
  replace (1 * (lam / nat2Qc (S j)))%Qc with (lam / nat2Qc (S j) * 1)%Qc by ring.
  rewrite binomial_fold_scale. reflexivity.
Qed.

Lemma binomial_lower (lam : Qc) (j : nat) :
  ((lam - nat2Qc j) * _binomial lam j = lam * _binomial (lam - 1) j)%Qc.
Proof.
  revert lam. induction j as [|j IH]; intros lam.
  - change (nat2Qc 0) with 0%Qc. change (_binomial lam 0) with 1%Qc.
    change (_binomial (lam - 1) 0) with 1%Qc. ring.
  - rewrite (binomial_absorption lam j), (binomial_absorption (lam - 1) j).
    specialize (IH (lam - 1)%Qc).
    pose proof (nat2Qc_S j) as Ej.
    pose proof (nat2Qc_S_nonzero j) as Hnz.
    replace (lam - nat2Qc (S j))%Qc with (lam - 1 - nat2Qc j)%Qc by (rewrite Ej; ring).
    transitivity (lam / nat2Qc (S j) * ((lam - 1 - nat2Qc j) * _binomial (lam - 1) j))%Qc;
      [ring|].
    rewrite IH. field. exact Hnz.
Qed.

(** [_binomial] computes the generalized binomial coefficients: it is 1 for
    [j = 0], satisfies the rule of Pascal for every [lam], rational or not,
    and for a natural number [n] it vanishes for [j > n] and is 1 for
    [j = n]. *)
Theorem binomial_pascal (lam : Qc) (j n : nat) :
  _binomial lam 0 = 1%Qc
  /\ _binomial (lam + 1) (S j) = (_binomial lam j + _binomial lam (S j))%Qc
  /\ ((n < j)%nat -> _binomial (nat2Qc n) j = 0%Qc)
  /\ _binomial (nat2Qc n) n = 1%Qc.
Proof.
  pose proof nat2Qc_S as Ej.
  split; [reflexivity|]. split; [|split].
  - rewrite (binomial_absorption (lam + 1) j), (binomial_absorption lam j).
    replace (lam + 1 - 1)%Qc with lam by ring.
    pose proof (binomial_lower lam j) as HL.
    pose proof (nat2Qc_S_nonzero j) as Hnz.
    transitivity ((_binomial lam j * nat2Qc (S j) + lam * _binomial (lam - 1) j)
                  / nat2Qc (S j))%Qc.
    + rewrite <- HL, Ej. field. rewrite <- Ej. exact Hnz.
    + field. exact Hnz.
  - revert j. induction n as [|n IH]; intros j Hj.
    + destruct j as [|j]; [lia|]. rewrite binomial_absorption.
      change (nat2Qc 0) with 0%Qc. unfold Qcdiv. ring.
    + destruct j as [|j]; [lia|]. rewrite binomial_absorption.
      replace (nat2Qc (S n) - 1)%Qc with (nat2Qc n) by (rewrite Ej; ring).
      rewrite IH by lia. ring.
  - induction n as [|n IH]; [reflexivity|].
    rewrite binomial_absorption.
    replace (nat2Qc (S n) - 1)%Qc with (nat2Qc n) by (rewrite Ej; ring).
    rewrite IH. field. apply nat2Qc_S_nonzero.
Qed.

Lemma binomial_pascal_witness :
  _binomial (rat 1 2) 0 = 1%Qc
  /\ _binomial (rat 1 2 + 1) 3 = (_binomial (rat 1 2) 2 + _binomial (rat 1 2) 3)%Qc
  /\ _binomial (nat2Qc 2) 3 = 0%Qc
  /\ _binomial (nat2Qc 2) 2 = 1%Qc.
Proof.
  destruct (binomial_pascal (rat 1 2) 2 2) as (H1 & H2 & _ & H4).
  destruct (binomial_pascal (rat 1 2) 3 2) as (_ & _ & H3 & _).
  refine (conj H1 (conj H2 (conj (H3 _) H4))). lia.
Defined.

(** ** Similarity *)

Lemma coeff_scale (k : Qc) (p : poly) (e : nat) : coeff (scale k p) e = (k * coeff p e)%Qc.
Proof. unfold scale. rewrite coeff_norm. apply coeff_map_scale. Qed.

Lemma coeff_map_opp (l : poly) (j : nat) : coeff (map Qcopp l) j = (- coeff l j)%Qc.
Proof.
  revert j. induction l as [|a l IH]; intros [|j]; try reflexivity.
  - simpl. apply IH.
Qed.

Lemma coeff_neg (p : poly) (e : nat) : coeff (neg p) e = (- coeff p e)%Qc.
Proof. unfold neg. rewrite coeff_norm. apply coeff_map_opp. Qed.

Lemma coeff_sub (p q : poly) (e : nat) : coeff (sub p q) e = (coeff p e - coeff q e)%Qc.
Proof. unfold sub. rewrite coeff_add, coeff_neg. reflexivity. Qed.

Lemma Qc_is_zero_opp (c : Qc) : Qc_is_zero (- c) = Qc_is_zero c.
Proof.
  destruct (Qc_is_zero c) eqn:Z.
  - apply Qc_is_zero_true in Z. subst c. reflexivity.
  - apply Qc_is_zero_false in Z. apply Qc_is_zero_false. intros E0. apply Z.
    rewrite <- (Qcopp_involutive c), E0. reflexivity.
Qed.

Lemma denominator_opp (c : Qc) : denominator (- c) = denominator c.
Proof.
  unfold denominator, Qcopp. cbn [this Q2Qc]. rewrite Qred_opp.
  rewrite (canon c). reflexivity.
Qed.

Lemma poly_in_opp (d : poly) :
  poly_in_ZZ (map Qcopp d) = poly_in_ZZ d /\ poly_in_QQ (map Qcopp d) = poly_in_QQ d.
Proof.
  destruct d as [|c [|c' d]]; cbn [map poly_in_ZZ poly_in_QQ]; split; try reflexivity.
  unfold in_ZZ. rewrite denominator_opp. reflexivity.
Qed.

Lemma scaled_difference_opp (s : Qc) (a b : poly) :
  scale s (sub b a) = map Qcopp (scale s (sub a b)).
Proof.
  transitivity (neg (scale s (sub a b))).
  - apply poly_ext.
    + unfold scale. apply norm_idem.
    + unfold neg. apply norm_idem.
    + intros k. rewrite coeff_neg, !coeff_scale, !coeff_sub. ring.
  - unfold neg. rewrite (norm_map Qcopp) by (intros; apply Qc_is_zero_opp).
    f_equal. unfold scale. apply norm_idem.
Qed.

(** [similar] never fails on two series of a monoid, is reflexive, and is
    symmetric, for the reference set [ZZ] as for [QQ]. *)
Theorem similar_is_reflexive_and_symmetric (A B : ContinuousGeneralizedSeries)
    (ref : reference) :
  cgs_value A -> cgs_value B ->
  cgs_similar A A ref = Ok true
  /\ (exists b, cgs_similar A B ref = Ok b /\ cgs_similar B A ref = Ok b).
Proof.
  intros VA VB. pose proof (cgs_value_wf A VA) as HA. pose proof (cgs_value_wf B VB) as HB.
  split.
  - unfold cgs_similar, cgs_ramification.
    rewrite lcm_diag_pos by (apply (wf_ram A HA)).
    rewrite inflate_same. cbn [bind fst snd].
    rewrite poly_sub_self by (apply (wf_exp A HA)). destruct ref; reflexivity.
  - destruct (inflate_lcm A B HA HB) as [a [b [Ea Eb]]].
    unfold cgs_similar, cgs_ramification.
    rewrite (Z.lcm_comm (c_ramification B) (c_ramification A)).
    rewrite Ea, Eb. cbn [bind].
    eexists. split; [reflexivity|]. f_equal.
    rewrite (scaled_difference_opp _ (fst a) (fst b)).
    destruct (poly_in_opp (scale (Z2Qc (Z.lcm (c_ramification A) (c_ramification B)))
                             (sub (fst a) (fst b)))) as [H1 H2].
    destruct ref; [exact H1|exact H2].
Qed.

Lemma similar_is_reflexive_and_symmetric_witness :
  cgs_similar similar_A similar_A ZZ = Ok true
  /\ (exists b, cgs_similar similar_A similar_C ZZ = Ok b
                /\ cgs_similar similar_C similar_A ZZ = Ok b).
Proof.
  apply (similar_is_reflexive_and_symmetric similar_A similar_C ZZ
           similar_A_value similar_C_value).
Defined.

(** ** Writing a series with a larger ramification *)

Lemma divides_subst_xpow (q : nat) (p : poly) :
  (0 < q)%nat -> divides_exponents q (subst_xpow q p).
Proof.
  intros Hq e He. apply In_exponents in He. rewrite coeff_subst_xpow in He by exact Hq.
  destruct (Nat.eqb_spec (e mod q) 0) as [E|E]; [exact E|]. exfalso. apply He. reflexivity.
Qed.

Lemma rescaled_subst_xpow (q : nat) (p : poly) :
  (0 < q)%nat -> norm p = p -> rescaled q (subst_xpow q p) = p.
Proof.
  intros Hq Hp. apply poly_ext; [apply of_dict_norm|exact Hp|].
  intros k. rewrite rescaled_coeff by (auto using divides_subst_xpow).
  rewrite coeff_subst_xpow by exact Hq.
  rewrite Nat.Div0.mod_mul, Nat.div_mul by lia. reflexivity.
Qed.

Lemma length_stretch (q : nat) (p : poly) :
  (0 < q)%nat -> (length (stretch q p) <= length p * q)%nat.
Proof.
  intros Hq. induction p as [|a p IH]; [simpl; lia|].
  cbn [stretch length]. rewrite length_app, repeat_length. lia.
Qed.

Lemma subst_xpow_zero_iff (q : nat) (p : poly) :
  (0 < q)%nat -> norm p = p -> (subst_xpow q p = [] <-> p = []).
Proof.
  intros Hq Hp. split.
  - intros H. rewrite <- (rescaled_subst_xpow q p Hq Hp), H. apply rescaled_nil.
  - intros ->. reflexivity.
Qed.

Lemma subst_step_wf (q : nat) (c : pseries) : (0 < q)%nat -> ps_wf c -> ps_wf (subst_step q c).
Proof.
  intros Hq [H1 H2]. unfold subst_step. destruct (ps_is_zero c).
  - split; [reflexivity|]. discriminate.
  - unfold ps_subst_xpow. split; cbn [ps_poly ps_prec].
    + apply norm_idem.
    + intros n Hn. destruct (ps_prec c) as [m|]; [|discriminate].
      cbn in Hn. injection Hn as <-. specialize (H2 m eq_refl).
      unfold subst_xpow. etransitivity; [apply length_norm|].
      etransitivity; [apply length_stretch; exact Hq|]. nia.
Qed.

Lemma subst_step_zero (q : nat) (c : pseries) :
  (0 < q)%nat -> ps_wf c -> ps_is_zero (subst_step q c) = ps_is_zero c.
Proof.
  intros Hq [H1 _]. unfold subst_step. destruct (ps_is_zero c) eqn:Z; [reflexivity|].
  unfold ps_is_zero, ps_subst_xpow in *. cbn [ps_poly].
  destruct (subst_xpow q (ps_poly c)) eqn:E; [|reflexivity].
  apply subst_xpow_zero_iff in E; [|exact Hq|exact H1]. rewrite E in Z. discriminate.
Qed.

Lemma subst_step_coeff (q : nat) (c : pseries) :
  (0 < q)%nat -> ps_coeff c 0 <> 0%Qc -> ps_coeff (subst_step q c) 0 <> 0%Qc.
Proof.
  intros Hq H. unfold subst_step.
  assert (Z : ps_is_zero c = false).
  { unfold ps_is_zero, ps_coeff in *. destruct (ps_poly c); [|reflexivity].
    exfalso. apply H. reflexivity. }
  rewrite Z. unfold ps_coeff, ps_subst_xpow. cbn [ps_poly].
  rewrite coeff_subst_xpow by exact Hq.
  rewrite Nat.Div0.mod_0_l, Nat.Div0.div_0_l. exact H.
Qed.

Lemma rescaled_subst_step (q : nat) (c : pseries) :
  (0 < q)%nat -> ps_wf c -> ps_rescaled q (subst_step q c) = erase_prec c.
Proof.
  intros Hq [H1 _]. unfold subst_step, ps_rescaled, erase_prec.
  destruct (ps_is_zero c) eqn:Z.
  - unfold ps_is_zero in Z. destruct (ps_poly c); [reflexivity|discriminate].
  - unfold ps_subst_xpow. cbn [ps_poly]. rewrite rescaled_subst_xpow by assumption.
    reflexivity.
Qed.

Lemma fits_subst_xpow (q : nat) (l : poly) (r m : Z) :
  (0 < q)%nat -> norm l = l ->
  fits (r * Z.of_nat q) (exponents (subst_xpow q l)) m <-> fits r (exponents l) m.
Proof.
  intros Hq Hl. symmetry.
  rewrite <- (rescaled_subst_xpow q l Hq Hl) at 1.
  apply fits_rescaled; [exact Hq|reflexivity|apply divides_subst_xpow; exact Hq].
Qed.

Lemma ramification_characterised (A : ContinuousGeneralizedSeries) (m : Z) :
  cgs_wf A ->
  (c_ramification A | m)
  <-> fits (c_ramification A) (exponents (c_exp A)) m
      /\ tail_fits (c_ramification A) (coefficients (c_tail A)) m.
Proof.
  intros H. pose proof (wf_ram A H) as Hr. pose proof (wf_min A H) as Hm.
  split; [intros Hd; split; [|intros c _]; apply fits_multiple; exact Hd|].
  intros [HE HT].
  rewrite new_ramification_unfold in Hm. cbv zeta in Hm.
  destruct (Z.ltb_spec (lcm_list (map (exponent_denominator (c_ramification A))
                                    (exponents (c_exp A)))) (c_ramification A)) as [Hlt|Hge].
  - rewrite <- Hm at 1. apply tail_fold_divide; [exact Hr|]. split; [|exact HT].
    apply lcm_denominators_divide; [exact Hr|]. exact HE.
  - rewrite <- Hm at 1. apply lcm_denominators_divide; [exact Hr|]. exact HE.
Qed.

Lemma inflated_ramification (A : ContinuousGeneralizedSeries) (q : nat) :
  cgs_wf A -> c_tail A <> [] -> (1 < q)%nat ->
  new_ramification (subst_xpow q (c_exp A)) (map (subst_step q) (c_tail A))
    (c_ramification A * Z.of_nat q) = c_ramification A.
Proof.
  intros H Hne Hq. pose proof (wf_ram A H) as Hr.
  set (r := c_ramification A) in *. set (s := r * Z.of_nat q).
  assert (Hs : 0 < s) by (unfold s; nia).
  destruct (tail_ring_fix_inv _ (wf_tail A H)) as [Hn Hwf].
  rewrite new_ramification_unfold. cbv zeta.
  set (n0 := lcm_list (map (exponent_denominator s) (exponents (subst_xpow q (c_exp A))))).
  assert (Hn0 : forall m, (n0 | m) <-> fits r (exponents (c_exp A)) m).
  { intros m. unfold n0. rewrite lcm_denominators_divide by exact Hs.
    apply fits_subst_xpow; [lia|apply (wf_exp A H)]. }
  assert (Hle : n0 <= r).
  { apply Z.divide_pos_le; [exact Hr|]. apply Hn0. apply fits_multiple. apply Z.divide_refl. }
  destruct (Z.ltb_spec n0 s) as [_|Hge]; [|unfold s in Hge; nia].
  apply same_multiples; [apply tail_fold_pos; apply lcm_denominators_pos|exact Hr|].
  intros m. rewrite tail_fold_divide by exact Hs. rewrite Hn0.
  pose proof (ramification_characterised A m H) as HC. fold r in HC. rewrite HC.
  assert (HT : tail_fits s (coefficients (map (subst_step q) (c_tail A))) m
               <-> tail_fits r (coefficients (c_tail A)) m).
  { apply tail_fits_map.
    - intros c Hc. apply subst_step_zero; [lia|apply Hwf; exact Hc].
    - intros c Hc. apply In_coefficients in Hc as [Hc Hz].
      unfold subst_step. rewrite Hz. unfold ps_exponents, ps_subst_xpow. cbn [ps_poly].
      apply fits_subst_xpow; [lia|apply (Hwf c Hc)]. }
  rewrite HT. reflexivity.
Qed.

(** [__inflate(s)].  A target [s <= 0] raises the [ValueError] about [s]
    (for a series, whose ramification is positive).  For a positive
    multiple [s] of the ramification, the pair [(E, T)] that is returned
    satisfies what the docstring promises: the constructor applied to [T],
    [exp=E] and [ramification=s] returns a series that compares equal to
    the series, with its ramification, its exponential part and all the
    coefficients of its tail. *)
Theorem inflate_round_trip (A : ContinuousGeneralizedSeries) (s : Z) :
  cgs_value A ->
  (s <= 0 ->
   cgs_inflate A s
   = Raise (ValueError s_must_be_a_positive_integer_multiple_of_the_ramification))
  /\ (0 < s -> (c_ramification A | s) ->
      exists E T R,
        cgs_inflate A s = Ok (E, T)
        /\ cgs_init (FromTail T) E s false = Ok R
        /\ cgs_eq R A = true
        /\ c_ramification R = c_ramification A
        /\ c_exp R = c_exp A
        /\ map ps_poly (c_tail R) = map ps_poly (c_tail A)).
Proof.
  intros VA. pose proof (cgs_value_wf A VA) as H.
  pose proof (wf_ram A H) as Hr. split.
  { intros Hs. unfold cgs_inflate, cgs_ramification.
    destruct (Z.eqb_spec s (c_ramification A)); [lia|].
    destruct (Z.eqb_spec (c_ramification A) 0); [lia|].
    destruct (Z.leb_spec s 0); [reflexivity|lia]. }
  intros Hs Hd.
  destruct (Z.eq_dec s (c_ramification A)) as [->|Hne].
  { exists (c_exp A), (c_tail A), A. split; [apply inflate_same|].
    split; [apply cgs_init_fix; exact H|]. split; [apply cgs_eq_refl|]. auto. }
  assert (Hcase : c_tail A = [] \/ c_tail A <> []).
  { destruct (c_tail A); [left; reflexivity|right; discriminate]. }
  destruct Hcase as [Et|Hnz].
  { pose proof (wf_zero A H Et) as EA. subst A.
    exists [], [], cgs_zero. split; [apply inflate_zero; exact Hs|].
    split; [|auto]. unfold cgs_init. cbn [tail_ring map norm is_zero_poly].
    destruct (Z.leb_spec s 0); [lia|reflexivity]. }
  rewrite inflate_quo by assumption.
  destruct Hd as [k Hk].
  assert (Hdiv : s / c_ramification A = k) by (rewrite Hk; apply Z.div_mul; lia).
  rewrite Hdiv. set (q := Z.to_nat k).
  assert (Hq : (1 < q)%nat) by (unfold q; nia).
  assert (Es : s = c_ramification A * Z.of_nat q) by (unfold q; rewrite Z2Nat.id; lia).
  destruct (tail_ring_fix_inv _ (wf_tail A H)) as [Hn Hwf].
  rewrite map_coefficients_eq. fold (subst_step q).
  destruct (tail_ok_map (subst_step q) (c_tail A) (wf_tail A H)) as [H1 H2].
  { intros. apply subst_step_wf; [lia|assumption]. }
  { intros. apply subst_step_zero; [lia|assumption]. }
  { destruct (wf_val A H Hnz) as [c [Hc Hc0]]. exists c. split; [exact Hc|].
    apply subst_step_coeff; [lia|exact Hc0]. }
  rewrite H1.
  pose proof (inflated_ramification A q H Hnz Hq) as Hnew. rewrite <- Es in Hnew.
  assert (Hrk : s / c_ramification A = Z.of_nat q) by (rewrite Hdiv; unfold q; rewrite Z2Nat.id; lia).
  eexists _, _, (CGS (c_ramification A) (c_exp A) (map erase_prec (c_tail A))).
  split; [reflexivity|]. split.
  - rewrite cgs_init_steps;
      [|exact Hs|rewrite (proj1 H2); apply (tail_ok_nonempty _ H2)].
    destruct H2 as [H2 H3]. rewrite H2.
    unfold subst_xpow at 1. rewrite norm_idem. fold (subst_xpow q (c_exp A)).
    rewrite valuation_step_zero; [|exact Hs|exact H3]. cbn [bind fst snd].
    unfold ramification_step. rewrite Hnew.
    destruct (Z.eqb_spec (c_ramification A) s) as [E|_]; [congruence|].
    rewrite Hrk, Nat2Z.id.
    rewrite rescaled_subst_xpow by (lia || apply (wf_exp A H)).
    rewrite map_map. rewrite (map_ext_in _ erase_prec).
    + destruct (tail_ok_map erase_prec (c_tail A) (wf_tail A H)) as [G1 _].
      * intros. apply erase_prec_wf. assumption.
      * reflexivity.
      * apply (wf_val A H Hnz).
      * rewrite G1. reflexivity.
    + intros c Hc. apply rescaled_subst_step; [lia|apply Hwf; exact Hc].
  - cbn [c_ramification c_exp c_tail]. split.
    + unfold cgs_eq. cbn [c_ramification c_exp c_tail].
      rewrite Z.eqb_refl, poly_eqb_refl, tpoly_eqb_erase. reflexivity.
    + split; [reflexivity|]. split; [reflexivity|]. rewrite map_map. reflexivity.
Qed.

Lemma inflate_round_trip_witness :
  cgs_inflate truncated_series (-2)
  = Raise (ValueError s_must_be_a_positive_integer_multiple_of_the_ramification)
  /\ exists E T R,
       cgs_inflate truncated_series 6 = Ok (E, T)
       /\ cgs_init (FromTail T) E 6 false = Ok R
       /\ cgs_eq R truncated_series = true
       /\ c_ramification R = c_ramification truncated_series
       /\ c_exp R = c_exp truncated_series
       /\ map ps_poly (c_tail R) = map ps_poly (c_tail truncated_series).
Proof.
  split.
  - apply (proj1 (inflate_round_trip truncated_series (-2) truncated_series_value)). lia.
  - apply (proj2 (inflate_round_trip truncated_series 6 truncated_series_value)); [lia|].
    exists 3. reflexivity.
Defined.

(** ** Precision *)

Lemma eprec_min_list_none (l : list pseries) :
  (forall c, In c l -> ps_prec c = None) -> eprec_min_list (map ps_prec l) = None.
Proof.
  induction l as [|c l IH]; intros H; [reflexivity|].
  cbn [map eprec_min_list fold_right]. fold (eprec_min_list (map ps_prec l)).
  rewrite IH by (intros; apply H; simpl; auto).
  rewrite (H c) by (simpl; auto). reflexivity.
Qed.

Lemma cgs_prec_exact (A : ContinuousGeneralizedSeries) :
  (forall c, In c (c_tail A) -> ps_prec c = None) -> cgs_prec A = None.
Proof.
  intros H. unfold cgs_prec. destruct (is_zero_poly (c_tail A)); [reflexivity|].
  apply eprec_min_list_none. intros c Hc. apply H.
  unfold coefficients in Hc. apply filter_In in Hc. apply Hc.
Qed.

(** When the constructor reduces the ramification, the precision of the
    tail is forgotten: the rescaled coefficients are built without a
    precision, so [prec()] of the result is infinite whatever the
    precisions of the given tail were. *)
Theorem ramification_reduction_forgets_precision (tail : list pseries) (exp : list Qc)
    (r : Z) (make_monic : bool) :
  0 < r ->
  exists A, cgs_init (FromTail tail) exp r make_monic = Ok A
    /\ (c_ramification A <> r -> cgs_prec A = None).
Proof.
  intros Hr. destruct (cgs_init_total tail exp r make_monic Hr) as [A HA].
  exists A. split; [exact HA|]. intros Hne.
  destruct (tail_ring tail) as [|c0 p0] eqn:Et.
  { unfold cgs_init in HA. rewrite Et in HA. destruct (_ <=? _); [discriminate|].
    injection HA as <-. reflexivity. }
  rewrite cgs_init_steps in HA; [|exact Hr|rewrite Et; discriminate].
  destruct (valuation_step r (norm exp) (tail_ring tail)) as [[E1 p1]|e]; [|discriminate].
  cbn [bind fst snd] in HA. injection HA as <-.
  unfold ramification_step in *.
  destruct (Z.eqb_spec (new_ramification E1 p1 r) r) as [E|E];
    cbn [c_ramification] in Hne; [congruence|].
  apply cgs_prec_exact. cbn [c_tail].
  assert (Hresc : forall c, In c (norm (map (ps_rescaled (Z.to_nat (r / new_ramification E1 p1 r)))
                                        p1)) -> ps_prec c = None).
  { intros c Hc. apply norm_In in Hc. apply in_map_iff in Hc as [c' [<- _]]. reflexivity. }
  destruct make_monic; [|exact Hresc].
  intros c Hc. unfold make_monic_tail in Hc. apply norm_In in Hc.
  apply in_map_iff in Hc as [c' [<- Hc']]. unfold ps_scale, mk_ps. cbn [ps_prec].
  apply Hresc. exact Hc'.
Qed.

Lemma ramification_reduction_forgets_precision_witness :
  exists A, cgs_init (FromTail [PS [1; 0; 1]%Qc (Some 4%nat)]) [] 2 false = Ok A
    /\ c_ramification A = 1 /\ cgs_prec A = None.
Proof.
  destruct (ramification_reduction_forgets_precision [PS [1; 0; 1]%Qc (Some 4%nat)] [] 2 false)
    as [A [HA HP]]; [lia|].
  exists A. split; [exact HA|].
  assert (Hr : c_ramification A = 1).
  { assert (E : cgs_init (FromTail [PS [1; 0; 1]%Qc (Some 4%nat)]) [] 2 false
                = Ok (CGS 1 [] [PS [1; 1]%Qc None])) by decide_cgs.
    rewrite E in HA. injection HA as <-. reflexivity. }
  split; [exact Hr|]. apply HP. rewrite Hr. lia.
Defined.

(** ** Products of polynomials over [K] *)

Lemma qsum_app (l m : list Qc) : qsum (l ++ m) = (qsum l + qsum m)%Qc.
Proof. induction l as [|a l IH]; simpl; [ring|]. rewrite IH. ring. Qed.

Lemma qsum_map_ext {A : Type} (f g : A -> Qc) (l : list A) :
  (forall a, In a l -> f a = g a) -> qsum (map f l) = qsum (map g l).
Proof.
  induction l as [|a l IH]; intros H; [reflexivity|]. simpl.
  rewrite (H a) by (simpl; auto). rewrite IH by (intros; apply H; simpl; auto). reflexivity.
Qed.

Lemma qsum_zero {A : Type} (f : A -> Qc) (l : list A) :
  (forall a, In a l -> f a = 0%Qc) -> qsum (map f l) = 0%Qc.
Proof.
  induction l as [|a l IH]; intros H; [reflexivity|]. simpl.
  rewrite (H a) by (simpl; auto). rewrite IH by (intros; apply H; simpl; auto). ring.
Qed.

Lemma qsum_scale {A : Type} (c : Qc) (f : A -> Qc) (l : list A) :
  qsum (map (fun a => c * f a) l)%Qc = (c * qsum (map f l))%Qc.
Proof. induction l as [|a l IH]; simpl; [ring|]. rewrite IH. ring. Qed.

Lemma qsum_plus {A : Type} (f g : A -> Qc) (l : list A) :
  qsum (map (fun a => f a + g a) l)%Qc = (qsum (map f l) + qsum (map g l))%Qc.
Proof. induction l as [|a l IH]; simpl; [ring|]. rewrite IH. ring. Qed.

(** A sum with a single term that is not zero. *)
Lemma qsum_single (f : nat -> Qc) (s n k : nat) :
  (s <= k < s + n)%nat ->
  (forall i, (s <= i < s + n)%nat -> i <> k -> f i = 0%Qc) ->
  qsum (map f (seq s n)) = f k.
Proof.
  revert s. induction n as [|n IH]; intros s Hk H; [lia|].
  cbn [seq map qsum fold_right]. fold (qsum (map f (seq (S s) n))).
  destruct (Nat.eq_dec s k) as [->|Hne].
  - rewrite qsum_zero; [ring|]. intros i Hi. apply in_seq in Hi. apply H; lia.
  - rewrite H by lia. rewrite IH; [ring|lia|]. intros i Hi Hik. apply H; lia.
Qed.

Lemma coeff_cons_S (a : Qc) (p : poly) (k : nat) : coeff (a :: p) (S k) = coeff p k.
Proof. reflexivity. Qed.

Lemma coeff_mul_raw (p q : poly) (n : nat) : coeff (mul_raw p q) n = conv p q n.
Proof.
  revert n. induction p as [|a p IH]; intros n.
  - cbn [mul_raw]. rewrite coeff_nil. unfold conv. symmetry. apply qsum_zero.
    intros i _. rewrite coeff_nil. ring.
  - cbn [mul_raw]. rewrite coeff_add_raw. change (cmul a) with (Qcmult a).
    rewrite coeff_map_scale. unfold conv.
    cbn [seq map qsum fold_right].
    fold (qsum (map (fun i => coeff (a :: p) i * coeff q (n - i))%Qc (seq 1 n))).
    replace (n - 0)%nat with n by lia. change (coeff (a :: p) 0) with a. f_equal.
    destruct n as [|n].
    + reflexivity.
    + change (coeff (czero :: mul_raw p q) (S n)) with (coeff (mul_raw p q) n).
      rewrite IH. unfold conv. rewrite <- seq_shift, map_map.
      apply qsum_map_ext. intros i _. reflexivity.
Qed.

Lemma coeff_mul (p q : poly) (n : nat) : coeff (mul p q) n = conv p q n.
Proof. unfold mul. rewrite coeff_norm. apply coeff_mul_raw. Qed.

Lemma coeff_monomial (n j : nat) :
  coeff (monomial n : poly) j = if Nat.eqb j n then 1%Qc else 0%Qc.
Proof.
  unfold monomial, coeff. destruct (Nat.eqb_spec j n) as [->|H].
  - rewrite app_nth2 by (rewrite repeat_length; lia).
    rewrite repeat_length, Nat.sub_diag. reflexivity.
  - destruct (Nat.lt_ge_cases j n).
    + rewrite app_nth1 by (rewrite repeat_length; lia). apply nth_repeat.
    + rewrite app_nth2 by (rewrite repeat_length; lia). rewrite repeat_length.
      destruct (j - n)%nat as [|[|k]] eqn:E; [lia|reflexivity|reflexivity].
Qed.

Lemma coeff_fold_add (l : list poly) (acc : poly) (j : nat) :
  coeff (fold_left add l acc) j = (coeff acc j + qsum (map (fun x => coeff x j) l))%Qc.
Proof.
  revert acc. induction l as [|x l IH]; intros acc; simpl; [ring|].
  rewrite IH, coeff_add. ring.
Qed.

Lemma coeff_sum (l : list poly) (j : nat) :
  coeff (sum l) j = qsum (map (fun x => coeff x j) l).
Proof. unfold sum. rewrite coeff_fold_add, coeff_nil. ring. Qed.

(** ** The shift quotient of a power *)

Lemma Qcpower_1 (n : nat) : (1 ^ n)%Qc = 1%Qc.
Proof. induction n as [|n IH]; [reflexivity|]. simpl. rewrite IH. ring. Qed.

Lemma binomial_zero (k : nat) : _binomial 0 k = if Nat.eqb k 0 then 1%Qc else 0%Qc.
Proof.
  destruct k as [|k]; [reflexivity|]. cbn [Nat.eqb].
  rewrite binomial_absorption. unfold Qcdiv. ring.
Qed.

Lemma shift_quotient_base (rho : Qc) (shift : nat) (P : nat) (S0 : poly) (j : nat) :
  let cert1 := if negb (Qc_eq_bool rho 1) then scale (rho ^ shift)%Qc (monomial P)
               else monomial P in
  coeff (mul cert1 S0) (P + j) = (rho ^ shift * coeff S0 j)%Qc.
Proof.
  intros cert1.
  assert (Hc : forall i, coeff cert1 i = if Nat.eqb i P then (rho ^ shift)%Qc else 0%Qc).
  { intros i. unfold cert1. destruct (Qc_eq_bool rho 1) eqn:E; cbn [negb].
    - apply Qc_eq_bool_true in E. subst rho. rewrite Qcpower_1. apply coeff_monomial.
    - rewrite coeff_scale, coeff_monomial. destruct (Nat.eqb i P); ring. }
  rewrite coeff_mul. unfold conv.
  rewrite (qsum_single _ 0 (S (P + j)) P); [| lia |].
  - rewrite Hc, Nat.eqb_refl. f_equal. f_equal. lia.
  - intros i _ Hi. rewrite Hc. destruct (Nat.eqb_spec i P); [contradiction|ring].
Qed.

(** The shift quotient of [rho^n * n^alpha] (no superexponential and no
    subexponential part), for a positive shift [i] and a precision
    [prec >= 0]: the polynomial that is returned has the coefficient
    [rho^i * binomial(alpha, k) * i^k] at [x^(prec - k)] for [k <= prec]
    and no term above [x^prec]; that is, divided by [x^prec] it is the
    expansion of [rho^i * (1 + i/x)^alpha] up to [x^(-prec)]. *)
Theorem shift_quotient_of_a_power (prec shift : Z) (rho alpha : Qc) :
  0 < shift -> 0 <= prec ->
  exists cert,
    _generalized_series_shift_quotient (Finite prec) shift 0 rho None alpha
    = Ok (Polynomial cert)
    /\ (forall k, (k <= Z.to_nat prec)%nat ->
          coeff cert (Z.to_nat prec - k)
          = (rho ^ Z.to_nat shift * (_binomial alpha k * Z2Qc shift ^ k))%Qc)
    /\ (forall j, (Z.to_nat prec < j)%nat -> coeff cert j = 0%Qc).
Proof.
  intros Hs Hp. unfold _generalized_series_shift_quotient.
  destruct (Z.eqb_spec shift 0); [lia|]. destruct (Z.ltb_spec shift 0); [lia|].
  change (Qc_eq_bool 0 0) with true. cbn [negb].
  destruct (Z.ltb_spec prec 0); [lia|]. cbn [bind].
  set (P := Z.to_nat prec).
  set (cert1 := if negb (Qc_eq_bool rho 1)
                then scale (rho ^ Z.to_nat shift)%Qc (monomial P)
                else monomial P).
  destruct (Qc_eq_bool alpha 0) eqn:Ea; cbn [negb bind].
  - apply Qc_eq_bool_true in Ea. subst alpha.
    exists cert1. split; [reflexivity|].
    assert (Hc : forall i, coeff cert1 i
                 = if Nat.eqb i P then (rho ^ Z.to_nat shift)%Qc else 0%Qc).
    { intros i. unfold cert1. destruct (Qc_eq_bool rho 1) eqn:E; cbn [negb].
      - apply Qc_eq_bool_true in E. subst rho. rewrite Qcpower_1. apply coeff_monomial.
      - rewrite coeff_scale, coeff_monomial. destruct (Nat.eqb i P); ring. }
    split.
    + intros k Hk. rewrite Hc, binomial_zero.
      destruct k as [|k].
      * replace (P - 0)%nat with P by lia. rewrite Nat.eqb_refl. simpl. ring.
      * destruct (Nat.eqb_spec (P - S k) P); [lia|]. cbn [Nat.eqb]. ring.
    + intros j Hj. rewrite Hc. destruct (Nat.eqb_spec j P); [lia|reflexivity].
  - change (denominator 0%Qc) with (Z.of_nat 1). rewrite to_exponent_nat. cbn [bind].
    eexists. split; [reflexivity|].
    set (S0 := sum _).
    assert (HS : forall j, coeff S0 j
                 = if (j <=? P)%nat
                   then (_binomial alpha (P - j) * Z2Qc shift ^ (P - j))%Qc else 0%Qc).
    { intros j. unfold S0. rewrite coeff_sum, map_map.
      destruct (Nat.leb_spec j P) as [Hj|Hj].
      - rewrite (qsum_single _ 0 (P + 1) (P - j)); [|lia|].
        + rewrite coeff_scale, coeff_monomial.
          replace (1 * (P - (P - j)))%nat with j by lia. rewrite Nat.eqb_refl. ring.
        + intros i Hi Hne. rewrite coeff_scale, coeff_monomial.
          destruct (Nat.eqb_spec j (1 * (P - i))); [lia|ring].
      - apply qsum_zero. intros i Hi. apply in_seq in Hi.
        rewrite coeff_scale, coeff_monomial.
        destruct (Nat.eqb_spec j (1 * (P - i))); [lia|ring]. }
    split.
    + intros k Hk. rewrite coeff_skipn.
      replace (1 * P + (P - k))%nat with (P + (P - k))%nat by lia.
      unfold cert1. rewrite shift_quotient_base, HS.
      destruct (Nat.leb_spec (P - k) P); [|lia].
      replace (P - (P - k))%nat with k by lia. reflexivity.
    + intros j Hj. rewrite coeff_skipn.
      replace (1 * P + j)%nat with (P + j)%nat by lia.
      unfold cert1. rewrite shift_quotient_base, HS.
      destruct (Nat.leb_spec j P); [lia|ring].
Qed.

Lemma shift_quotient_of_a_power_witness :
  exists cert,
    _generalized_series_shift_quotient (Finite 3) 2 0 (Z2Qc 5) None (rat 1 2)
    = Ok (Polynomial cert)
    /\ (forall k, (k <= Z.to_nat 3)%nat ->
          coeff cert (Z.to_nat 3 - k)
          = (Z2Qc 5 ^ Z.to_nat 2 * (_binomial (rat 1 2) k * Z2Qc 2 ^ k))%Qc)
    /\ (forall j, (Z.to_nat 3 < j)%nat -> coeff cert j = 0%Qc).
Proof. apply (shift_quotient_of_a_power 3 2 (Z2Qc 5) (rat 1 2)); lia. Defined.

(** ** Inversion of continuous series without logarithms *)








(** ** The registry of monoids *)

Section RegistryFacts.
Variable parent_init : base_ring -> String.string -> bool.

Lemma base_ring_is_true (a b : base_ring) : base_ring_is a b = true <-> a = b.
Proof.
  destruct a, b; simpl; split; intros H; try discriminate; try reflexivity;
    try (apply Nat.eqb_eq in H; congruence);
    try (injection H as ->; apply Nat.eqb_refl).
Qed.

Lemma monoid_eq_true (m M : GeneralizedSeriesMonoid_class) : monoid_eq m M = true <-> m = M.
Proof.
  unfold monoid_eq. rewrite !andb_true_iff, !String.eqb_eq, base_ring_is_true.
  destruct m, M; simpl. split.
  - intros [[-> ->] ->]. reflexivity.
  - intros H. injection H as -> -> ->. auto.
Qed.

Lemma find_monoid (registry : list GeneralizedSeriesMonoid_class)
    (M : GeneralizedSeriesMonoid_class) :
  (In M registry /\ find (fun m => monoid_eq m M) registry = Some M)
  \/ (~ In M registry /\ find (fun m => monoid_eq m M) registry = None).
Proof.
  destruct (find (fun m => monoid_eq m M) registry) as [m|] eqn:F.
  - left. apply find_some in F as [Hin Heq]. apply monoid_eq_true in Heq. subst m. auto.
  - right. split; [|reflexivity]. intros Hin.
    apply (find_none _ _ F) in Hin. rewrite (proj2 (monoid_eq_true M M) eq_refl) in Hin.
    discriminate.
Qed.

Lemma registry_step (registry : list GeneralizedSeriesMonoid_class) (base : base_ring)
    (x type : String.string) :
  NoDup registry -> NoDup (snd (GeneralizedSeriesMonoid parent_init registry base x type)).
Proof.
  intros H. unfold GeneralizedSeriesMonoid.
  destruct (monoid_init parent_init base x type) as [e|M]; [exact H|].
  destruct (find_monoid registry M) as [[_ ->]|[Hn ->]]; [exact H|]. cbn [snd].
  apply NoDup_app; [exact H|repeat constructor; simpl; tauto|].
  intros m Hm [<-|[]]. contradiction.
Qed.

(** The function [GeneralizedSeriesMonoid] keeps one copy of every monoid.
    In every registry that calls of the function produce from the empty
    list, no monoid occurs twice.  A call whose arguments the constructor
    refuses raises that exception and leaves the registry as it is.  A call
    with valid arguments returns the monoid of these arguments, which is in
    the registry afterwards; the registry is unchanged when the monoid was
    in it already; and the same call made again returns the same monoid and
    leaves the registry unchanged. *)
Theorem monoid_registry_keeps_one_copy (registry : list GeneralizedSeriesMonoid_class)
    (base : base_ring) (x type : String.string) :
  registry_reachable parent_init registry ->
  NoDup registry
  /\ (forall e, monoid_init parent_init base x type = inl e ->
        GeneralizedSeriesMonoid parent_init registry base x type = (inl e, registry))
  /\ (forall M, monoid_init parent_init base x type = inr M ->
        exists registry',
          GeneralizedSeriesMonoid parent_init registry base x type = (inr M, registry')
          /\ In M registry'
          /\ (In M registry -> registry' = registry)
          /\ GeneralizedSeriesMonoid parent_init registry' base x type = (inr M, registry')).
Proof.
  intros HR.
  assert (HN : NoDup registry).
  { induction HR as [|registry b y t _ IH]; [constructor|]. apply registry_step. exact IH. }
  split; [exact HN|]. split.
  - intros e He. unfold GeneralizedSeriesMonoid. rewrite He. reflexivity.
  - intros M HM. unfold GeneralizedSeriesMonoid. rewrite HM.
    destruct (find_monoid registry M) as [[Hin ->]|[Hn ->]].
    + exists registry. split; [reflexivity|]. split; [exact Hin|]. split; [reflexivity|].
      destruct (find_monoid registry M) as [[_ ->]|[Hn _]]; [reflexivity|contradiction].
    + exists (registry ++ [M]). split; [reflexivity|].
      assert (Hin : In M (registry ++ [M])) by (apply in_or_app; right; simpl; auto).
      split; [exact Hin|]. split; [intros; contradiction|].
      destruct (find_monoid (registry ++ [M]) M) as [[_ ->]|[Hn' _]];
        [reflexivity|contradiction].
Qed.

End RegistryFacts.

Lemma monoid_registry_keeps_one_copy_witness :
  NoDup example_registry
  /\ GeneralizedSeriesMonoid accept_all example_registry RationalField "xLOG"%string
       "discrete"%string
     = (inl generator_name_must_not_contain_the_substring_LOG, example_registry)
  /\ exists registry',
       GeneralizedSeriesMonoid accept_all example_registry RationalField "x"%string
         "discrete"%string
       = (inr (Monoid RationalField "x"%string "discrete"%string), registry')
       /\ In (Monoid RationalField "x"%string "discrete"%string) registry'
       /\ (In (Monoid RationalField "x"%string "discrete"%string) example_registry
           -> registry' = example_registry)
       /\ GeneralizedSeriesMonoid accept_all registry' RationalField "x"%string
            "discrete"%string
          = (inr (Monoid RationalField "x"%string "discrete"%string), registry').
Proof.
  assert (HR : registry_reachable accept_all example_registry).
  { apply registry_call. apply registry_empty. }
  destruct (monoid_registry_keeps_one_copy accept_all example_registry RationalField
              "xLOG"%string "discrete"%string HR) as (H1 & H2 & _).
  destruct (monoid_registry_keeps_one_copy accept_all example_registry RationalField
              "x"%string "discrete"%string HR) as (_ & _ & H3).
  refine (conj H1 (conj (H2 _ _) (H3 _ _))); reflexivity.
Defined.

(** ** The order of the operands of sums and products *)

(** *** Sums *)

Lemma add_raw_comm {A : Type} {C : Coeff A} (l m : list A) :
  (forall a b, cadd a b = cadd b a) -> add_raw l m = add_raw m l.
Proof.
  intros H. revert m. induction l as [|a l IH]; intros [|b m]; try reflexivity.
  cbn [add_raw]. rewrite H, IH. reflexivity.
Qed.

Lemma eprec_min_comm (a b : eprec) : eprec_min a b = eprec_min b a.
Proof. destruct a, b; simpl; try reflexivity. rewrite Nat.min_comm. reflexivity. Qed.

Lemma ps_add_comm (a b : pseries) : ps_add a b = ps_add b a.
Proof.
  unfold ps_add. rewrite (eprec_min_comm (ps_prec a)).
  rewrite (add_raw_comm (ps_poly a)); [reflexivity|]. intros x y. apply Qcplus_comm.
Qed.

Lemma tail_add_comm (S T : tpoly) : add S T = add T S.
Proof. unfold add. rewrite (add_raw_comm S); [reflexivity|]. apply ps_add_comm. Qed.

Lemma poly_add_comm (p q : poly) : add p q = add q p.
Proof.
  unfold add. rewrite (add_raw_comm p); [reflexivity|]. intros x y. apply Qcplus_comm.
Qed.

Lemma numerator_opp (c : Qc) : numerator (- c) = (- numerator c)%Z.
Proof.
  unfold numerator, Qcopp. cbn [this Q2Qc]. rewrite Qred_opp.
  rewrite (canon c). reflexivity.
Qed.

Lemma poly_to_ZZ_opp (d : poly) (z : Z) :
  poly_to_ZZ d = Ok z -> poly_to_ZZ (map Qcopp d) = Ok (- z).
Proof.
  destruct d as [|c [|c' d]]; cbn [map poly_to_ZZ]; intros H; try discriminate.
  - injection H as <-. reflexivity.
  - unfold to_ZZ in *. unfold in_ZZ in *. rewrite denominator_opp.
    destruct (denominator c =? 1); [|discriminate]. injection H as <-.
    rewrite numerator_opp. reflexivity.
Qed.

Lemma scale_nil_inv (s : Qc) (p : poly) :
  s <> 0%Qc -> norm p = p -> scale s p = [] -> p = [].
Proof.
  intros Hs Hp H. apply poly_ext; [exact Hp|reflexivity|].
  intros k. rewrite coeff_nil.
  assert (E : coeff (scale s p) k = 0%Qc) by (rewrite H; apply coeff_nil).
  rewrite coeff_scale in E. apply (Qcmult_nonzero s); assumption.
Qed.

Lemma sub_nil_inv (p q : poly) : norm p = p -> norm q = q -> sub p q = [] -> p = q.
Proof.
  intros Hp Hq H. apply poly_ext; [exact Hp|exact Hq|].
  intros k. assert (E : coeff (sub p q) k = 0%Qc) by (rewrite H; apply coeff_nil).
  rewrite coeff_sub in E.
  transitivity (coeff p k - coeff q k + coeff q k)%Qc; [ring|]. rewrite E. ring.
Qed.

Lemma poly_to_ZZ_zero (d : poly) : norm d = d -> poly_to_ZZ d = Ok 0 -> d = [].
Proof.
  destruct d as [|c [|c' d]]; cbn [poly_to_ZZ]; intros Hn H; try discriminate; [reflexivity|].
  exfalso. unfold to_ZZ in H. destruct (in_ZZ c) eqn:Hin; [|discriminate].
  injection H as H. apply in_ZZ_Z2Qc in Hin. rewrite H in Hin.
  cbn [norm] in Hn. change (cis_zero c) with (Qc_is_zero c) in Hn.
  rewrite (proj2 (Qc_is_zero_true c) Hin) in Hn. discriminate.
Qed.

Lemma Z2Qc_nonzero (s : Z) : s <> 0 -> Z2Qc s <> 0%Qc.
Proof.
  intros H E. apply (f_equal this) in E. rewrite this_Z2Qc in E.
  change (this 0%Qc) with (inject_Z 0) in E. injection E as E. contradiction.
Qed.

Lemma inflate_wf (A : ContinuousGeneralizedSeries) (s : Z) (a : poly * tpoly) :
  cgs_wf A -> cgs_inflate A s = Ok a -> norm (fst a) = fst a /\ tail_ring (snd a) = snd a.
Proof.
  intros H Ha. unfold cgs_inflate, cgs_ramification in Ha.
  destruct (s =? c_ramification A).
  { injection Ha as <-. split; [apply (wf_exp A H)|apply (wf_tail A H)]. }
  destruct (c_ramification A =? 0); [discriminate|].
  destruct (s <=? 0); [discriminate|].
  destruct ((s mod c_ramification A =? 0) && (0 <? s / c_ramification A)) eqn:G;
    [|discriminate].
  apply andb_prop in G as [_ G]. apply Z.ltb_lt in G.
  injection Ha as <-. cbn [fst snd]. split; [apply norm_idem|].
  rewrite map_coefficients_eq. fold (subst_step (Z.to_nat (s / c_ramification A))).
  destruct (tail_ring_fix_inv _ (wf_tail A H)) as [_ Hwf].
  destruct (tail_map_fix (subst_step (Z.to_nat (s / c_ramification A))) (c_tail A)
              (wf_tail A H)) as [H1 H2].
  - intros c Hc. apply subst_step_wf; [lia|apply Hwf; exact Hc].
  - intros c Hc. apply subst_step_zero; [lia|apply Hwf; exact Hc].
  - rewrite H1. exact H2.
Qed.

(** The sum does not depend on the order of its operands: for two series
    produced by the constructor, [A + B] and [B + A] return the same series
    or raise the same exception. *)
Theorem sum_is_commutative (A B : ContinuousGeneralizedSeries) :
  cgs_value A -> cgs_value B -> cgs_add A B = cgs_add B A.
Proof.
  intros VA VB. pose proof (cgs_value_wf A VA) as HA. pose proof (cgs_value_wf B VB) as HB.
  unfold cgs_add.
  destruct (cgs_is_zero A) eqn:ZA.
  { rewrite (cgs_value_zero A VA ZA) in *. destruct (cgs_is_zero B) eqn:ZB; [|reflexivity].
    rewrite (cgs_value_zero B VB ZB). reflexivity. }
  destruct (cgs_is_zero B) eqn:ZB; [reflexivity|].
  destruct (inflate_lcm A B HA HB) as [a [b [Ea Eb]]].
  unfold cgs_similar, cgs_ramification.
  rewrite (Z.lcm_comm (c_ramification B) (c_ramification A)).
  set (s := Z.lcm (c_ramification A) (c_ramification B)) in *.
  rewrite Ea, Eb. cbn [bind].
  rewrite (scaled_difference_opp (Z2Qc s) (fst a) (fst b)).
  set (d := scale (Z2Qc s) (sub (fst a) (fst b))).
  rewrite (proj1 (poly_in_opp d)).
  destruct (poly_in_ZZ d) eqn:Hin; cbn [negb]; [|reflexivity].
  destruct (poly_to_ZZ_total d Hin) as [z Hz].
  rewrite Hz, (poly_to_ZZ_opp d z Hz). cbn [bind].
  destruct (inflate_wf A s a HA Ea) as [Na Ta].
  destruct (inflate_wf B s b HB Eb) as [Nb Tb].
  destruct (Z.ltb_spec z 0) as [L|L].
  - destruct (Z.ltb_spec (- z) 0); [lia|]. reflexivity.
  - destruct (Z.ltb_spec (- z) 0) as [L'|L'].
    + rewrite Z.opp_involutive. reflexivity.
    + assert (z = 0) by lia. subst z. cbn [Z.opp Z.to_nat].
      change (ps_xpow 0) with ps_one. rewrite !tail_scale_one by assumption.
      assert (Hs : 0 < s).
      { apply lcm_pos; [apply (wf_ram A HA)|apply (wf_ram B HB)]. }
      assert (E : fst a = fst b).
      { apply sub_nil_inv; [exact Na|exact Nb|].
        apply (scale_nil_inv (Z2Qc s)); [apply Z2Qc_nonzero; lia|unfold sub; apply norm_idem|].
        apply poly_to_ZZ_zero; [unfold d, scale; apply norm_idem|exact Hz]. }
      rewrite E, (tail_add_comm (snd a) (snd b)). reflexivity.
Qed.

Lemma sum_is_commutative_witness :
  cgs_add quadratic_series cgs_one = cgs_add cgs_one quadratic_series.
Proof. apply (sum_is_commutative quadratic_series cgs_one quadratic_series_value cgs_one_value). Defined.

(** *** Products of power series *)

Lemma seq_rev (n : nat) : rev (seq 0 n) = map (fun i => (n - 1 - i)%nat) (seq 0 n).
Proof.
  induction n as [|n IH]; [reflexivity|].
  rewrite seq_S at 1. rewrite rev_app_distr. cbn [rev app Nat.add].
  rewrite IH. cbn [seq map]. f_equal; [lia|].
  rewrite <- seq_shift, map_map. apply map_ext_in. intros i Hi. apply in_seq in Hi. lia.
Qed.

Lemma qsum_rev (l : list Qc) : qsum (rev l) = qsum l.
Proof.
  induction l as [|a l IH]; [reflexivity|].
  cbn [rev]. rewrite qsum_app, IH. simpl. ring.
Qed.

Lemma conv_comm (p q : poly) (n : nat) : conv p q n = conv q p n.
Proof.
  unfold conv. rewrite <- qsum_rev, <- map_rev, seq_rev, map_map.
  apply qsum_map_ext. intros i Hi. apply in_seq in Hi.
  replace (S n - 1 - i)%nat with (n - i)%nat by lia.
  replace (n - (n - i))%nat with i by lia. ring.
Qed.

Lemma coeff_firstn (m : nat) (l : poly) (k : nat) :
  coeff (firstn m l) k = if (k <? m)%nat then coeff l k else 0%Qc.
Proof.
  revert l k. induction m as [|m IH]; intros l k.
  - cbn [firstn]. rewrite coeff_nil. reflexivity.
  - destruct l as [|a l]; [cbn [firstn]; rewrite !coeff_nil; destruct (_ <? _)%nat; reflexivity|].
    cbn [firstn]. destruct k as [|k]; [reflexivity|].
    change (coeff (a :: firstn m l) (S k)) with (coeff (firstn m l) k).
    change (coeff (a :: l) (S k)) with (coeff l k). rewrite IH.
    change (S k <? S m)%nat with (k <? m)%nat. reflexivity.
Qed.

Lemma coeff_truncate (pr : eprec) (l : poly) (k : nat) :
  coeff (truncate pr l) k
  = match pr with
    | Some m => if (k <? m)%nat then coeff l k else 0%Qc
    | None => coeff l k
    end.
Proof. destruct pr; [apply coeff_firstn|reflexivity]. Qed.

Lemma norm_ext (p q : poly) : (forall k, coeff p k = coeff q k) -> norm p = norm q.
Proof.
  intros H. apply poly_ext; try apply norm_idem. intros k. rewrite !coeff_norm. apply H.
Qed.

Lemma mk_ps_ext (p q : poly) (pr : eprec) :
  (forall k, coeff p k = coeff q k) -> mk_ps p pr = mk_ps q pr.
Proof.
  intros H. unfold mk_ps. f_equal. apply norm_ext. intros k.
  rewrite !coeff_truncate. destruct pr; [destruct (_ <? _)%nat|]; auto.
Qed.

Lemma ps_mul_comm (a b : pseries) : ps_mul a b = ps_mul b a.
Proof.
  unfold ps_mul. rewrite (eprec_min_comm (ps_prec a)). apply mk_ps_ext.
  intros k. rewrite !coeff_mul_raw. apply conv_comm.
Qed.

Lemma coeff_mk_ps (l : poly) (pr : eprec) (k : nat) :
  coeff (ps_poly (mk_ps l pr)) k
  = match pr with
    | Some m => if (k <? m)%nat then coeff l k else 0%Qc
    | None => coeff l k
    end.
Proof. unfold mk_ps. cbn [ps_poly]. rewrite coeff_norm. apply coeff_truncate. Qed.

Lemma eprec_min_assoc (a b c : eprec) :
  eprec_min (eprec_min a b) c = eprec_min a (eprec_min b c).
Proof. destruct a, b, c; simpl; try reflexivity. rewrite Nat.min_assoc. reflexivity. Qed.

Lemma ps_add_assoc (a b c : pseries) : ps_add (ps_add a b) c = ps_add a (ps_add b c).
Proof.
  unfold ps_add, mk_ps. cbn [ps_prec ps_poly]. rewrite eprec_min_assoc.
  f_equal. apply norm_ext. intros k. rewrite !coeff_truncate.
  destruct (ps_prec a) as [pa|], (ps_prec b) as [pb|], (ps_prec c) as [pc|];
    cbn [eprec_min];
    repeat first [rewrite coeff_add_raw | rewrite coeff_norm | rewrite coeff_truncate];
    repeat match goal with
    | |- context [(?x <? ?y)%nat] => destruct (Nat.ltb_spec x y)
    end; try ring; try lia.
Qed.

(** *** Products of tails *)

Lemma norm_ext_gen {A : Type} {C : Coeff A} (l m : list A) :
  cis_zero czero = true ->
  (forall k, nth k l czero = nth k m czero) -> norm l = norm m.
Proof.
  intros Hz. 
  assert (Hnil : forall m : list A, (forall k, nth k m czero = czero) -> norm m = []).
  { intros m0 H. apply norm_nil_iff. apply forallb_forall. intros x Hx.
    destruct (In_nth _ _ czero Hx) as [k [_ Hk]]. rewrite <- Hk, H. exact Hz. }
  revert m. induction l as [|a l IH]; intros m H.
  - cbn [norm]. symmetry. apply Hnil. intros k. rewrite <- H. destruct k; reflexivity.
  - destruct m as [|b m].
    + rewrite (Hnil (a :: l)); [reflexivity|]. intros k. rewrite H. destruct k; reflexivity.
    + pose proof (H O) as H0. cbn [nth] in H0. subst b.
      cbn [norm]. rewrite (IH m); [reflexivity|]. intros k. apply (H (S k)).
Qed.

Lemma ps_zero_wf : ps_wf ps_zero.
Proof. split; [reflexivity|]. intros n H. discriminate. Qed.

Lemma ps_add_wf (a b : pseries) : ps_wf (ps_add a b).
Proof. apply mk_ps_wf. Qed.

Lemma ps_mul_wf (a b : pseries) : ps_wf (ps_mul a b).
Proof. apply mk_ps_wf. Qed.

Lemma ps_add_zero_l (c : pseries) : ps_wf c -> ps_add ps_zero c = c.
Proof. intros H. rewrite ps_add_comm. apply ps_add_zero_r. exact H. Qed.

Lemma add_raw_all_wf (l m : tpoly) :
  Forall ps_wf l -> Forall ps_wf m -> Forall ps_wf (add_raw l m).
Proof.
  revert m. induction l as [|a l IH]; intros m Hl Hm; [exact Hm|].
  destruct m as [|b m]; [exact Hl|]. cbn [add_raw].
  constructor; [apply ps_add_wf|]. apply IH; [inversion Hl|inversion Hm]; assumption.
Qed.

Lemma map_all_wf (f : pseries -> pseries) (l : tpoly) :
  (forall c, ps_wf (f c)) -> Forall ps_wf (map f l).
Proof. intros H. apply Forall_forall. intros x Hx. apply in_map_iff in Hx as [y [<- _]]. apply H. Qed.

Lemma mul_raw_all_wf (p q : tpoly) : Forall ps_wf (mul_raw p q).
Proof.
  induction p as [|a p IH]; [constructor|]. cbn [mul_raw].
  apply add_raw_all_wf.
  - apply map_all_wf. intros c. apply ps_mul_wf.
  - constructor; [apply ps_zero_wf|exact IH].
Qed.

Lemma nth_all_wf (l : tpoly) (k : nat) : Forall ps_wf l -> ps_wf (nth k l ps_zero).
Proof.
  intros H. destruct (Nat.lt_ge_cases k (length l)) as [Hk|Hk].
  - rewrite Forall_forall in H. apply H. apply nth_In. exact Hk.
  - rewrite nth_overflow by exact Hk. apply ps_zero_wf.
Qed.

Lemma tcoeff_add_raw (l m : tpoly) (k : nat) :
  Forall ps_wf l -> Forall ps_wf m ->
  nth k (add_raw l m) ps_zero = ps_add (nth k l ps_zero) (nth k m ps_zero).
Proof.
  revert m k. induction l as [|a l IH]; intros m k Hl Hm.
  - cbn [add_raw]. replace (nth k [] ps_zero) with ps_zero by (destruct k; reflexivity).
    rewrite ps_add_zero_l; [reflexivity|]. apply nth_all_wf. exact Hm.
  - destruct m as [|b m].
    + cbn [add_raw]. replace (nth k [] ps_zero) with ps_zero by (destruct k; reflexivity).
      rewrite ps_add_zero_r; [reflexivity|]. apply nth_all_wf. exact Hl.
    + cbn [add_raw]. destruct k as [|k]; [reflexivity|]. cbn [nth].
      apply IH; [inversion Hl|inversion Hm]; assumption.
Qed.

Lemma nth_map_mapped (f : pseries -> pseries) (l : tpoly) (k : nat) :
  nth k (map f l) ps_zero = mapped f l k.
Proof.
  unfold mapped. destruct (Nat.ltb_spec k (length l)) as [H|H].
  - rewrite (nth_indep _ ps_zero (f ps_zero)) by (rewrite length_map; exact H).
    apply map_nth.
  - apply nth_overflow. rewrite length_map. exact H.
Qed.

Lemma mapped_wf (f : pseries -> pseries) (l : tpoly) (k : nat) :
  (forall c, ps_wf (f c)) -> ps_wf (mapped f l k).
Proof. intros H. unfold mapped. destruct (_ <? _)%nat; [apply H|apply ps_zero_wf]. Qed.

Lemma mapped_cons_S f a l k : mapped f (a :: l) (S k) = mapped f l k.
Proof. reflexivity. Qed.

Lemma mapped_cons_0 f a l : mapped f (a :: l) 0 = f a.
Proof. reflexivity. Qed.

Lemma ps_add_swap (a b c : pseries) : ps_add a (ps_add b c) = ps_add b (ps_add a c).
Proof. rewrite <- !ps_add_assoc. rewrite (ps_add_comm a b). reflexivity. Qed.

(** The product by rows equals the product by columns. *)
Lemma mul_raw_column (p q : tpoly) (b : pseries) (k : nat) :
  nth k (mul_raw p (b :: q)) ps_zero
  = ps_add (mapped (fun a => ps_mul a b) p k) (nth k (ps_zero :: mul_raw p q) ps_zero).
Proof.
  revert k. induction p as [|a p IH]; intros k.
  - cbn [mul_raw]. destruct k as [|[|k]]; reflexivity.
  - change (mul_raw (a :: p) (b :: q))
      with (add_raw (map (cmul a) (b :: q)) (czero :: mul_raw p (b :: q))).
    change (mul_raw (a :: p) q) with (add_raw (map (cmul a) q) (czero :: mul_raw p q)).
    assert (Hm : forall l : tpoly, Forall ps_wf (map (cmul a) l)).
    { intros l. apply map_all_wf. intros c. apply ps_mul_wf. }
    assert (Hz : forall l : tpoly, Forall ps_wf (czero :: mul_raw p l)).
    { intros l. constructor; [apply ps_zero_wf|apply mul_raw_all_wf]. }
    rewrite tcoeff_add_raw by auto.
    destruct k as [|k].
    + cbn [map nth]. rewrite mapped_cons_0.
      change czero with ps_zero. reflexivity.
    + cbn [map]. change (nth (S k) (cmul a b :: map (cmul a) q) ps_zero)
        with (nth k (map (cmul a) q) ps_zero).
      change (nth (S k) (czero :: mul_raw p (b :: q)) ps_zero)
        with (nth k (mul_raw p (b :: q)) ps_zero).
      rewrite IH. rewrite mapped_cons_S.
      change (nth (S k) (ps_zero :: add_raw (map (cmul a) q) (czero :: mul_raw p q)) ps_zero)
        with (nth k (add_raw (map (cmul a) q) (czero :: mul_raw p q)) ps_zero).
      rewrite tcoeff_add_raw by auto.
      change czero with ps_zero.
      apply ps_add_swap.
Qed.

Lemma mul_raw_nil_r (p : tpoly) (k : nat) : nth k (mul_raw p (@nil pseries)) ps_zero = ps_zero.
Proof.
  revert k. induction p as [|a p IH]; intros k; [destruct k; reflexivity|].
  cbn [mul_raw map add_raw]. destruct k as [|k]; [reflexivity|]. apply IH.
Qed.

Lemma mul_raw_comm (p q : tpoly) (k : nat) :
  nth k (mul_raw p q) ps_zero = nth k (mul_raw q p) ps_zero.
Proof.
  revert q k. induction p as [|a p IH]; intros q k.
  - rewrite mul_raw_nil_r. destruct k; reflexivity.
  - rewrite mul_raw_column.
    change (mul_raw (a :: p) q) with (add_raw (map (cmul a) q) (czero :: mul_raw p q)).
    rewrite tcoeff_add_raw.
    + rewrite nth_map_mapped. f_equal.
      * unfold mapped. destruct (_ <? _)%nat; [apply ps_mul_comm|reflexivity].
      * destruct k as [|k]; [reflexivity|]. apply IH.
    + apply map_all_wf. intros c. apply ps_mul_wf.
    + constructor; [apply ps_zero_wf|apply mul_raw_all_wf].
Qed.

Lemma tail_mul_comm (S T : tpoly) : mul S T = mul T S.
Proof. unfold mul. apply norm_ext_gen; [reflexivity|]. intros k. apply mul_raw_comm. Qed.

(** The product does not depend on the order of its operands: for two
    series produced by the constructor, [A * B] and [B * A] return the same
    series. *)
Theorem product_is_commutative (A B : ContinuousGeneralizedSeries) :
  cgs_value A -> cgs_value B -> cgs_mul A B = cgs_mul B A.
Proof.
  intros VA VB. pose proof (cgs_value_wf A VA) as HA. pose proof (cgs_value_wf B VB) as HB.
  destruct (inflate_lcm A B HA HB) as [a [b [Ea Eb]]].
  unfold cgs_mul, cgs_ramification.
  rewrite (Z.lcm_comm (c_ramification B) (c_ramification A)).
  rewrite Ea, Eb. cbn [bind].
  rewrite (tail_mul_comm (snd a) (snd b)), (poly_add_comm (fst a) (fst b)). reflexivity.
Qed.

Lemma product_is_commutative_witness :
  cgs_mul similar_A truncated_series = cgs_mul truncated_series similar_A.
Proof.
  apply (product_is_commutative similar_A truncated_series similar_A_value
           truncated_series_value).
Defined.

(** The product of two discrete series does not depend on the order of its
    operands: [A * B] and [B * A] return the same series or raise the same
    exception. *)
Theorem discrete_product_is_commutative (A B : DiscreteGeneralizedSeries) :
  dgs_value A -> dgs_value B -> dgs_mul A B = dgs_mul B A.
Proof.
  intros VA VB. pose proof (dgs_value_wf A VA) as HA. pose proof (dgs_value_wf B VB) as HB.
  destruct (dgs_inflate_lcm A B (dwf_ram A HA) (dwf_ram B HB)) as [a [b [Ea Eb]]].
  unfold dgs_mul.
  rewrite (Z.lcm_comm (d_ramification B) (d_ramification A)).
  rewrite Ea, Eb. cbn [bind].
  rewrite (tail_mul_comm (snd a) (snd b)), (poly_add_comm (fst a) (fst b)).
  rewrite (Qcplus_comm (d_gamma A)), (Qcplus_comm (d_alpha A)), (Qcmult_comm (d_rho A)).
  reflexivity.
Qed.

Lemma discrete_product_is_commutative_witness :
  dgs_mul discrete_A discrete_B = dgs_mul discrete_B discrete_A.
Proof.
  apply (discrete_product_is_commutative discrete_A discrete_B discrete_A_value
           discrete_B_value).
Defined.

(** *** Sums of discrete series *)

Lemma discrete_C_value : dgs_value discrete_C.
Proof.
  apply (dgs_value_list 0 1 (Z2Qc 2) (SubexpPoly []) 0
           (ExpansionTail [PS [1%Qc] (Some 3%nat)]) false).
  decide_dgs.
Qed.

Lemma eqb_sym_of {A : Type} (f : A -> A -> bool) (a b : A) :
  (forall x y, f x y = true -> x = y) -> (forall x, f x x = true) -> f a b = f b a.
Proof.
  intros H R. destruct (f a b) eqn:E1, (f b a) eqn:E2; try reflexivity.
  - apply H in E1. subst b. rewrite R in E2. discriminate.
  - apply H in E2. subst b. rewrite R in E1. discriminate.
Qed.

Lemma in_ZZ_sub_sym (a b : Qc) : in_ZZ (a - b) = in_ZZ (b - a).
Proof.
  replace (b - a)%Qc with (- (a - b))%Qc by ring.
  unfold in_ZZ. rewrite denominator_opp. reflexivity.
Qed.

Lemma dgs_similar_sym (A B : DiscreteGeneralizedSeries) (ref : reference) :
  dgs_similar A B ref = dgs_similar B A ref.
Proof.
  unfold dgs_similar.
  rewrite (eqb_sym_of Qc_eq_bool (d_gamma A) (d_gamma B) Qc_eq_bool_true Qc_eq_bool_refl).
  rewrite (eqb_sym_of Qc_eq_bool (d_rho A) (d_rho B) Qc_eq_bool_true Qc_eq_bool_refl).
  rewrite (eqb_sym_of poly_eqb (d_subexp A) (d_subexp B) poly_eqb_true poly_eqb_refl).
  rewrite (Z.eqb_sym (d_ramification A)).
  destruct ref; [rewrite in_ZZ_sub_sym|]; reflexivity.
Qed.

Lemma Qc_max_comm (a b : Qc) : Qc_max a b = Qc_max b a.
Proof.
  unfold Qc_max. destruct (Qc_ltb a b) eqn:E1, (Qc_ltb b a) eqn:E2; try reflexivity.
  - apply Qc_ltb_lt in E1, E2. exfalso. apply (Qclt_not_le _ _ E1). apply Qclt_le_weak. exact E2.
  - apply Qc_ltb_ge in E1, E2. apply Qcle_antisym; assumption.
Qed.

(** The sum of two discrete series does not depend on the order of its
    operands: [A + B] and [B + A] return the same series or raise the same
    exception. *)
Theorem discrete_sum_is_commutative (A B : DiscreteGeneralizedSeries) :
  dgs_value A -> dgs_value B -> dgs_add A B = dgs_add B A.
Proof.
  intros VA VB.
  pose proof (dgs_value_wf A VA) as HA. pose proof (dgs_value_wf B VB) as HB.
  unfold dgs_add.
  destruct (dgs_is_zero A) eqn:ZA.
  { destruct (dgs_is_zero B) eqn:ZB; [|reflexivity].
    rewrite (dgs_value_zero A VA ZA), (dgs_value_zero B VB ZB). reflexivity. }
  destruct (dgs_is_zero B) eqn:ZB; [reflexivity|].
  rewrite (dgs_similar_sym B A).
  destruct (dgs_similar A B ZZ) eqn:Hsim; cbn [negb]; [|reflexivity].
  unfold dgs_similar in Hsim.
  apply andb_prop in Hsim as [Hsim _]. apply andb_prop in Hsim as [Hsim Hsub].
  apply andb_prop in Hsim as [Hsim Hram]. apply andb_prop in Hsim as [Hgam Hrho].
  apply Z.eqb_eq in Hram. apply poly_eqb_true in Hsub.
  apply Qc_eq_bool_true in Hgam, Hrho.
  rewrite <- Hram, <- Hgam, <- Hrho, lcm_diag_pos by (apply (dwf_ram A HA)).
  rewrite dgs_inflate_same by (apply (dwf_ram A HA)).
  rewrite (dgs_inflate_to B (d_ramification A));
    [|symmetry; exact Hram|apply (dwf_ram A HA)].
  cbn [bind fst snd]. rewrite <- Hsub.
  rewrite (Qc_max_comm (d_alpha B) (d_alpha A)).
  set (al := Qc_max (d_alpha A) (d_alpha B)).
  destruct (Qc_ltb (d_alpha A) al) eqn:LA.
  - assert (LB : Qc_ltb (d_alpha B) al = false).
    { unfold al, Qc_max in *. destruct (Qc_ltb (d_alpha A) (d_alpha B)).
      - apply Qc_ltb_ge. apply Qcle_refl.
      - apply Qc_ltb_lt in LA. exfalso. apply (Qclt_not_eq _ _ LA). reflexivity. }
    rewrite LB.
    destruct (to_exponent (Z2Qc (d_ramification A) * (al - d_alpha A))) as [k|e];
      cbn [bind fst snd]; [|reflexivity].
    rewrite tail_add_comm. reflexivity.
  - destruct (Qc_ltb (d_alpha B) al) eqn:LB.
    + destruct (to_exponent (Z2Qc (d_ramification A) * (al - d_alpha B))) as [k|e];
        cbn [bind fst snd]; [|reflexivity].
      rewrite tail_add_comm. reflexivity.
    + cbn [bind fst snd]. rewrite tail_add_comm. reflexivity.
Qed.

Lemma discrete_sum_is_commutative_witness :
  dgs_add discrete_A discrete_C = dgs_add discrete_C discrete_A.
Proof.
  apply (discrete_sum_is_commutative discrete_A discrete_C discrete_A_value discrete_C_value).
Defined.
